(** * Knowledge-graph store (api/models/kGraph.js): model and properties

    A shallow embedding of the per-user knowledge-graph store.  JavaScript
    numbers are IEEE-754 doubles ([PrimFloat.float]); the Mongo collections,
    the ObjectId generator, the clock, the logger and the trace of requests
    sent to the embedding peer form an explicit [World] that every operation
    threads through a state-and-exception monad.  State survives a thrown
    exception, exactly as a committed [save()] survives a later [throw].

    Ids are strings: every string stands for a well-formed id in its
    canonical text form, so [String(ObjectId(id))] is [id], and a fresh
    ObjectId is the text of a counter.  The store itself does not fail. *)

From Stdlib Require Import Floats.PrimFloat.
From stdpp Require Import gmap strings list pretty.

Open Scope string_scope.

(* Decimal literals such as 0.4 denote the nearest double, as in JavaScript. *)
#[local] Set Warnings "-inexact-float".

(** ** Data model *)

(** Modelled from the spec: the sub-document schemas of
    [./schema/kgraphSchema], which kGraph.js requires.  Field names
    are the ones kGraph.js reads and writes. *)
Record Node := mkNode {
  node_id : string;                        (* _id.toString() *)
  content : string;
  node_label : list string;
  x : float;
  y : float;
  source_message_id : option string;       (* null = None *)
  source_conversation_id : option string;
  updatedAt : option nat;                  (* set by the edge operations *)
}.

Record Edge := mkEdge {
  edge_id : string;
  source : string;
  target : string;
  edge_label : list string;
}.

(** One document per user: [{ userId, nodes: [], edges: [] }]. *)
Record GraphDocument := mkGraph {
  nodes : list Node;
  edges : list Edge;
}.

(** Modelled from the spec: the part of the [Message] model that
    [importNodes] touches (scratch nodes attached to a message). *)
Record ScratchNode := mkScratch {
  sn_id : string;
  sn_content : string;      (* the empty string is falsy *)
  sn_label : string;
  sn_x : float;
  sn_y : float;
  isCurated : bool;
}.

Record Message := mkMessage {
  messageId : string;
  conversationId : string;
  user : string;
  msg_nodes : list ScratchNode;
}.

(** ** JavaScript values that reach the store *)

(** A [label] argument that is present: an array of strings or one string.
    An absent ([undefined]) argument is [None] at the use site. *)
Inductive LabelValue :=
| LArr (ls : list string)
| LStr (s : string).

(** Truthiness of the values the code tests with [!v], [v ? a : b], [v || d]. *)
Definition truthy_string (s : string) : bool :=
  match s with EmptyString => false | _ => true end.

Definition truthy_opt_string (o : option string) : bool :=
  match o with Some s => truthy_string s | None => false end.

(** [v || 0] on a number: zero (of either sign) and NaN are falsy. *)
Definition truthy_number (v : float) : bool :=
  negb (PrimFloat.eqb v 0%float || PrimFloat.is_nan v).

Definition number_or_zero (v : option float) : float :=
  match v with
  | Some f => if truthy_number f then f else 0%float
  | None => 0%float
  end.

(** [s || null] *)
Definition string_or_null (o : option string) : option string :=
  match o with
  | Some s => if truthy_string s then Some s else None
  | None => None
  end.

(** ** The embedding / clustering peer *)

Inductive Endpoint :=
| EmbedNode        (* `${PYTHON_SERVER_URL}/embed/node` *)
| EmbedEdge        (* `${PYTHON_SERVER_URL}/embed/edge` *)
| EmbedDelete      (* `${PYTHON_SERVER_URL}/embed/delete` *)
| EmbedReset       (* `${PYTHON_SERVER_URL}/embed/reset` *)
| CalculateUmap.   (* `${PYTHON_SERVER_URL}/calculate-umap` *)

Definition PYTHON_SERVER_URL : string := "http://localhost:8000".

Definition url (e : Endpoint) : string :=
  PYTHON_SERVER_URL ++
  match e with
  | EmbedNode => "/embed/node"
  | EmbedEdge => "/embed/edge"
  | EmbedDelete => "/embed/delete"
  | EmbedReset => "/embed/reset"
  | CalculateUmap => "/calculate-umap"
  end.

Record EdgePayload := mkEdgePayload {
  ep_id : string;
  ep_source_id : string;
  ep_target_id : string;
  ep_label : LabelValue;
}.

Inductive Body :=
| BodyNodes (user_id : string) (nodes : list (string * string))   (* { id, content } *)
| BodyEdges (user_id : string) (edges : list EdgePayload)
| BodyIds (user_id : string) (ids : list string)
| BodyUser (user_id : string).

(** The third argument of [axios.post]: [{ timeout, headers }]. *)
Record Config := mkConfig {
  timeout : option N;                  (* milliseconds; None = key absent *)
  authorization : option string;       (* headers.Authorization *)
}.

Record Request := mkRequest {
  endpoint : Endpoint;
  body : Body;
  config : Config;
}.

Record UmapItem := mkItem {
  item_id : string;
  item_x : float;
  item_y : float;
}.

(** What the peer does with a request: the promise rejects (time-out or
    error status) or resolves with [response.data]. *)
Inductive Reply :=
| Rejected (status : option nat) (message : string)
| Resolved (data : list UmapItem).

Definition Peer : Type := Request → Reply.

(** [headers: authHeader ? { Authorization: authHeader } : {}] *)
Definition headers (authHeader : option string) : option string :=
  if truthy_opt_string authHeader then authHeader else None.

(** ** Exceptions, log, world *)

Inductive Exn :=
| TypeError (message : string)
| Error (message : string)
| AxiosError (status : option nat) (message : string).

Definition message_of (e : Exn) : string :=
  match e with
  | TypeError m | Error m | AxiosError _ m => m
  end.

Inductive Level := LInfo | LWarn | LError.

(** A logger call: level, the fixed text of the message (interpolated ids are
    left out) and, where the call passes an error, that error's message. *)
Record LogEntry := mkLog {
  level : Level;
  text : string;
  detail : option string;
}.

Record World := mkWorld {
  kgraphs : gmap string GraphDocument;   (* the KGraph collection, by userId *)
  messages : list Message;               (* the Message collection *)
  next_oid : nat;                        (* ObjectId generator *)
  clock : nat;                           (* what [new Date()] reads *)
  sent : list Request;                   (* axios.post calls, oldest first *)
  log : list LogEntry;                   (* logger output, oldest first *)
}.

Definition set_kgraphs (f : gmap string GraphDocument → gmap string GraphDocument)
    (w : World) : World :=
  mkWorld (f (kgraphs w)) (messages w) (next_oid w) (clock w) (sent w) (log w).

Definition set_messages (ms : list Message) (w : World) : World :=
  mkWorld (kgraphs w) ms (next_oid w) (clock w) (sent w) (log w).

(** ** The monad: state that survives exceptions *)

Definition M (A : Type) : Type := World → World * (Exn + A).

Definition ret {A} (a : A) : M A := λ w, (w, inr a).

Definition bind {A B} (m : M A) (k : A → M B) : M B :=
  λ w, match m w with
       | (w', inr a) => k a w'
       | (w', inl e) => (w', inl e)
       end.

Definition throw {A} (e : Exn) : M A := λ w, (w, inl e).

(** [try { m } catch (e) { h e }] *)
Definition try_catch {A} (m : M A) (h : Exn → M A) : M A :=
  λ w, match m w with
       | (w', inl e) => h e w'
       | r => r
       end.

Declare Scope js_scope.
Delimit Scope js_scope with js.
Notation "'let*' x := m 'in' k" := (bind m (λ x, k))
  (at level 10, x name, m at level 100, k at level 200) : js_scope.
Notation "m ;;; k" := (bind m (λ _, k))
  (at level 100, k at level 200, right associativity) : js_scope.
Open Scope js_scope.

Definition when (b : bool) (m : M unit) : M unit := if b then m else ret tt.

Definition logger (lv : Level) (t : string) (d : option string) : M unit :=
  λ w, (mkWorld (kgraphs w) (messages w) (next_oid w) (clock w) (sent w)
          (log w ++ [mkLog lv t d]), inr tt).

Definition EMBED_SKIPPED : string := "[KGraph] Embed skipped for edge update.".

(** Sub-document ids are generated when a sub-document is pushed. *)
Definition oid (n : nat) : string := pretty n.

Definition fresh_oid : M string :=
  λ w, (mkWorld (kgraphs w) (messages w) (S (next_oid w)) (clock w) (sent w) (log w),
        inr (oid (next_oid w))).

(** [new Date()] *)
Definition new_Date : M nat := λ w, (w, inr (clock w)).

(** [KGraph.findOne({ userId })] *)
Definition findOne (userId : string) : M (option GraphDocument) :=
  λ w, (w, inr (kgraphs w !! userId)).

(** [graph.save()] for the document of [userId]. *)
Definition save (userId : string) (g : GraphDocument) : M unit :=
  λ w, (set_kgraphs (insert userId g) w, inr tt).

(** [getOrCreateGraphDoc]: the missing-userId branch only logs. *)
Definition getOrCreateGraphDoc (userId : string) : M GraphDocument :=
  when (negb (truthy_string userId))
    (logger LError "[KGraph] getOrCreateGraphDoc: userId missing" None;;;
     logger LWarn EMBED_SKIPPED None);;;
  let* graph := findOne userId in
  match graph with
  | Some g => ret g
  | None =>
      logger LInfo "[KGraph] new graph" None;;;
      let g := mkGraph [] [] in
      save userId g;;;
      ret g
  end.

(** The fixed client-side time-out the embed calls pass, in milliseconds. *)
Definition EMBED_TIMEOUT : N := 15000.

Definition embed_config (authHeader : option string) : Config :=
  mkConfig (Some EMBED_TIMEOUT) (headers authHeader).

(** The [catch (embedErr)] blocks: one or more error lines and a warning are
    logged, nothing is rethrown. *)
Definition embed_failed (what : string) (embedErr : Exn) : M unit :=
  logger LError what (Some (message_of embedErr));;;
  logger LWarn EMBED_SKIPPED None.

(** *** Node helpers *)

(** [graph.nodes.id(id)]: the first sub-document with that _id, with its
    position, or null. *)
Definition nodes_id (ns : list Node) (id : string) : option (nat * Node) :=
  list_find (λ n, node_id n = id) ns.

Definition set_label (l : list string) (n : Node) : Node :=
  mkNode (node_id n) (content n) l (x n) (y n)
    (source_message_id n) (source_conversation_id n) (updatedAt n).
Definition set_x (v : float) (n : Node) : Node :=
  mkNode (node_id n) (content n) (node_label n) v (y n)
    (source_message_id n) (source_conversation_id n) (updatedAt n).
Definition set_y (v : float) (n : Node) : Node :=
  mkNode (node_id n) (content n) (node_label n) (x n) v
    (source_message_id n) (source_conversation_id n) (updatedAt n).
Definition set_content (c : string) (n : Node) : Node :=
  mkNode (node_id n) c (node_label n) (x n) (y n)
    (source_message_id n) (source_conversation_id n) (updatedAt n).
Definition set_source_message_id (m : option string) (n : Node) : Node :=
  mkNode (node_id n) (content n) (node_label n) (x n) (y n)
    m (source_conversation_id n) (updatedAt n).
Definition set_source_conversation_id (c : option string) (n : Node) : Node :=
  mkNode (node_id n) (content n) (node_label n) (x n) (y n)
    (source_message_id n) c (updatedAt n).
Definition set_updatedAt (t : nat) (n : Node) : Node :=
  mkNode (node_id n) (content n) (node_label n) (x n) (y n)
    (source_message_id n) (source_conversation_id n) (Some t).

(** [label] normalised as [createNode] and [createEdge] do: an array as it
    is, a truthy scalar wrapped, anything else the empty array. *)
Definition label_array (label : option LabelValue) : list string :=
  match label with
  | Some (LArr ls) => ls
  | Some (LStr s) => if truthy_string s then [s] else []
  | None => []
  end.

(** [Array.isArray(l) ? l : [l]] *)
Definition wrap_label (l : LabelValue) : list string :=
  match l with
  | LArr ls => ls
  | LStr s => [s]
  end.

(** The request body of [createNode]. *)
Record NodeData := mkNodeData {
  nd_label : option LabelValue;
  nd_x : option float;
  nd_y : option float;
  nd_content : option string;
  nd_source_message_id : option string;
  nd_source_conversation_id : option string;
}.

(** The request body of [updateNode]; [None] is [undefined].  The two
    provenance fields may also be set to null ([Some None]). *)
Record NodeUpdate := mkNodeUpdate {
  nu_label : option LabelValue;
  nu_labels : option LabelValue;
  nu_x : option float;
  nu_y : option float;
  nu_content : option string;
  nu_source_message_id : option (option string);
  nu_source_conversation_id : option (option string);
}.

(** [node.prop = v] where [node] may be null. *)
Definition assign (node : option (nat * Node)) (prop : string) (f : Node → Node)
    : M (option (nat * Node)) :=
  match node with
  | Some (i, n) => ret (Some (i, f n))
  | None => throw (TypeError ("Cannot set properties of null (setting '" ++ prop ++ "')"))
  end.

Definition assign_if {V} (v : option V) (node : option (nat * Node)) (prop : string)
    (f : V → Node → Node) : M (option (nat * Node)) :=
  match v with
  | Some v => assign node prop (f v)
  | None => ret node
  end.

(** The in-memory [graph.nodes] after its sub-document was mutated. *)
Definition write_back (node : option (nat * Node)) (ns : list Node) : list Node :=
  match node with
  | Some (i, n) => <[i:=n]> ns
  | None => ns
  end.

Definition is_some {A} (o : option A) : bool :=
  match o with Some _ => true | None => false end.

(** [arr.slice(-k)]: the last k elements; slice(-0) is slice(0), the whole. *)
Definition slice_last {A} (k : nat) (l : list A) : list A :=
  match k with
  | 0 => l
  | _ => drop (length l - k) l
  end.

(** Pushing plain objects onto [graph.nodes]: each gets a fresh _id. *)
Fixpoint push_nodes (news : list (string → Node)) (ns : list Node) : M (list Node) :=
  match news with
  | [] => ret ns
  | mk :: rest =>
      let* _id := fresh_oid in
      push_nodes rest (ns ++ [mk _id])
  end.

(** *** Message helpers (importNodes) *)

(** [Message.find({ 'nodes._id': { $in: nodeIds }, user: userId })] *)
Definition message_matches (userId : string) (nodeIds : list string) (m : Message) : bool :=
  bool_decide (user m = userId) &&
  existsb (λ s, bool_decide (sn_id s ∈ nodeIds)) (msg_nodes m).

Definition Message_find (userId : string) (nodeIds : list string) : M (list Message) :=
  λ w, (w, inr (filter (λ m, message_matches userId nodeIds m = true) (messages w))).

(** The graph node built from a requested scratch node of [message]. *)
Definition imported_node (message : Message) (node : ScratchNode) (_id : string) : Node :=
  mkNode _id
    (if truthy_string (sn_content node) then sn_content node
     else if truthy_string (sn_label node) then sn_label node
     else "새 노드")
    (if truthy_string (sn_label node) then [sn_label node] else [])
    (number_or_zero (Some (sn_x node)))
    (number_or_zero (Some (sn_y node)))
    (Some (messageId message))
    (Some (conversationId message))
    None.

Definition curate (nodeIds : list string) (node : ScratchNode) : ScratchNode :=
  if bool_decide (sn_id node ∈ nodeIds)
  then mkScratch (sn_id node) (sn_content node) (sn_label node) (sn_x node) (sn_y node) true
  else node.

(** The messages' [save()]s: every found message has its requested scratch
    nodes marked curated (an unmodified message is saved as it was). *)
Definition save_messages (userId : string) (nodeIds : list string) : M unit :=
  λ w, (set_messages
          (map (λ m, if message_matches userId nodeIds m
                     then mkMessage (messageId m) (conversationId m) (user m)
                            (map (curate nodeIds) (msg_nodes m))
                     else m) (messages w)) w, inr tt).

(** *** Atomic updates of the collection *)

(** [KGraph.findOneAndUpdate({ userId }, update, { new: true })] *)
Definition findOneAndUpdate (userId : string) (f : GraphDocument → GraphDocument)
    : M (option GraphDocument) :=
  λ w, match kgraphs w !! userId with
       | Some g => (set_kgraphs (insert userId (f g)) w, inr (Some (f g)))
       | None => (w, inr None)
       end.

(** [KGraph.updateOne({ userId }, update)] *)
Definition updateOne (userId : string) (f : GraphDocument → GraphDocument) : M unit :=
  λ w, match kgraphs w !! userId with
       | Some g => (set_kgraphs (insert userId (f g)) w, inr tt)
       | None => (w, inr tt)
       end.

(** [KGraph.deleteOne({ userId })] *)
Definition deleteOne (userId : string) : M unit :=
  λ w, (set_kgraphs (delete userId) w, inr tt).

(** [$pull: { nodes: { _id: { $in: ids } } }] *)
Definition pull_nodes (ids : list string) (g : GraphDocument) : GraphDocument :=
  mkGraph (filter (λ n, node_id n ∉ ids) (nodes g)) (edges g).

(** [$pull: { edges: { $or: [{ source: { $in: ids } }, { target: { $in: ids } }] } }] *)
Definition pull_edges (ids : list string) (g : GraphDocument) : GraphDocument :=
  mkGraph (nodes g) (filter (λ e, ¬ (source e ∈ ids ∨ target e ∈ ids)) (edges g)).

Section WithPeer.
Context (peer : Peer).

(** [await axios.post(url, body, config)] *)
Definition axios_post (e : Endpoint) (b : Body) (c : Config) : M (list UmapItem) :=
  λ w, let req := mkRequest e b c in
       let w' := mkWorld (kgraphs w) (messages w) (next_oid w) (clock w)
                   (sent w ++ [req]) (log w) in
       match peer req with
       | Rejected st msg => (w', inl (AxiosError st msg))
       | Resolved d => (w', inr d)
       end.

(** The [try { await axios.post(...) } catch (embedErr) { log }] block every
    mutation ends with. *)
Definition embed (e : Endpoint) (b : Body) (authHeader : option string)
    (what : string) : M unit :=
  try_catch
    (axios_post e b (embed_config authHeader);;;
     logger LInfo "[KGraph] Embed call success" None)
    (embed_failed what).

(** ** Node operations *)

(** (API 2.1) POST /nodes *)
Definition createNode (userId : string) (d : NodeData) (authHeader : option string)
    : M Node :=
  try_catch
    (let* graph := getOrCreateGraphDoc userId in
     let labelArr := label_array (nd_label d) in
     let newNode := λ _id,
       mkNode _id (default "" (nd_content d)) labelArr
         (number_or_zero (nd_x d)) (number_or_zero (nd_y d))
         (string_or_null (nd_source_message_id d))
         (string_or_null (nd_source_conversation_id d))
         None in
     let* ns := push_nodes [newNode] (nodes graph) in
     let graph := mkGraph ns (edges graph) in
     save userId graph;;;
     match last (nodes graph) with
     | None => throw (TypeError "Cannot read properties of undefined (reading 'toObject')")
     | Some createdNode =>
         let nodeForFrontend := createdNode in
         logger LInfo "[KGraph] Embed request start" None;;;
         embed EmbedNode
           (BodyNodes userId [(node_id nodeForFrontend, content nodeForFrontend)])
           authHeader "[KGraph] Embed call failed for createNode";;;
         ret nodeForFrontend
     end)
    (λ error,
       logger LError "[KGraph] Error in createNode" (Some (message_of error));;;
       throw (Error ("노드 생성에 실패했습니다: " ++ message_of error))).

(** (API 2.2) PATCH /nodes/{nodeId}.  The missing-node branch only logs; the
    first write to (or read of) the null [node] then raises a TypeError. *)
Definition updateNode (userId nodeId : string) (u : NodeUpdate)
    (authHeader : option string) : M Node :=
  try_catch
    (let* graph := getOrCreateGraphDoc userId in
     let node := nodes_id (nodes graph) nodeId in
     when (negb (is_some node)) (logger LWarn EMBED_SKIPPED None);;;
     let* node :=
       match nu_labels u with
       | Some labels => assign node "label" (set_label (wrap_label labels))
       | None => assign_if (nu_label u) node "label" (λ l, set_label (wrap_label l))
       end in
     let* node := assign_if (nu_x u) node "x" set_x in
     let* node := assign_if (nu_y u) node "y" set_y in
     let* node := assign_if (nu_content u) node "content" set_content in
     let contentChanged := is_some (nu_content u) in
     let* node := assign_if (nu_source_message_id u) node "source_message_id"
                    set_source_message_id in
     let* node := assign_if (nu_source_conversation_id u) node "source_conversation_id"
                    set_source_conversation_id in
     save userId (mkGraph (write_back node (nodes graph)) (edges graph));;;
     match node with
     | None => throw (TypeError "Cannot read properties of null (reading 'toObject')")
     | Some (_, updatedNode) =>
         when contentChanged
           (embed EmbedNode
              (BodyNodes userId [(node_id updatedNode, content updatedNode)])
              authHeader "[KGraph] Embed call failed for updateNode");;;
         ret updatedNode
     end)
    (λ error,
       logger LError "[KGraph] Error in updateNode" (Some (message_of error));;;
       throw (Error ("노드 수정에 실패했습니다: " ++ message_of error))).

(** (API 2.3) POST /nodes/batch.  The guards on an empty request, on no
    message found and on no node extracted only log. *)
Definition importNodes (userId : string) (nodeIds : list string)
    (authHeader : option string) : M (list Node) :=
  try_catch
    (when (bool_decide (length nodeIds = 0)) (logger LWarn EMBED_SKIPPED None);;;
     let* messages := Message_find userId nodeIds in
     when (bool_decide (length messages = 0)) (logger LWarn EMBED_SKIPPED None);;;
     let* graph := getOrCreateGraphDoc userId in
     let newNodes :=
       flat_map (λ message,
         imported_node message <$>
           filter (λ node, sn_id node ∈ nodeIds) (msg_nodes message)) messages in
     when (bool_decide (length newNodes = 0)) (logger LWarn EMBED_SKIPPED None);;;
     let* ns := push_nodes newNodes (nodes graph) in
     let graph := mkGraph ns (edges graph) in
     save_messages userId nodeIds;;;
     save userId graph;;;
     let addedNodes := slice_last (length newNodes) (nodes graph) in
     let addedNodesForFrontend := addedNodes in
     embed EmbedNode
       (BodyNodes userId ((λ n, (node_id n, content n)) <$> addedNodesForFrontend))
       authHeader "[KGraph] Embed call failed for importNodes";;;
     ret addedNodesForFrontend)
    (λ error,
       logger LError "[KGraph] Error in importNodes" (Some (message_of error));;;
       throw (Error ("노드 가져오기 실패: " ++ message_of error))).

(** (API 2.4) POST /nodes/delete.  Ids are kept in their string form:
    [String(ObjectId(id))] is [id] for a well-formed id, and an id that does
    not convert is used as [String(id)]. *)
Definition deleteNodes (userId : string) (nodeIds : list string)
    (authHeader : option string) : M nat :=
  when (bool_decide (length nodeIds = 0)) (logger LWarn EMBED_SKIPPED None);;;
  let convertedIds := nodeIds in
  try_catch
    (let* updated := findOneAndUpdate userId (pull_nodes convertedIds) in
     when (negb (is_some updated))
       (logger LWarn "[KGraph] deleteNodes: User graph not found or no nodes deleted" None);;;
     let idStrings := convertedIds in
     updateOne userId (pull_edges idStrings);;;
     embed EmbedDelete (BodyIds userId idStrings) authHeader
       "[KGraph] Embed delete call failed";;;
     ret (length nodeIds))
    (λ error,
       logger LError "[KGraph] Error in deleteNodes" (Some (message_of error));;;
       throw (Error ("노드 삭제에 실패했습니다: " ++ message_of error))).

(** ** Edge operations *)

(** [graph.edges.find((e) => e.source === source && e.target === target)],
    with the position of the edge found. *)
Definition find_edge (es : list Edge) (src tgt : string) : option (nat * Edge) :=
  list_find (λ e, source e = src ∧ target e = tgt) es.

Definition set_edge_label (l : list string) (e : Edge) : Edge :=
  mkEdge (edge_id e) (source e) (target e) l.

(** [for (const l of labelArr) if (!edge.label.includes(l)) edge.label.push(l)] *)
Definition mergeLabels (existing labelArr : list string) : list string :=
  foldl (λ acc l, if bool_decide (l ∈ acc) then acc else (acc ++ [l])%list) existing labelArr.

(** [if (node) node.updatedAt = now] for [node = graph.nodes.id(id)]. *)
Definition touch (id : string) (now : nat) (ns : list Node) : list Node :=
  match nodes_id ns id with
  | Some (i, n) => <[i:=set_updatedAt now n]> ns
  | None => ns
  end.

(** [nodesForResponse]: the endpoints that exist, source first. *)
Definition endpoint_nodes (ns : list Node) (src tgt : string) : list Node :=
  (match nodes_id ns src with Some (_, n) => [n] | None => [] end ++
   match nodes_id ns tgt with Some (_, n) => [n] | None => [] end)%list.

(** [label || ''] in the payload of [createEdge]. *)
Definition payload_label (label : option LabelValue) : LabelValue :=
  match label with
  | Some (LStr s) => LStr s
  | Some (LArr ls) => LArr ls
  | None => LStr ""
  end.

(** [(Array.isArray(label) ? label[0] : label) || ''] in [updateEdge]. *)
Definition payload_first_label (label : option LabelValue) : LabelValue :=
  match label with
  | Some (LArr (l :: _)) => LStr l
  | Some (LArr []) => LStr ""
  | Some (LStr s) => LStr s
  | None => LStr ""
  end.

(** (API 3.1) POST /edges *)
Definition createEdge (userId src tgt : string) (label : option LabelValue)
    (authHeader : option string) : M (Edge * list Node) :=
  try_catch
    (let* graph := getOrCreateGraphDoc userId in
     let found := find_edge (edges graph) src tgt in
     let labelArr := label_array label in
     let* r :=
       match found with
       | Some (i, edge) =>
           let edge := set_edge_label (mergeLabels (edge_label edge) labelArr) edge in
           ret (<[i:=edge]> (edges graph), edge)
       | None =>
           let* _id := fresh_oid in
           let newEdge := mkEdge _id src tgt labelArr in
           ret ((edges graph ++ [newEdge])%list, newEdge)
       end in
     let es := r.1 in
     let edge := r.2 in
     let* now := new_Date in
     let ns := touch tgt now (touch src now (nodes graph)) in
     save userId (mkGraph ns es);;;
     let edgeForResponse := edge in
     let nodesForResponse := endpoint_nodes ns src tgt in
     embed EmbedEdge
       (BodyEdges userId
          [mkEdgePayload (edge_id edgeForResponse) src tgt (payload_label label)])
       authHeader "[KGraph] Embed call failed for createEdge";;;
     ret (edgeForResponse, nodesForResponse))
    (λ error,
       logger LError "[KGraph] Error in createEdge" (Some (message_of error));;;
       throw (Error ("엣지 생성에 실패했습니다: " ++ message_of error))).

(** What [updateEdge] stores: the array, the wrapped string, or nothing. *)
Definition replacement_label (label : option LabelValue) : list string :=
  match label with
  | Some (LArr ls) => ls
  | Some (LStr s) => [s]
  | None => []
  end.

(** (API 3.2) PATCH /edges.  The missing-edge branch only logs; the write
    to [edge.label] on undefined then raises a TypeError. *)
Definition updateEdge (userId src tgt : string) (label : option LabelValue)
    (authHeader : option string) : M (Edge * list Node) :=
  try_catch
    (let* graph := getOrCreateGraphDoc userId in
     let found := find_edge (edges graph) src tgt in
     when (negb (is_some found)) (logger LWarn EMBED_SKIPPED None);;;
     match found with
     | None => throw (TypeError "Cannot set properties of undefined (setting 'label')")
     | Some (i, edge) =>
         let edge := set_edge_label (replacement_label label) edge in
         let* now := new_Date in
         let ns := touch tgt now (touch src now (nodes graph)) in
         save userId (mkGraph ns (<[i:=edge]> (edges graph)));;;
         let edgeForResponse := edge in
         let nodesForResponse := endpoint_nodes ns src tgt in
         embed EmbedEdge
           (BodyEdges userId
              [mkEdgePayload (edge_id edgeForResponse) src tgt (payload_first_label label)])
           authHeader "[KGraph] Embed call failed for updateEdge";;;
         ret (edgeForResponse, nodesForResponse)
     end)
    (λ error,
       logger LError "[KGraph] Error in updateEdge" (Some (message_of error));;;
       throw (Error ("엣지 수정에 실패했습니다: " ++ message_of error))).

(** (API 3.3) DELETE /edges.  Returns [deletedCount]. *)
Definition deleteEdge (userId src tgt : string) (authHeader : option string) : M nat :=
  try_catch
    (let* graph := getOrCreateGraphDoc userId in
     let found := find_edge (edges graph) src tgt in
     when (negb (is_some found)) (logger LWarn EMBED_SKIPPED None);;;
     match found with
     | None => throw (TypeError "Cannot read properties of undefined (reading '_id')")
     | Some (_, edge) =>
         let edgeId := edge_id edge in
         let* now := new_Date in
         let ns := touch tgt now (touch src now (nodes graph)) in
         (* graph.edges.pull({ _id: edge._id }) *)
         let es := filter (λ e, edge_id e ≠ edgeId) (edges graph) in
         save userId (mkGraph ns es);;;
         embed EmbedDelete (BodyIds userId [edgeId]) authHeader
           "[KGraph] Embed delete call failed for deleteEdge";;;
         ret 1
     end)
    (λ error,
       logger LError "[KGraph] Error in deleteEdge" (Some (message_of error));;;
       throw (Error ("엣지 삭제에 실패했습니다: " ++ message_of error))).

(** Graph reset: the document goes first, then the peer's vectors; the inner
    catch logs and does not rethrow.  Returns [success]. *)
Definition clearGraph (userId : string) (authHeader : option string) : M bool :=
  try_catch
    (deleteOne userId;;;
     logger LInfo "[KGraph] MongoDB graph deleted" None;;;
     try_catch
       (axios_post EmbedReset (BodyUser userId) (embed_config authHeader);;;
        logger LInfo "[KGraph] Python embedding reset success" None)
       (λ embedErr,
          logger LError "[KGraph] Python embedding reset failed"
            (Some (message_of embedErr)));;;
     ret true)
    (λ error,
       logger LError "[KGraph] Error in clearGraph" (Some (message_of error));;;
       throw error).

(** ** Reading the graph *)

(** (API 4.1) GET /graph.  [None] as a result is the [undefined] the catch
    block falls through to. *)
Definition getGraph (userId : string) (conversationId : option string)
    : M (option (list Node * list Edge)) :=
  try_catch
    (let* graph := getOrCreateGraphDoc userId in
     let filteredNodes :=
       if truthy_opt_string conversationId
       then filter (λ n, source_conversation_id n = conversationId) (nodes graph)
       else nodes graph in
     let nodeIdSet : gset string := list_to_set (node_id <$> filteredNodes) in
     let filteredEdges :=
       if truthy_opt_string conversationId
       then filter (λ e, source e ∈ nodeIdSet ∧ target e ∈ nodeIdSet) (edges graph)
       else edges graph in
     ret (Some (filteredNodes, filteredEdges)))
    (λ error,
       logger LError "[KGraph] Error in getGraph" (Some (message_of error));;;
       logger LWarn EMBED_SKIPPED None;;;
       ret None).

(** ** Layout *)

Definition SCALE : float := 250%float.

Definition set_xy (vx vy : float) (n : Node) : Node := set_y vy (set_x vx n).

(** The loop of [calculateCluster] over the peer's items. *)
Fixpoint apply_layout (umapData : list UmapItem) (ns : list Node) : M (list Node) :=
  match umapData with
  | [] => ret ns
  | item :: rest =>
      match nodes_id ns (item_id item) with
      | Some (i, node) =>
          apply_layout rest
            (<[i:=set_xy (item_x item * SCALE) (item_y item * SCALE) node]> ns)
      | None =>
          logger LWarn "[KGraph] Node not found in MongoDB" None;;;
          apply_layout rest ns
      end
  end.

(** (API 4.2) POST /cluster.  The request carries headers only. *)
Definition calculateCluster (userId : string) (authHeader : option string)
    : M (list UmapItem) :=
  try_catch
    (when (negb (truthy_string userId)) (logger LWarn EMBED_SKIPPED None);;;
     logger LInfo "[KGraph] calculateCluster" None;;;
     let* umapData :=
       axios_post CalculateUmap (BodyUser userId) (mkConfig None (headers authHeader)) in
     let* graph := getOrCreateGraphDoc userId in
     let* ns := apply_layout umapData (nodes graph) in
     save userId (mkGraph ns (edges graph));;;
     logger LInfo "[KGraph] MongoDB nodes updated successfully" None;;;
     logger LInfo "[KGraph] UMAP calculation completed" None;;;
     ret umapData)
    (λ error,
       logger LError "[KGraph] Error in calculateCluster" (Some (message_of error));;;
       throw (Error ("UMAP 군집 계산에 실패했습니다: " ++ message_of error))).

End WithPeer.

(** ** Recommendations *)

(** What a property read finds on [Object.prototype], told by what the
    call [strategy(userId, params)] (no receiver, a string as the first
    argument) does with it. *)
Inductive Inherited :=
| InheritedReturns (truthy : bool)   (* resolves with a value that is no array,
                                        not null and not undefined *)
| InheritedThrows (message : string). (* raises a TypeError *)

(** The members every ordinary object inherits.  [constructor] is [Object]:
    [Object(userId)] is a String object.  [toString] without a receiver
    gives the string "[object Undefined]".  [isPrototypeOf] of a string is
    false.  [__proto__] reads as [Object.prototype] itself, which is no
    function.  The other members convert their missing receiver to an
    object first, which raises.  (The messages are the engine's wording.) *)
Definition Object_prototype (name : string) : option Inherited :=
  if bool_decide (name = "constructor") then Some (InheritedReturns true)
  else if bool_decide (name = "toString") then Some (InheritedReturns true)
  else if bool_decide (name = "isPrototypeOf") then Some (InheritedReturns false)
  else if bool_decide (name = "__proto__")
  then Some (InheritedThrows "strategy is not a function")
  else if bool_decide (name ∈ ["toLocaleString"; "valueOf"; "hasOwnProperty";
                               "propertyIsEnumerable"; "__defineGetter__";
                               "__defineSetter__"; "__lookupGetter__";
                               "__lookupSetter__"])
  then Some (InheritedThrows "Cannot convert undefined or null to object")
  else None.

(** What [await strategy(userId, params)] gives. *)
Inductive Recommended :=
| RArray (ids : list string)
| RNothing                  (* null or undefined *)
| RValue (truthy : bool).   (* any other value: it has no [filter] *)

Definition as_recommended (r : option (list string)) : Recommended :=
  match r with
  | Some ids => RArray ids
  | None => RNothing
  end.

Section Recommendations.
(** The registry [require('./recommendations')] is not among the sources:
    it is a parameter, an object from method names to strategies, its own
    keys in insertion order.  It is an ordinary object ([Object.keys] lists
    its methods), so it inherits from [Object.prototype].  A strategy gets
    [(userId, params)], may read and write the world and call the peer, may
    throw, and resolves with an array of ids or with nothing ([None]: null
    or undefined). *)
Context {Params : Type}.
Definition Strategy : Type := string → Params → M (option (list string)).
Context (recommendationStrategies : list (string * Strategy)).

(** The registry's own property [method], if it has one. *)
Definition lookup_strategy (method : string) : option Strategy :=
  snd <$> find (λ kv, bool_decide (kv.1 = method)) recommendationStrategies.

(** [recommendationStrategies[method]]: the own property, or else the
    member of that name inherited from [Object.prototype]; [None] is
    undefined.  Every value found is truthy. *)
Definition read_strategy (method : string) : option (Strategy + Inherited) :=
  match lookup_strategy method with
  | Some s => Some (inl s)
  | None => inr <$> Object_prototype method
  end.

Definition invalid_method_message (method : string) : string :=
  "Invalid method: " ++ method ++ ". Valid methods are: " ++
  String.concat ", " (fst <$> recommendationStrategies).

(** (API 4.3) GET /recommendations *)
Definition getRecommendations (userId method : string) (params : Params)
    : M (list string) :=
  try_catch
    (when (negb (truthy_string userId)) (logger LWarn EMBED_SKIPPED None);;;
     let* strategy :=
       match read_strategy method with
       | Some s => ret s
       | None => throw (Error (invalid_method_message method))
       end in
     logger LInfo "[KGraph] getRecommendations" None;;;
     let* recommendations :=
       match strategy with
       | inl s => let* r := s userId params in ret (as_recommended r)
       | inr (InheritedReturns truthy) => ret (RValue truthy)
       | inr (InheritedThrows message) => throw (TypeError message)
       end in
     let* graph := getOrCreateGraphDoc userId in
     let nodeIdSet : gset string := list_to_set (node_id <$> nodes graph) in
     (* (recommendations || []).filter(...) *)
     let* filtered :=
       match recommendations with
       | RArray recs => ret (filter (λ id, id ∈ nodeIdSet) recs)
       | RNothing | RValue false => ret []
       | RValue true =>
           throw (TypeError "(recommendations || []).filter is not a function")
       end in
     (* recommendations.length, read for the log line *)
     match recommendations with
     | RNothing => throw (TypeError "Cannot read properties of undefined (reading 'length')")
     | _ => logger LInfo "[KGraph] Recommendations retrieved" None
     end;;;
     ret filtered)
    (λ error,
       logger LError "[KGraph] Error in getRecommendations" (Some (message_of error));;;
       ret []).

End Recommendations.

(** * Vocabulary of the properties *)

(** ** Views of a run *)

(** The document [getOrCreateGraphDoc] hands out: the stored one, or the
    empty one it creates. *)
Definition doc_of (w : World) (userId : string) : GraphDocument :=
  default (mkGraph [] []) (kgraphs w !! userId).

(** Replace the log, keep the rest. *)
Definition with_log (l : list LogEntry) (w : World) : World :=
  mkWorld (kgraphs w) (messages w) (next_oid w) (clock w) (sent w) l.

Definition with_sent (s : list Request) (w : World) : World :=
  mkWorld (kgraphs w) (messages w) (next_oid w) (clock w) s (log w).

Definition with_next_oid (k : nat) (w : World) : World :=
  mkWorld (kgraphs w) (messages w) k (clock w) (sent w) (log w).

(** The nodes and edges [getGraph] resolves with. *)
Definition graph_view (r : World * (Exn + option (list Node * list Edge)))
    : option (list Node * list Edge) :=
  match r.2 with
  | inr (Some v) => Some v
  | _ => None
  end.

(** ** getGraph as specified *)

(** The spec's sentence read at a conversationId that is given: the nodes
    returned are exactly the user's nodes of that conversation. *)
Definition getGraph_filters_at (w : World) (userId c : string) : Prop :=
  ∃ ns es,
    graph_view (getGraph userId (Some c) w) = Some (ns, es) ∧
    ∀ n, n ∈ ns ↔ n ∈ nodes (doc_of w userId) ∧ source_conversation_id n = Some c.

(** ** Recommendations and layout *)

(** The world in which the strategy is invoked: the entry log lines are
    written, nothing else has happened. *)
Definition strategy_world (userId : string) (w : World) : World :=
  ((when (negb (truthy_string userId)) (logger LWarn EMBED_SKIPPED None);;;
    logger LInfo "[KGraph] getRecommendations" None) w).1.

(** The last item the peer returned for a node id, if any. *)
Definition last_item_for (id : string) (umapData : list UmapItem) : option UmapItem :=
  last (filter (λ it, item_id it = id) umapData).

(** A node after the layout [umapData] was merged in. *)
Definition laid_out (umapData : list UmapItem) (n : Node) : Node :=
  match last_item_for (node_id n) umapData with
  | Some it => set_xy (item_x it * SCALE) (item_y it * SCALE) n
  | None => n
  end.

(** One item of the loop, seen from a node. *)
Definition place (item : UmapItem) (n : Node) : Node :=
  if decide (node_id n = item_id item)
  then set_xy (item_x item * SCALE) (item_y item * SCALE) n
  else n.

(** ** Comparing runs under two peers *)

(** Two worlds with the same collections, generator, clock and request
    trace: they may differ in the log only. *)
Definition same_data (w1 w2 : World) : Prop :=
  kgraphs w1 = kgraphs w2 ∧ messages w1 = messages w2 ∧
  next_oid w1 = next_oid w2 ∧ clock w1 = clock w2 ∧ sent w1 = sent w2.

(** Two computations that, from worlds with the same data, end with the same
    result (value or exception) in worlds with the same data. *)
Definition same_outcome {A} (m1 m2 : M A) : Prop :=
  ∀ w1 w2, same_data w1 w2 →
    (m1 w1).2 = (m2 w2).2 ∧ same_data (m1 w1).1 (m2 w2).1.

(** What the caller and the stores see of a run. *)
Definition committed {A} (r : World * (Exn + A))
    : (Exn + A) * gmap string GraphDocument * list Message :=
  (r.2, kgraphs r.1, messages r.1).

(** ** Labels and pairs *)

(** Specification of "no duplicates, first-seen order": every element is
    kept at its first occurrence and dropped at the later ones. *)
Fixpoint first_seen (l : list string) : list string :=
  match l with
  | [] => []
  | a :: l' => a :: filter (λ b, b ≠ a) (first_seen l')
  end.

(** The ordered pair an edge stands for. *)
Definition edge_key (e : Edge) : string * string := (source e, target e).

(** At most one edge per ordered (source, target) pair. *)
Definition unique_pairs (g : GraphDocument) : Prop := NoDup (edge_key <$> edges g).

Definition every_doc_unique (w : World) : Prop :=
  ∀ u g, kgraphs w !! u = Some g → unique_pairs g.

(** ** Invariants and reachable worlds *)

(** [keeps I m Q]: from a world satisfying the invariant [I], [m] ends
    (normally or with an exception) in a world satisfying [I], and a value
    it returns satisfies [Q]. *)
Definition keeps {A} (I : World → Prop) (m : M A) (Q : A → Prop) : Prop :=
  ∀ w, I w → I (m w).1 ∧ ∀ a, (m w).2 = inr a → Q a.

(** A call of an exported operation of kGraph.js that takes no registry;
    getRecommendations is a step of [reachable] of its own. *)
Inductive Call :=
| CallGetGraph (userId : string) (conversationId : option string)
| CallCreateNode (userId : string) (d : NodeData) (authHeader : option string)
| CallUpdateNode (userId nodeId : string) (u : NodeUpdate) (authHeader : option string)
| CallImportNodes (userId : string) (nodeIds : list string) (authHeader : option string)
| CallDeleteNodes (userId : string) (nodeIds : list string) (authHeader : option string)
| CallCreateEdge (userId src tgt : string) (label : option LabelValue)
    (authHeader : option string)
| CallUpdateEdge (userId src tgt : string) (label : option LabelValue)
    (authHeader : option string)
| CallDeleteEdge (userId src tgt : string) (authHeader : option string)
| CallClearGraph (userId : string) (authHeader : option string)
| CallCalculateCluster (userId : string) (authHeader : option string).

(** The world a call leaves behind, whether it resolved or threw. *)
Definition perform (peer : Peer) (c : Call) (w : World) : World :=
  match c with
  | CallGetGraph u c => (getGraph u c w).1
  | CallCreateNode u d a => (createNode peer u d a w).1
  | CallUpdateNode u n upd a => (updateNode peer u n upd a w).1
  | CallImportNodes u ids a => (importNodes peer u ids a w).1
  | CallDeleteNodes u ids a => (deleteNodes peer u ids a w).1
  | CallCreateEdge u s t l a => (createEdge peer u s t l a w).1
  | CallUpdateEdge u s t l a => (updateEdge peer u s t l a w).1
  | CallDeleteEdge u s t a => (deleteEdge peer u s t a w).1
  | CallClearGraph u a => (clearGraph peer u a w).1
  | CallCalculateCluster u a => (calculateCluster peer u a w).1
  end.

(** A registry whose strategies only read the KGraph collection and do not
    rewind the id generator. *)
Definition read_only {Params} (strategies : list (string * @Strategy Params)) : Prop :=
  ∀ name s userId params w,
    (name, s) ∈ strategies →
    kgraphs (s userId params w).1 = kgraphs w ∧
    (next_oid w ≤ next_oid (s userId params w).1)%nat.

(** The worlds the store can be in: it starts with no graph document and
    changes through calls only, each answered by the peer in any way;
    recommendations are asked of any registry of read-only strategies. *)
Inductive reachable : World → Prop :=
| reachable_start w : kgraphs w = ∅ → reachable w
| reachable_call peer c w : reachable w → reachable (perform peer c w)
| reachable_recommend {Params} (strategies : list (string * @Strategy Params))
    userId method params w :
    read_only strategies → reachable w →
    reachable (getRecommendations strategies userId method params w).1.

(** Node ids that a generator at [k] can have handed out, without repeats. *)
Definition ids_ok (k : nat) (ids : list string) : Prop :=
  NoDup ids ∧ Forall (λ id, ∃ j, (j < k)%nat ∧ id = oid j) ids.

(** Every document's node ids are distinct and were generated. *)
Definition ids_fresh (w : World) : Prop :=
  ∀ u g, kgraphs w !! u = Some g → ids_ok (next_oid w) (node_id <$> nodes g).

(** [w] has, user by user, some of the node ids of [w0] in their order, and
    a generator that is not behind the one of [w0]. *)
Definition shrinks (w0 w : World) : Prop :=
  (next_oid w0 ≤ next_oid w)%nat ∧
  ∀ u g, kgraphs w !! u = Some g →
    (node_id <$> nodes g) `sublist_of` (node_id <$> nodes (doc_of w0 u)).

(** Every request sent so far carries the 15 s time-out. *)
Definition all_timed (w : World) : Prop :=
  Forall (λ r, timeout (config r) = Some EMBED_TIMEOUT) (sent w).

(** ** Scenario: two ideas and an edge between them *)

Definition healthy_peer : Peer := λ _, Resolved [].

Definition failing_peer : Peer :=
  λ _, Rejected (Some 503) "timeout of 15000ms exceeded".

Definition start_world : World := mkWorld ∅ [] 0 0 [] [].

Definition idea (c : string) : NodeData := mkNodeData None None None (Some c) None None.

(** Node A ("0", idea1) and node B ("1", idea2), then edge A→B ("2") with
    the label 원인-결과, the last call with the peer down. *)
Definition scenario_world : World :=
  perform failing_peer (CallCreateEdge "u" "0" "1" (Some (LStr "원인-결과")) None)
    (perform healthy_peer (CallCreateNode "u" (idea "idea2") None)
       (perform healthy_peer (CallCreateNode "u" (idea "idea1") None) start_world)).

Definition scenario_edge : Edge := mkEdge "2" "0" "1" ["원인-결과"].

Definition scenario_doc : GraphDocument :=
  mkGraph
    [mkNode "0" "idea1" [] 0 0 None None (Some 0);
     mkNode "1" "idea2" [] 0 0 None None (Some 0)]
    [scenario_edge].

Definition in_conversation (c text : string) : NodeData :=
  mkNodeData None None None (Some text) None (Some c).

(** Node "0" of conversation c1 and node "1" of conversation c2, with an
    edge 0→1 ("2") and a loop 0→0 ("3"). *)
Definition sample_world : World :=
  perform healthy_peer (CallCreateEdge "u" "0" "0" (Some (LStr "y")) None)
    (perform healthy_peer (CallCreateEdge "u" "0" "1" (Some (LStr "x")) None)
       (perform healthy_peer (CallCreateNode "u" (in_conversation "c2" "idea2") None)
          (perform healthy_peer (CallCreateNode "u" (in_conversation "c1" "idea1") None)
             start_world))).

Definition sample_node : Node :=
  mkNode "0" "idea1" [] 0 0 None (Some "c1") (Some 0).

Definition layout_data : list UmapItem :=
  [mkItem "ghost" 1 1; mkItem "1" 0.4 (-0.2)].

Definition layout_peer : Peer := λ _, Resolved layout_data.

Definition sample_strategies : list (string * @Strategy unit) :=
  [("least_similar", λ _ _, ret (Some ["1"; "ghost"; "0"]));
   ("old_ones", λ _ _, throw (AxiosError (Some 500) "peer down"))].

(** ** Vocabulary of the further properties *)

(** The user a call is made for, and the credential it is given. *)
Definition call_user (c : Call) : string :=
  match c with
  | CallGetGraph u _ | CallCreateNode u _ _ | CallUpdateNode u _ _ _
  | CallImportNodes u _ _ | CallDeleteNodes u _ _ | CallCreateEdge u _ _ _ _
  | CallUpdateEdge u _ _ _ _ | CallDeleteEdge u _ _ _ | CallClearGraph u _
  | CallCalculateCluster u _ => u
  end.

Definition call_auth (c : Call) : option string :=
  match c with
  | CallGetGraph _ _ => None
  | CallCreateNode _ _ a | CallUpdateNode _ _ _ a | CallImportNodes _ _ a
  | CallDeleteNodes _ _ a | CallCreateEdge _ _ _ _ a | CallUpdateEdge _ _ _ _ a
  | CallDeleteEdge _ _ _ a | CallClearGraph _ a | CallCalculateCluster _ a => a
  end.

(** The [user_id] field of a request body. *)
Definition body_user (b : Body) : string :=
  match b with
  | BodyNodes u _ | BodyEdges u _ | BodyIds u _ | BodyUser u => u
  end.

(** What a run for [userId] with credential [a] may have done to [w0]: the
    documents of the other users are as they were, and the request trace
    has only grown, by requests that name [userId] and carry [a] as their
    Authorization header when [a] is a non-empty string, none otherwise. *)
Definition frame (userId : string) (a : option string) (w0 w : World) : Prop :=
  (∀ u, u ≠ userId → kgraphs w !! u = kgraphs w0 !! u) ∧
  ∃ rs, sent w = (sent w0 ++ rs)%list ∧
        Forall (λ r, body_user (body r) = userId ∧
                     authorization (config r) = headers a) rs.

Definition same_messages (w0 w : World) : Prop := messages w = messages w0.

(** The requested scratch nodes importNodes finds, each with its message,
    in the order of the messages and of the nodes in them. *)
Definition requested (userId : string) (nodeIds : list string) (w : World)
    : list (Message * ScratchNode) :=
  flat_map (λ message,
    pair message <$> filter (λ node, sn_id node ∈ nodeIds) (msg_nodes message))
    (filter (λ m, message_matches userId nodeIds m = true) (messages w)).

(** The nodes pushed for them, with the ids the generator hands out. *)
Definition imported (userId : string) (nodeIds : list string) (w : World) : list Node :=
  imap (λ j ms, imported_node ms.1 ms.2 (oid (next_oid w + j)))
    (requested userId nodeIds w).

(** A message with its requested scratch nodes marked curated. *)
Definition curated (nodeIds : list string) (m : Message) : Message :=
  mkMessage (messageId m) (conversationId m) (user m)
    (map (curate nodeIds) (msg_nodes m)).

(** A node under another id. *)
Definition with_node_id (id : string) (n : Node) : Node :=
  mkNode id (content n) (node_label n) (x n) (y n)
    (source_message_id n) (source_conversation_id n) (updatedAt n).

(** A node as the edge operations leave it: [updatedAt] set when it is an
    endpoint of the pair, nothing else changed. *)
Definition stamp (src tgt : string) (now : nat) (n : Node) : Node :=
  if bool_decide (node_id n = src ∨ node_id n = tgt) then set_updatedAt now n else n.


(** Every edge of the document joins two of its nodes. *)
Definition no_dangling_edge (g : GraphDocument) : Prop :=
  ∀ e, e ∈ edges g →
    source e ∈ node_id <$> nodes g ∧ target e ∈ node_id <$> nodes g.

(** ** The panel's local updates (client/src/components/Knowledge/GraphPanel.tsx)

    After the request it awaits has resolved, a handler of the panel updates
    the nodes and edges it shows by itself.  A node or edge of the panel is
    the object getGraph returned, its [id] the string of its _id. *)

(** handleDeleteSelectedNodes:
    [setNodes((prev) => prev.filter((n) => !selectedNodeIds.includes(n.id)))] *)
Definition handleDeleteSelectedNodes_nodes (selectedNodeIds : list string)
    (prev : list Node) : list Node :=
  filter (λ n, node_id n ∉ selectedNodeIds) prev.

(** [setEdges((prev) => prev.filter((e) =>
       !selectedNodeIds.includes(e.source) && !selectedNodeIds.includes(e.target)))] *)
Definition handleDeleteSelectedNodes_edges (selectedNodeIds : list string)
    (prev : list Edge) : list Edge :=
  filter (λ e, (source e ∉ selectedNodeIds) ∧ (target e ∉ selectedNodeIds)) prev.

(** handleDeleteSelectedEdge:
    [setEdges((prev) => prev.filter((e) => e.id !== selectedEdge.id))] *)
Definition handleDeleteSelectedEdge_edges (selectedEdge : Edge)
    (prev : list Edge) : list Edge :=
  filter (λ e, edge_id e ≠ edge_id selectedEdge) prev.

(** clearAll asks for the deletion of [nodes.map((n) => n.id)] and then
    shows nothing: [setNodes([]); setEdges([])]. *)
Definition clearAll_ids (nodes : list Node) : list string := node_id <$> nodes.

(** What getGraph shows of a document. *)
Definition view_of (c : option string) (g : GraphDocument) : list Node * list Edge :=
  if truthy_opt_string c
  then
    (let ns := filter (λ n, source_conversation_id n = c) (nodes g) in
     (ns, filter (λ e, source e ∈ node_id <$> ns ∧ target e ∈ node_id <$> ns) (edges g)))
  else (nodes g, edges g).

(** [w] has, user by user, some of the edge ids of [w0] in their order, and
    a generator that is not behind the one of [w0]. *)
Definition edges_within (w0 w : World) : Prop :=
  (next_oid w0 ≤ next_oid w)%nat ∧
  ∀ u g, kgraphs w !! u = Some g →
    (edge_id <$> edges g) `sublist_of` (edge_id <$> edges (doc_of w0 u)).

(** Every document's edge ids are distinct and were generated. *)
Definition edge_ids_fresh (w : World) : Prop :=
  ∀ u g, kgraphs w !! u = Some g → ids_ok (next_oid w) (edge_id <$> edges g).

(** ** Scenario: scratch nodes waiting in the messages *)

(** User u has a message with two scratch nodes, user v a message with a
    scratch node of the same id as the first; there is no graph yet. *)
Definition scratch_world : World :=
  mkWorld ∅
    [mkMessage "m1" "c1" "u"
       [mkScratch "s1" "first thought" "topic" 1 2 false;
        mkScratch "s2" "" "" 0 0 false];
     mkMessage "m2" "c9" "v" [mkScratch "s1" "theirs" "" 0 0 false]]
    0 0 [] [].

(** The message of the TypeError [updateNode] runs into when [node] is
    null: that of the first assignment the update asks for, or else that of
    the read of [toObject]. *)
Definition first_null_access (u : NodeUpdate) : string :=
  let setting prop := "Cannot set properties of null (setting '" ++ prop ++ "')" in
  if is_some (nu_labels u) || is_some (nu_label u) then setting "label"
  else if is_some (nu_x u) then setting "x"
  else if is_some (nu_y u) then setting "y"
  else if is_some (nu_content u) then setting "content"
  else if is_some (nu_source_message_id u) then setting "source_message_id"
  else if is_some (nu_source_conversation_id u) then setting "source_conversation_id"
  else "Cannot read properties of null (reading 'toObject')".

(** * Properties *)

(** ** Running the building blocks *)

Lemma getOrCreateGraphDoc_run userId w :
  ∃ l, getOrCreateGraphDoc userId w =
       (with_log l (set_kgraphs (insert userId (doc_of w userId)) w),
        inr (doc_of w userId)).
Proof.
  unfold getOrCreateGraphDoc, doc_of, bind, when, findOne, with_log, set_kgraphs.
  destruct w as [gs ms n c s l]; simpl.
  destruct (negb (truthy_string userId)); simpl;
    destruct (gs !! userId) as [g|] eqn:Hg; simpl;
    eexists; rewrite ?(insert_id _ _ _ Hg); reflexivity.
Qed.

Lemma embed_run peer e b authHeader what w :
  ∃ l, embed peer e b authHeader what w =
       (with_log l (with_sent (sent w ++ [mkRequest e b (embed_config authHeader)]) w),
        inr tt).
Proof.
  unfold embed, try_catch, bind, axios_post, embed_failed, logger, with_log, with_sent.
  destruct w as [gs ms n c s l]; simpl.
  destruct (peer _); simpl; eexists; reflexivity.
Qed.

(** ** Lists: the first match and in-place replacement *)

Section ListFind.
Context {A : Type} (P : A → Prop) `{!∀ a, Decision (P a)}.

Lemma list_find_insert_same (l : list A) i a b :
  list_find P l = Some (i, a) → P b → list_find P (<[i:=b]> l) = Some (i, b).
Proof.
  intros Hf Hb. apply list_find_Some in Hf as (Hi & Ha & Hlt).
  apply list_find_Some. split_and!.
  - apply list_lookup_insert_eq. eapply lookup_lt_Some; eauto.
  - done.
  - intros j y Hj Hji. rewrite list_lookup_insert_ne in Hj by lia. eauto.
Qed.

Lemma filter_Forall_not (l : list A) :
  Forall (λ a, ¬ P a) l → filter P l = [].
Proof.
  induction 1 as [|a l Ha _ IH]; [reflexivity|].
  rewrite filter_cons_False by done. exact IH.
Qed.

Lemma list_find_None_not_elem (l : list A) a :
  list_find P l = None → a ∈ l → ¬ P a.
Proof.
  intros Hf Hin. apply list_find_None in Hf.
  rewrite Forall_forall in Hf. auto.
Qed.

End ListFind.

Ltac step_doc :=
  match goal with
  | |- context [getOrCreateGraphDoc ?u ?w] =>
      let l := fresh "l" in
      let H := fresh "Hdoc" in
      destruct (getOrCreateGraphDoc_run u w) as [l H]; rewrite H; clear H
  end.

Ltac step_embed :=
  match goal with
  | |- context [embed ?p ?e ?b ?a ?wh ?w] =>
      let l := fresh "l" in
      let H := fresh "Hemb" in
      destruct (embed_run p e b a wh w) as [l H]; rewrite H; clear H
  end.

(** ** updateEdge replaces the labels *)

(** C3. When an edge exists for (source, target), updateEdge succeeds and
    stores, in place of that edge, the same edge with its label sequence
    replaced wholesale: an array argument is stored as it is, a single string
    as a one-element sequence, an absent label as the empty sequence.  The
    old labels play no part in the result, and a later lookup of the pair
    finds the edge with the new sequence. *)
Theorem updateEdge_replaces_labels peer w userId src tgt label authHeader g i e :
  kgraphs w !! userId = Some g →
  find_edge (edges g) src tgt = Some (i, e) →
  ∃ w' ns g',
    updateEdge peer userId src tgt label authHeader w
      = (w', inr (set_edge_label (replacement_label label) e, ns)) ∧
    kgraphs w' !! userId = Some g' ∧
    edges g' = <[i:=set_edge_label (replacement_label label) e]> (edges g) ∧
    find_edge (edges g') src tgt
      = Some (i, set_edge_label (replacement_label label) e) ∧
    edge_label (set_edge_label (replacement_label label) e)
      = match label with
        | Some (LArr ls) => ls
        | Some (LStr s) => [s]
        | None => []
        end ∧
    (∀ l, l ∈ edge_label e → l ∉ replacement_label label →
          l ∉ edge_label (set_edge_label (replacement_label label) e)).
Proof.
  intros Hg Hf.
  unfold updateEdge, try_catch, bind.
  step_doc. unfold doc_of. rewrite Hg. simpl. rewrite Hf. simpl.
  unfold new_Date, save. simpl.
  step_embed. simpl.
  eexists _, _, _.
  split; [reflexivity|].
  split; [simpl; apply lookup_insert_eq|].
  split; [reflexivity|].
  split.
  { simpl. unfold find_edge in *.
    eapply list_find_insert_same; [exact Hf|].
    apply list_find_Some in Hf as (_ & Hp & _). exact Hp. }
  split.
  - destruct label as [[?|?]|]; reflexivity.
  - intros lbl _ Hl. exact Hl.
Qed.

(** ** Unknown node or edge *)

(** C4. No NotFound condition is raised.  On a nodeId that does not resolve
    in the user's document the guard of updateNode only logs the warning
    "Embed skipped for edge update."; the operation then fails by accident,
    with the TypeError of its first access to the null node, which the
    catch block logs and rethrows under the operation's prefix.  updateEdge
    and deleteEdge on a pair with no edge do the same with the TypeError of
    their first access to the undefined edge.  Nothing but the (possibly
    just created) unchanged document is stored and no request is sent. *)
Theorem unknown_node_or_edge_fails_by_a_null_access peer w userId :
  (∀ nodeId u authHeader,
     nodes_id (nodes (doc_of w userId)) nodeId = None →
     ∃ w' l,
       updateNode peer userId nodeId u authHeader w
         = (w', inl (Error ("노드 수정에 실패했습니다: " ++ first_null_access u))) ∧
       log w' = (l ++ [mkLog LWarn "[KGraph] Embed skipped for edge update." None;
                       mkLog LError "[KGraph] Error in updateNode"
                         (Some (first_null_access u))])%list ∧
       kgraphs w' = <[userId:=doc_of w userId]> (kgraphs w) ∧
       sent w' = sent w) ∧
  (∀ src tgt label authHeader,
     find_edge (edges (doc_of w userId)) src tgt = None →
     ∃ w' l,
       updateEdge peer userId src tgt label authHeader w
         = (w', inl (Error ("엣지 수정에 실패했습니다: " ++
                            "Cannot set properties of undefined (setting 'label')"))) ∧
       log w' = (l ++ [mkLog LWarn "[KGraph] Embed skipped for edge update." None;
                       mkLog LError "[KGraph] Error in updateEdge"
                         (Some "Cannot set properties of undefined (setting 'label')")])%list ∧
       kgraphs w' = <[userId:=doc_of w userId]> (kgraphs w) ∧
       sent w' = sent w) ∧
  (∀ src tgt authHeader,
     find_edge (edges (doc_of w userId)) src tgt = None →
     ∃ w' l,
       deleteEdge peer userId src tgt authHeader w
         = (w', inl (Error ("엣지 삭제에 실패했습니다: " ++
                            "Cannot read properties of undefined (reading '_id')"))) ∧
       log w' = (l ++ [mkLog LWarn "[KGraph] Embed skipped for edge update." None;
                       mkLog LError "[KGraph] Error in deleteEdge"
                         (Some "Cannot read properties of undefined (reading '_id')")])%list ∧
       kgraphs w' = <[userId:=doc_of w userId]> (kgraphs w) ∧
       sent w' = sent w).
Proof.
  split; [|split].
  - intros nodeId u authHeader Hnone.
    unfold updateNode, try_catch, bind. step_doc. rewrite Hnone. simpl.
    unfold assign_if, assign, throw, ret, save, logger, first_null_access. simpl.
    destruct (nu_labels u); simpl;
      [eexists _, _; split_and!; try reflexivity; exact (eq_sym (app_assoc _ _ _))|].
    destruct (nu_label u); simpl;
      [eexists _, _; split_and!; try reflexivity; exact (eq_sym (app_assoc _ _ _))|].
    destruct (nu_x u); simpl;
      [eexists _, _; split_and!; try reflexivity; exact (eq_sym (app_assoc _ _ _))|].
    destruct (nu_y u); simpl;
      [eexists _, _; split_and!; try reflexivity; exact (eq_sym (app_assoc _ _ _))|].
    destruct (nu_content u); simpl;
      [eexists _, _; split_and!; try reflexivity; exact (eq_sym (app_assoc _ _ _))|].
    destruct (nu_source_message_id u); simpl;
      [eexists _, _; split_and!; try reflexivity; exact (eq_sym (app_assoc _ _ _))|].
    destruct (nu_source_conversation_id u); simpl;
      [eexists _, _; split_and!; try reflexivity; exact (eq_sym (app_assoc _ _ _))|].
    eexists _, _. split_and!; [reflexivity|exact (eq_sym (app_assoc _ _ _))| |reflexivity].
    simpl. destruct (doc_of w userId); simpl. apply insert_insert_eq.
  - intros src tgt label authHeader Hnone.
    unfold updateEdge, try_catch, bind. step_doc. rewrite Hnone. simpl.
    eexists _, _. split_and!; try reflexivity. exact (eq_sym (app_assoc _ _ _)).
  - intros src tgt authHeader Hnone.
    unfold deleteEdge, try_catch, bind. step_doc. rewrite Hnone. simpl.
    eexists _, _. split_and!; try reflexivity. exact (eq_sym (app_assoc _ _ _)).
Qed.

(** ** deleteNodes *)

(** C2. deleteNodes always returns the number of ids requested, whether or
    not they exist.  In the user's document it keeps exactly the nodes whose
    id was not requested and exactly the edges with neither endpoint among
    the requested ids, both in their old order; every other user's document
    is untouched, and a user without a document still has none. *)
Theorem deleteNodes_removes_nodes_and_incident_edges
    peer w userId nodeIds authHeader :
  ∃ w',
    deleteNodes peer userId nodeIds authHeader w = (w', inr (length nodeIds)) ∧
    kgraphs w' !! userId
      = (λ g, mkGraph
                (filter (λ n, node_id n ∉ nodeIds) (nodes g))
                (filter (λ e, ¬ (source e ∈ nodeIds ∨ target e ∈ nodeIds)) (edges g)))
        <$> (kgraphs w !! userId) ∧
    (∀ u, u ≠ userId → kgraphs w' !! u = kgraphs w !! u) ∧
    (∀ g g',
       kgraphs w !! userId = Some g → kgraphs w' !! userId = Some g' →
       (∀ n, n ∈ nodes g' ↔ n ∈ nodes g ∧ node_id n ∉ nodeIds) ∧
       (∀ e, e ∈ edges g' ↔
             e ∈ edges g ∧ (source e ∉ nodeIds) ∧ (target e ∉ nodeIds))).
Proof.
  assert (Hmain : ∃ w',
    deleteNodes peer userId nodeIds authHeader w = (w', inr (length nodeIds)) ∧
    kgraphs w' !! userId
      = (λ g, mkGraph
                (filter (λ n, node_id n ∉ nodeIds) (nodes g))
                (filter (λ e, ¬ (source e ∈ nodeIds ∨ target e ∈ nodeIds)) (edges g)))
        <$> (kgraphs w !! userId) ∧
    (∀ u, u ≠ userId → kgraphs w' !! u = kgraphs w !! u)).
  { unfold deleteNodes, try_catch, bind, when, findOneAndUpdate, updateOne, logger, ret.
    destruct w as [gs ms n c s l]. simpl.
    destruct (bool_decide (length nodeIds = 0)); simpl;
      destruct (gs !! userId) as [g|] eqn:Hg; simpl;
      rewrite ?lookup_insert_eq, ?Hg; simpl; step_embed; simpl;
      eexists; (split; [reflexivity|]); simpl;
      rewrite ?lookup_insert_eq, ?Hg; (split; [reflexivity|]);
      intros u Hu; rewrite ?lookup_insert_ne by done; reflexivity. }
  destruct Hmain as (w' & Hrun & Hdoc & Hother).
  exists w'. split_and!; [done..|].
  intros g g' Hg Hg'. rewrite Hdoc, Hg in Hg'. simpl in Hg'.
  injection Hg' as <-. simpl. split.
  - intros nd. rewrite list_elem_of_filter. tauto.
  - intros ed. rewrite list_elem_of_filter. tauto.
Qed.

(** ** getGraph *)

(** C8, as stated, fails for the empty string: a conversationId that is
    given but empty is falsy, so the whole graph comes back, not the nodes
    whose source_conversation_id is the empty string. *)
Lemma getGraph_empty_conversationId_counterexample :
  ¬ getGraph_filters_at sample_world "u" "".
Proof.
  intros (ns & es & Hview & Hns).
  vm_compute in Hview. injection Hview as <- <-.
  destruct (Hns sample_node) as [Hin _].
  destruct Hin as [_ Hconv]; [left|discriminate Hconv].
Qed.

(** C8 (amended). For a non-empty conversationId, getGraph returns exactly
    the user's nodes whose source_conversation_id is that id, and exactly the
    edges whose source and target are both ids of returned nodes, both in
    document order; so an edge with one endpoint filtered out is excluded.
    With the conversationId omitted or empty the full graph is returned. *)
Theorem getGraph_filters_by_conversation w userId :
  (∀ c, c ≠ "" →
     ∃ ns es,
       graph_view (getGraph userId (Some c) w) = Some (ns, es) ∧
       ns = filter (λ n, source_conversation_id n = Some c) (nodes (doc_of w userId)) ∧
       es = filter (λ e, source e ∈ node_id <$> ns ∧ target e ∈ node_id <$> ns)
              (edges (doc_of w userId)) ∧
       (∀ n, n ∈ ns ↔
             n ∈ nodes (doc_of w userId) ∧ source_conversation_id n = Some c) ∧
       (∀ e, e ∈ es ↔
             e ∈ edges (doc_of w userId) ∧
             (∃ n, n ∈ ns ∧ node_id n = source e) ∧
             (∃ n, n ∈ ns ∧ node_id n = target e))) ∧
  graph_view (getGraph userId None w)
    = Some (nodes (doc_of w userId), edges (doc_of w userId)) ∧
  graph_view (getGraph userId (Some "") w)
    = Some (nodes (doc_of w userId), edges (doc_of w userId)).
Proof.
  split_and!.
  - intros c Hc.
    unfold graph_view, getGraph, try_catch, bind. step_doc. simpl.
    destruct c as [|a c']; [done|]. simpl.
    eexists _, _. split; [reflexivity|].
    split; [reflexivity|].
    assert (Hset : ∀ (l : list string) (s : string),
              s ∈ (list_to_set l : gset string) ↔ s ∈ l)
      by (intros; apply elem_of_list_to_set).
    split; [|split].
    + apply list_filter_iff. intros e. rewrite !Hset. reflexivity.
    + intros n. rewrite list_elem_of_filter. tauto.
    + intros e. rewrite list_elem_of_filter, !Hset, !list_elem_of_fmap.
      split.
      * intros [[(n1 & -> & H1) (n2 & -> & H2)] He]. eauto 10.
      * intros (He & (n1 & H1 & <-) & (n2 & H2 & <-)). eauto 10.
  - unfold graph_view, getGraph, try_catch, bind. step_doc. reflexivity.
  - unfold graph_view, getGraph, try_catch, bind. step_doc. reflexivity.
Qed.

(** ** getRecommendations *)

Section RecommendationProperties.
Context {Params : Type} (strategies : list (string * @Strategy Params)).

Lemma read_strategy_own method s :
  lookup_strategy strategies method = Some s →
  read_strategy strategies method = Some (inl s).
Proof. intros Hl. unfold read_strategy. rewrite Hl. reflexivity. Qed.

Lemma read_strategy_inherited method :
  lookup_strategy strategies method = None →
  read_strategy strategies method = inr <$> Object_prototype method.
Proof. intros Hl. unfold read_strategy. rewrite Hl. reflexivity. Qed.

Lemma getRecommendations_unknown userId method (params : Params) w :
  lookup_strategy strategies method = None →
  Object_prototype method = None →
  ∃ w',
    getRecommendations strategies userId method params w = (w', inr []) ∧
    kgraphs w' = kgraphs w ∧
    last (log w') =
      Some (mkLog LError "[KGraph] Error in getRecommendations"
              (Some (invalid_method_message strategies method))).
Proof.
  intros Hl Hp.
  unfold getRecommendations, try_catch, bind, when, logger, throw, ret.
  rewrite (read_strategy_inherited _ Hl), Hp.
  destruct w as [gs ms n c s l]. simpl.
  destruct (negb (truthy_string userId)); simpl;
    eexists; (split; [reflexivity|]); simpl; (split; [reflexivity|]);
    apply last_snoc.
Qed.

(** A name found on the prototype only: the invalid-method branch is not
    taken; the call raises, or its result is no array, and the catch block
    (or, for a falsy result, the empty fallback) gives the empty sequence. *)
Lemma getRecommendations_inherited userId method (params : Params) w m :
  lookup_strategy strategies method = None →
  Object_prototype method = Some m →
  ∃ w',
    getRecommendations strategies userId method params w = (w', inr []) ∧
    last (log w') =
      Some match m with
           | InheritedReturns true =>
               mkLog LError "[KGraph] Error in getRecommendations"
                 (Some "(recommendations || []).filter is not a function")
           | InheritedReturns false =>
               mkLog LInfo "[KGraph] Recommendations retrieved" None
           | InheritedThrows message =>
               mkLog LError "[KGraph] Error in getRecommendations" (Some message)
           end.
Proof.
  intros Hl Hp.
  unfold getRecommendations, try_catch, bind, when, logger, throw, ret.
  rewrite (read_strategy_inherited _ Hl), Hp.
  destruct w as [gs ms n c sn l]. simpl.
  destruct (negb (truthy_string userId)), m as [[|]|message]; simpl;
    try step_doc; simpl; eexists; (split; [reflexivity|]); apply last_snoc.
Qed.

Lemma getRecommendations_known userId method (params : Params) w s :
  lookup_strategy strategies method = Some s →
  ∃ w',
    getRecommendations strategies userId method params w
      = (w', inr match s userId params (strategy_world userId w) with
                 | (w1, inr (Some recs)) =>
                     filter (λ id, id ∈ node_id <$> nodes (doc_of w1 userId)) recs
                 | _ => []
                 end) ∧
    match s userId params (strategy_world userId w) with
    | (w1, inr (Some recs)) =>
        kgraphs w' = <[userId:=doc_of w1 userId]> (kgraphs w1)
    | _ => True
    end.
Proof.
  intros Hl.
  unfold getRecommendations, strategy_world, try_catch, bind, when, logger, throw, ret.
  rewrite (read_strategy_own _ _ Hl). destruct w as [gs ms n c sn l]. simpl.
  destruct (negb (truthy_string userId)); simpl;
    match goal with |- context [s userId params ?w0] =>
      destruct (s userId params w0) as [w1 [e|[recs|]]] end; simpl;
    try (eexists; split; [reflexivity|exact I]);
    step_doc; simpl; eexists;
    (split; [try (f_equal; f_equal; apply list_filter_iff; intros id;
                  apply elem_of_list_to_set); reflexivity
            | try exact I; reflexivity]).
Qed.

Lemma getRecommendations_resolves userId method (params : Params) w :
  ∃ w' ids, getRecommendations strategies userId method params w = (w', inr ids).
Proof.
  destruct (lookup_strategy strategies method) as [s|] eqn:Hl.
  - destruct (getRecommendations_known userId method params w s Hl) as (w' & Hrun & _).
    eauto.
  - destruct (Object_prototype method) as [m|] eqn:Hp.
    + destruct (getRecommendations_inherited userId method params w m Hl Hp)
        as (w' & Hrun & _).
      eauto.
    + destruct (getRecommendations_unknown userId method params w Hl Hp)
        as (w' & Hrun & _).
      eauto.
Qed.

(** C6. getRecommendations always resolves with a sequence, and every id in
    it is the id of a node of the user's document as it stands when the call
    returns, whatever the strategy answered. *)
Theorem getRecommendations_only_current_nodes userId method (params : Params) w :
  ∃ w' ids,
    getRecommendations strategies userId method params w = (w', inr ids) ∧
    ∀ id, id ∈ ids →
      ∃ g n, kgraphs w' !! userId = Some g ∧ n ∈ nodes g ∧ node_id n = id.
Proof.
  destruct (lookup_strategy strategies method) as [s|] eqn:Hl.
  - destruct (getRecommendations_known userId method params w s Hl)
      as (w' & Hrun & Hdoc).
    eexists _, _. split; [exact Hrun|].
    intros id Hid.
    destruct (s userId params (strategy_world userId w)) as [w1 [e|[recs|]]];
      try (apply elem_of_nil in Hid; done).
    apply list_elem_of_filter in Hid as [Hid _].
    apply list_elem_of_fmap in Hid as (n & -> & Hn).
    exists (doc_of w1 userId), n. rewrite Hdoc, lookup_insert_eq. done.
  - assert (Hempty : ∃ w', getRecommendations strategies userId method params w
                           = (w', inr [])).
    { destruct (Object_prototype method) as [m|] eqn:Hp.
      - destruct (getRecommendations_inherited userId method params w m Hl Hp)
          as (w' & Hrun & _). eauto.
      - destruct (getRecommendations_unknown userId method params w Hl Hp)
          as (w' & Hrun & _). eauto. }
    destruct Hempty as [w' Hrun].
    eexists _, _. split; [exact Hrun|].
    intros id Hid. apply elem_of_nil in Hid. done.
Qed.

(** C7. getRecommendations never throws: whatever the method name and
    whatever the strategy does, it resolves with a sequence, the empty one
    when the strategy throws or resolves with nothing.  A method name that
    is no key of the registry and no member inherited from Object.prototype
    is reported: the result is empty and the last log line is an error
    whose message is "Invalid method: <method>. Valid methods are: "
    followed by the registry's method names joined with ", ".  A name such
    as "constructor", which is no key of the registry either, is not
    reported as unknown: the property read finds the inherited member, the
    guard is passed, and what the catch block logs is the TypeError that
    the use of the call's result raises. *)
Theorem getRecommendations_misses_inherited_method_names userId (params : Params) w :
  (∀ method,
     ∃ w' ids, getRecommendations strategies userId method params w = (w', inr ids)) ∧
  (∀ method,
     lookup_strategy strategies method = None →
     Object_prototype method = None →
     ∃ w',
       getRecommendations strategies userId method params w = (w', inr []) ∧
       last (log w') =
         Some (mkLog LError "[KGraph] Error in getRecommendations"
                 (Some ("Invalid method: " ++ method ++ ". Valid methods are: " ++
                        String.concat ", " (fst <$> strategies))))) ∧
  (∀ method s,
     lookup_strategy strategies method = Some s →
     (∀ recs, (s userId params (strategy_world userId w)).2 ≠ inr (Some recs)) →
     ∃ w', getRecommendations strategies userId method params w = (w', inr [])) ∧
  (lookup_strategy strategies "constructor" = None →
     ∃ w',
       getRecommendations strategies userId "constructor" params w = (w', inr []) ∧
       last (log w') =
         Some (mkLog LError "[KGraph] Error in getRecommendations"
                 (Some "(recommendations || []).filter is not a function")) ∧
       last (log w') ≠
         Some (mkLog LError "[KGraph] Error in getRecommendations"
                 (Some ("Invalid method: constructor. Valid methods are: " ++
                        String.concat ", " (fst <$> strategies))))).
Proof.
  split; [|split; [|split]].
  - intros method. apply getRecommendations_resolves.
  - intros method Hl Hp.
    destruct (getRecommendations_unknown userId method params w Hl Hp)
      as (w' & Hrun & _ & Hlog). eauto.
  - intros method s Hl Hfail.
    destruct (getRecommendations_known userId method params w s Hl)
      as (w' & Hrun & _).
    exists w'. rewrite Hrun.
    destruct (s userId params (strategy_world userId w)) as [w1 [e|[recs|]]];
      try reflexivity.
    exfalso. exact (Hfail recs eq_refl).
  - intros Hl.
    destruct (getRecommendations_inherited userId "constructor" params w
                (InheritedReturns true) Hl eq_refl) as (w' & Hrun & Hlog).
    exists w'. split; [exact Hrun|]. split; [exact Hlog|].
    rewrite Hlog. intros Heq. discriminate Heq.
Qed.

End RecommendationProperties.

(** ** calculateCluster *)

Lemma place_id item n : node_id (place item n) = node_id n.
Proof. unfold place. case_decide; reflexivity. Qed.

Lemma nodes_id_Some_place ns item i node :
  NoDup (node_id <$> ns) →
  nodes_id ns (item_id item) = Some (i, node) →
  <[i:=set_xy (item_x item * SCALE) (item_y item * SCALE) node]> ns = place item <$> ns.
Proof.
  intros Hnd Hf. apply list_find_Some in Hf as (Hi & Hid & _).
  apply list_eq. intros j. rewrite list_lookup_fmap.
  destruct (decide (j = i)) as [->|Hne].
  - rewrite list_lookup_insert_eq by (eapply lookup_lt_Some; eauto).
    rewrite Hi. simpl. unfold place. rewrite decide_True by done. reflexivity.
  - rewrite list_lookup_insert_ne by done.
    destruct (ns !! j) as [n|] eqn:Hj; [|reflexivity]. simpl.
    unfold place. rewrite decide_False; [reflexivity|].
    intros Heq. apply Hne.
    eapply (NoDup_lookup (node_id <$> ns)); [exact Hnd| |].
    + rewrite list_lookup_fmap, Hj. reflexivity.
    + rewrite list_lookup_fmap, Hi. simpl. congruence.
Qed.

Lemma nodes_id_None_place ns item :
  nodes_id ns (item_id item) = None → place item <$> ns = ns.
Proof.
  intros Hf. apply list_find_None in Hf.
  induction Hf as [|n ns Hn _ IH]; [reflexivity|].
  rewrite fmap_cons, IH. unfold place. rewrite decide_False by done. reflexivity.
Qed.

Lemma laid_out_cons item rest n :
  laid_out rest (place item n) = laid_out (item :: rest) n.
Proof.
  unfold laid_out, last_item_for. rewrite place_id, filter_cons.
  unfold place. case_decide as Hid.
  - rewrite decide_True by done.
    destruct (filter _ rest) as [|it its] eqn:Hfl; [reflexivity|].
    change (last (item :: it :: its)) with (last (it :: its)).
    destruct (last (it :: its)) eqn:Hl; [reflexivity|].
    apply last_None in Hl. discriminate Hl.
  - rewrite decide_False by done. reflexivity.
Qed.

Lemma nodes_id_insert_ids ns id i node (f : Node → Node) :
  (∀ n, node_id (f n) = node_id n) →
  nodes_id ns id = Some (i, node) →
  node_id <$> <[i:=f node]> ns = node_id <$> ns.
Proof.
  intros Hf Hfind. apply list_find_Some in Hfind as (Hi & _ & _).
  rewrite list_fmap_insert, Hf. apply list_insert_id.
  rewrite list_lookup_fmap, Hi. reflexivity.
Qed.

Lemma apply_layout_total umapData : ∀ ns w,
  ∃ l ns', apply_layout umapData ns w = (with_log l w, inr ns') ∧
           node_id <$> ns' = node_id <$> ns.
Proof.
  induction umapData as [|item rest IH]; intros ns w; simpl.
  - exists (log w), ns. destruct w. split; reflexivity.
  - destruct (nodes_id ns (item_id item)) as [[i node]|] eqn:Hf.
    + match goal with |- context [apply_layout rest ?ns1 w] =>
        destruct (IH ns1 w) as (l & ns' & Hl & Hids) end.
      exists l, ns'. split; [exact Hl|]. rewrite Hids.
      eapply nodes_id_insert_ids; [reflexivity|exact Hf].
    + unfold bind, logger.
      match goal with |- context [apply_layout rest ns ?w0] =>
        destruct (IH ns w0) as (l & ns' & Hl & Hids) end.
      simpl. rewrite Hl. exists l, ns'. split; [reflexivity|exact Hids].
Qed.

Lemma apply_layout_run umapData : ∀ ns w,
  NoDup (node_id <$> ns) →
  ∃ l, apply_layout umapData ns w = (with_log l w, inr (laid_out umapData <$> ns)).
Proof.
  induction umapData as [|item rest IH]; intros ns w Hnd; simpl.
  - exists (log w). destruct w. unfold ret, with_log. simpl.
    rewrite (list_fmap_ext (laid_out []) id ns), list_fmap_id; done.
  - assert (Hnd' : NoDup (node_id <$> (place item <$> ns))).
    { rewrite <- list_fmap_compose.
      rewrite (list_fmap_ext (node_id ∘ place item) node_id ns); [done|].
      intros ? n _. apply place_id. }
    assert (Hext : laid_out rest <$> (place item <$> ns)
                   = laid_out (item :: rest) <$> ns).
    { rewrite <- list_fmap_compose. apply list_fmap_ext.
      intros ? n _. apply laid_out_cons. }
    destruct (nodes_id ns (item_id item)) as [[i node]|] eqn:Hf.
    + rewrite (nodes_id_Some_place ns item i node Hnd Hf).
      destruct (IH (place item <$> ns) w Hnd') as [l Hl].
      exists l. rewrite Hl, Hext. reflexivity.
    + unfold bind, logger.
      match goal with |- context [apply_layout rest ns ?w0] =>
        destruct (IH ns w0) as [l Hl]; [done|] end.
      simpl. rewrite Hl. exists l. unfold with_log. simpl.
      rewrite <- Hext, (nodes_id_None_place ns item Hf). reflexivity.
Qed.

(** The run of calculateCluster when the peer answers [umapData]; the closed
    form of the stored nodes needs their ids to be distinct. *)
Lemma calculateCluster_run peer w userId authHeader umapData :
  (∀ c, peer (mkRequest CalculateUmap (BodyUser userId) c) = Resolved umapData) →
  ∃ w' g',
    calculateCluster peer userId authHeader w = (w', inr umapData) ∧
    kgraphs w' !! userId = Some g' ∧
    edges g' = edges (doc_of w userId) ∧
    node_id <$> nodes g' = node_id <$> nodes (doc_of w userId) ∧
    (NoDup (node_id <$> nodes (doc_of w userId)) →
       nodes g' = laid_out umapData <$> nodes (doc_of w userId)) ∧
    (∀ n it, last_item_for (node_id n) umapData = Some it →
       laid_out umapData n
         = mkNode (node_id n) (content n) (node_label n)
             (item_x it * 250) (item_y it * 250)
             (source_message_id n) (source_conversation_id n) (updatedAt n)) ∧
    (∀ n, (∀ it, it ∈ umapData → item_id it ≠ node_id n) →
       laid_out umapData n = n).
Proof.
  intros Hpeer.
  unfold calculateCluster, try_catch, bind.
  assert (Hpre : ∃ l,
    (when (negb (truthy_string userId)) (logger LWarn EMBED_SKIPPED None)) w
      = (with_log l w, inr tt)).
  { unfold when, logger, ret, with_log. destruct w.
    destruct (negb _); eexists; reflexivity. }
  destruct Hpre as [l0 ->].
  unfold logger at 4. unfold axios_post. simpl. rewrite Hpeer.
  step_doc. simpl.
  match goal with |- context [apply_layout umapData ?ns ?w0] =>
    destruct (apply_layout_total umapData ns w0) as (l2 & ns' & Hl2 & Hids);
    pose proof (apply_layout_run umapData ns w0) as Hclosed end.
  unfold doc_of in *. simpl in *. rewrite Hl2 in Hclosed |- *. simpl.
  eexists _, _. split; [reflexivity|].
  split; [simpl; apply lookup_insert_eq|].
  split; [reflexivity|]. split; [exact Hids|]. split; [|split].
  - intros Hnd. destruct (Hclosed Hnd) as [l3 Heq].
    injection Heq as _ Heq. exact Heq.
  - intros n it Hit. unfold laid_out. rewrite Hit. reflexivity.
  - intros n Hno. unfold laid_out, last_item_for.
    rewrite filter_Forall_not; [reflexivity|].
    apply Forall_forall. intros it Hin Heq. exact (Hno it Hin Heq).
Qed.

(** ** Time-outs of the peer calls *)

(** The embed calls (embed node, edge, delete) all go through [embed] and
    carry the 15 s time-out. *)
Lemma embed_sends_with_timeout peer e b authHeader what w :
  ∃ l, (embed peer e b authHeader what w).1
       = with_log l (with_sent
           (sent w ++ [mkRequest e b (mkConfig (Some 15000%N) (headers authHeader))]) w).
Proof.
  destruct (embed_run peer e b authHeader what w) as [l Hl].
  exists l. rewrite Hl. reflexivity.
Qed.

(** C10 (calculate-umap). The one request calculateCluster sends carries no
    time-out: its configuration has the headers only, so after the call not
    every request of the trace carries the 15 s time-out. *)
Theorem calculateCluster_request_has_no_timeout peer w userId authHeader :
  sent (calculateCluster peer userId authHeader w).1
    = (sent w ++ [mkRequest CalculateUmap (BodyUser userId)
                    (mkConfig None (headers authHeader))])%list ∧
  timeout (mkConfig None (headers authHeader)) ≠ Some EMBED_TIMEOUT ∧
  ¬ all_timed (calculateCluster peer userId authHeader w).1.
Proof.
  assert (Hsent : sent (calculateCluster peer userId authHeader w).1
    = (sent w ++ [mkRequest CalculateUmap (BodyUser userId)
                    (mkConfig None (headers authHeader))])%list).
  { unfold calculateCluster, try_catch, bind, when, logger, axios_post, throw, ret.
    destruct w as [gs ms n c s l]. simpl.
    destruct (negb (truthy_string userId)); simpl;
      destruct (peer _) as [st msg|umapData]; simpl; try reflexivity;
      step_doc; simpl;
      match goal with |- context [apply_layout umapData ?ns ?w0] =>
        destruct (apply_layout_total umapData ns w0) as (l2 & ns2 & -> & _) end;
      reflexivity. }
  split; [exact Hsent|]. split; [discriminate|].
  unfold all_timed. rewrite Hsent, Forall_app, Forall_singleton. simpl.
  intros [_ Habs]. discriminate Habs.
Qed.

(** ** Peer failures are swallowed *)

Lemma same_data_refl w : same_data w w.
Proof. repeat split. Qed.

Lemma same_outcome_committed {A} (m1 m2 : M A) w :
  same_outcome m1 m2 → committed (m1 w) = committed (m2 w).
Proof.
  intros H. destruct (H w w (same_data_refl w)) as (Hr & Hk & Hm & _).
  unfold committed. congruence.
Qed.

Section SameOutcome.
Context {A B : Type}.

Lemma so_ret (a : A) : same_outcome (ret a) (ret a).
Proof. intros w1 w2 H. split; [reflexivity|exact H]. Qed.

Lemma so_throw (e : Exn) : same_outcome (@throw A e) (throw e).
Proof. intros w1 w2 H. split; [reflexivity|exact H]. Qed.

Lemma so_bind (m1 m2 : M A) (k1 k2 : A → M B) :
  same_outcome m1 m2 → (∀ a, same_outcome (k1 a) (k2 a)) →
  same_outcome (bind m1 k1) (bind m2 k2).
Proof.
  intros Hm Hk w1 w2 Hw. unfold bind.
  destruct (Hm w1 w2 Hw) as [Hr Hd].
  destruct (m1 w1) as [w1' [e1|a1]], (m2 w2) as [w2' [e2|a2]];
    simpl in *; try discriminate.
  - split; [congruence|exact Hd].
  - injection Hr as ->. apply Hk. exact Hd.
Qed.

Lemma so_try (m1 m2 : M A) (h1 h2 : Exn → M A) :
  same_outcome m1 m2 → (∀ e, same_outcome (h1 e) (h2 e)) →
  same_outcome (try_catch m1 h1) (try_catch m2 h2).
Proof.
  intros Hm Hh w1 w2 Hw. unfold try_catch.
  destruct (Hm w1 w2 Hw) as [Hr Hd].
  destruct (m1 w1) as [w1' [e1|a1]], (m2 w2) as [w2' [e2|a2]];
    simpl in *; try discriminate.
  - injection Hr as ->. apply Hh. exact Hd.
  - split; [congruence|exact Hd].
Qed.

End SameOutcome.

Lemma so_logger lv1 t1 d1 lv2 t2 d2 :
  same_outcome (logger lv1 t1 d1) (logger lv2 t2 d2).
Proof. intros w1 w2 H. split; [reflexivity|exact H]. Qed.

Lemma so_when b (m1 m2 : M unit) :
  same_outcome m1 m2 → same_outcome (when b m1) (when b m2).
Proof. intros H. destruct b; [exact H|apply so_ret]. Qed.

Ltac same_data_step :=
  intros [? ? ? ? ? ?] [? ? ? ? ? ?] (Hk & Hm & Hn & Hc & Hs);
  simpl in *; subst; simpl.

Lemma so_findOne userId : same_outcome (findOne userId) (findOne userId).
Proof. same_data_step. repeat split. Qed.

Lemma so_save userId g : same_outcome (save userId g) (save userId g).
Proof. same_data_step. repeat split. Qed.

Lemma so_fresh_oid : same_outcome fresh_oid fresh_oid.
Proof. same_data_step. repeat split. Qed.

Lemma so_new_Date : same_outcome new_Date new_Date.
Proof. same_data_step. repeat split. Qed.

Lemma so_Message_find userId nodeIds :
  same_outcome (Message_find userId nodeIds) (Message_find userId nodeIds).
Proof. same_data_step. repeat split. Qed.

Lemma so_save_messages userId nodeIds :
  same_outcome (save_messages userId nodeIds) (save_messages userId nodeIds).
Proof. same_data_step. repeat split. Qed.

Lemma so_findOneAndUpdate userId f :
  same_outcome (findOneAndUpdate userId f) (findOneAndUpdate userId f).
Proof.
  same_data_step. unfold findOneAndUpdate. simpl.
  destruct (_ !! userId); repeat split.
Qed.

Lemma so_updateOne userId f :
  same_outcome (updateOne userId f) (updateOne userId f).
Proof.
  same_data_step. unfold updateOne. simpl.
  destruct (_ !! userId); repeat split.
Qed.

Lemma so_deleteOne userId : same_outcome (deleteOne userId) (deleteOne userId).
Proof. same_data_step. repeat split. Qed.

Lemma so_getOrCreateGraphDoc userId :
  same_outcome (getOrCreateGraphDoc userId) (getOrCreateGraphDoc userId).
Proof.
  unfold getOrCreateGraphDoc.
  apply so_bind; [apply so_when, so_bind; [apply so_logger|intros; apply so_logger]|].
  intros _. apply so_bind; [apply so_findOne|].
  intros [g|]; [apply so_ret|].
  apply so_bind; [apply so_logger|]. intros _.
  apply so_bind; [apply so_save|]. intros _. apply so_ret.
Qed.

Lemma so_push_nodes news : ∀ ns,
  same_outcome (push_nodes news ns) (push_nodes news ns).
Proof.
  induction news as [|mk rest IH]; intros ns; simpl; [apply so_ret|].
  apply so_bind; [apply so_fresh_oid|]. intros _id. apply IH.
Qed.

Lemma so_assign_if {V} (v : option V) node prop f :
  same_outcome (assign_if v node prop f) (assign_if v node prop f).
Proof.
  unfold assign_if, assign.
  destruct v, node as [[i n]|]; first [apply so_ret | apply so_throw].
Qed.

(** The heart of the matter: an embed call ends the same way whatever the
    peer answers. *)
Lemma so_embed p1 p2 e b authHeader what1 what2 :
  same_outcome (embed p1 e b authHeader what1) (embed p2 e b authHeader what2).
Proof.
  intros w1 w2 (Hk & Hm & Hn & Hc & Hs).
  destruct (embed_run p1 e b authHeader what1 w1) as [l1 ->].
  destruct (embed_run p2 e b authHeader what2 w2) as [l2 ->].
  simpl. rewrite Hs. repeat split; assumption.
Qed.

Ltac so_step :=
  first
    [ apply so_ret | apply so_throw | apply so_logger | apply so_embed
    | apply so_getOrCreateGraphDoc | apply so_save | apply so_new_Date
    | apply so_fresh_oid | apply so_push_nodes | apply so_assign_if
    | apply so_Message_find | apply so_save_messages | apply so_findOneAndUpdate
    | apply so_updateOne | apply so_deleteOne
    | apply so_when
    | apply so_bind; [|intros ?]
    | apply so_try; [|intros ?] ].

Section PeerIndependence.
Context (p1 p2 : Peer).

Lemma createNode_same userId d authHeader :
  same_outcome (createNode p1 userId d authHeader) (createNode p2 userId d authHeader).
Proof.
  unfold createNode. apply so_try; [|intros ?; repeat so_step].
  do 2 (apply so_bind; [so_step|intros ?]). cbv zeta.
  apply so_bind; [so_step|intros ?].
  destruct (last _); repeat so_step.
Qed.

Lemma updateNode_same userId nodeId u authHeader :
  same_outcome (updateNode p1 userId nodeId u authHeader)
               (updateNode p2 userId nodeId u authHeader).
Proof.
  unfold updateNode. apply so_try; [|intros ?; repeat so_step].
  apply so_bind; [so_step|intros graph].
  apply so_bind; [repeat so_step|intros _].
  apply so_bind; [destruct (nu_labels u); [unfold assign; destruct (nodes_id _ _) as [[??]|]|];
                  repeat so_step|intros node0].
  do 5 (apply so_bind; [so_step|intros ?]). cbv zeta.
  apply so_bind; [so_step|intros _].
  match goal with |- same_outcome (match ?n with _ => _ end) _ =>
    destruct n as [[? updatedNode]|] end; repeat so_step.
Qed.

Lemma importNodes_same userId nodeIds authHeader :
  same_outcome (importNodes p1 userId nodeIds authHeader)
               (importNodes p2 userId nodeIds authHeader).
Proof.
  unfold importNodes. apply so_try; [|intros ?; repeat so_step].
  repeat so_step.
Qed.

Lemma deleteNodes_same userId nodeIds authHeader :
  same_outcome (deleteNodes p1 userId nodeIds authHeader)
               (deleteNodes p2 userId nodeIds authHeader).
Proof.
  unfold deleteNodes. apply so_bind; [repeat so_step|intros _]. cbv zeta.
  apply so_try; [|intros ?; repeat so_step].
  repeat so_step.
Qed.

Lemma createEdge_same userId src tgt label authHeader :
  same_outcome (createEdge p1 userId src tgt label authHeader)
               (createEdge p2 userId src tgt label authHeader).
Proof.
  unfold createEdge. apply so_try; [|intros ?; repeat so_step].
  apply so_bind; [so_step|intros graph]. cbv zeta.
  apply so_bind; [destruct (find_edge _ _ _) as [[??]|]; repeat so_step|intros r].
  repeat so_step.
Qed.

Lemma updateEdge_same userId src tgt label authHeader :
  same_outcome (updateEdge p1 userId src tgt label authHeader)
               (updateEdge p2 userId src tgt label authHeader).
Proof.
  unfold updateEdge. apply so_try; [|intros ?; repeat so_step].
  apply so_bind; [so_step|intros graph]. cbv zeta.
  apply so_bind; [repeat so_step|intros _].
  destruct (find_edge _ _ _) as [[??]|]; repeat so_step.
Qed.

Lemma deleteEdge_same userId src tgt authHeader :
  same_outcome (deleteEdge p1 userId src tgt authHeader)
               (deleteEdge p2 userId src tgt authHeader).
Proof.
  unfold deleteEdge. apply so_try; [|intros ?; repeat so_step].
  apply so_bind; [so_step|intros graph]. cbv zeta.
  apply so_bind; [repeat so_step|intros _].
  destruct (find_edge _ _ _) as [[??]|]; repeat so_step.
Qed.

End PeerIndependence.

Lemma clearGraph_run peer userId authHeader w :
  ∃ l, clearGraph peer userId authHeader w
       = (with_log l
            (with_sent (sent w ++ [mkRequest EmbedReset (BodyUser userId)
                                     (embed_config authHeader)])
               (set_kgraphs (delete userId) w)), inr true).
Proof.
  unfold clearGraph, try_catch, bind, deleteOne, logger, axios_post, ret.
  destruct w as [gs ms n c s l]. simpl.
  destruct (peer _); simpl; eexists; reflexivity.
Qed.

Lemma createNode_run peer userId d authHeader w :
  ∃ w' n,
    createNode peer userId d authHeader w = (w', inr n) ∧
    node_id n = oid (next_oid w) ∧
    kgraphs w' = <[userId:=mkGraph (nodes (doc_of w userId) ++ [n])
                              (edges (doc_of w userId))]> (kgraphs w).
Proof.
  unfold createNode, try_catch, bind. step_doc. simpl.
  unfold fresh_oid, ret. simpl. rewrite last_snoc.
  unfold logger. simpl. step_embed. simpl.
  eexists _, _. split; [reflexivity|]. split; [reflexivity|].
  simpl. apply insert_insert_eq.
Qed.

(** C5. For each of the eight mutations, whatever the peer answers (a
    rejection, a time-out, an error status or a success) the caller gets the
    same result and the KGraph and Message collections end in the same
    state: the outcome with a failing peer is the outcome with a healthy
    one, so a peer failure is neither rethrown nor rolled back.  In
    particular createNode resolves with the created node, which is stored,
    and clearGraph resolves with success and the user's document is gone. *)
Theorem peer_failure_is_never_escalated (p1 p2 : Peer) w userId :
  (∀ d a, committed (createNode p1 userId d a w)
          = committed (createNode p2 userId d a w)) ∧
  (∀ nodeId u a, committed (updateNode p1 userId nodeId u a w)
                 = committed (updateNode p2 userId nodeId u a w)) ∧
  (∀ nodeIds a, committed (importNodes p1 userId nodeIds a w)
                = committed (importNodes p2 userId nodeIds a w)) ∧
  (∀ nodeIds a, committed (deleteNodes p1 userId nodeIds a w)
                = committed (deleteNodes p2 userId nodeIds a w)) ∧
  (∀ src tgt label a, committed (createEdge p1 userId src tgt label a w)
                      = committed (createEdge p2 userId src tgt label a w)) ∧
  (∀ src tgt label a, committed (updateEdge p1 userId src tgt label a w)
                      = committed (updateEdge p2 userId src tgt label a w)) ∧
  (∀ src tgt a, committed (deleteEdge p1 userId src tgt a w)
                = committed (deleteEdge p2 userId src tgt a w)) ∧
  (∀ a, committed (clearGraph p1 userId a w)
        = committed (clearGraph p2 userId a w)) ∧
  (∀ d a, ∃ w' n g,
     createNode p1 userId d a w = (w', inr n) ∧
     kgraphs w' !! userId = Some g ∧ n ∈ nodes g) ∧
  (∀ a, ∃ w',
     clearGraph p1 userId a w = (w', inr true) ∧ kgraphs w' !! userId = None).
Proof.
  split_and!.
  - intros. apply same_outcome_committed, createNode_same.
  - intros. apply same_outcome_committed, updateNode_same.
  - intros. apply same_outcome_committed, importNodes_same.
  - intros. apply same_outcome_committed, deleteNodes_same.
  - intros. apply same_outcome_committed, createEdge_same.
  - intros. apply same_outcome_committed, updateEdge_same.
  - intros. apply same_outcome_committed, deleteEdge_same.
  - intros a.
    destruct (clearGraph_run p1 userId a w) as [l1 ->].
    destruct (clearGraph_run p2 userId a w) as [l2 ->].
    reflexivity.
  - intros d a.
    destruct (createNode_run p1 userId d a w) as (w' & n & Hrun & _ & Hk).
    eexists w', n, _. split; [exact Hrun|].
    rewrite Hk, lookup_insert_eq. split; [reflexivity|].
    simpl. apply elem_of_app. right. apply list_elem_of_singleton. reflexivity.
  - intros a.
    destruct (clearGraph_run p1 userId a w) as [l1 ->].
    eexists. split; [reflexivity|]. simpl. apply lookup_delete_eq.
Qed.

(** ** createEdge: one edge per ordered pair, labels merged *)

Lemma filter_swap {A} (P Q : A → Prop)
    `{!∀ a, Decision (P a), !∀ a, Decision (Q a)} (l : list A) :
  filter P (filter Q l) = filter Q (filter P l).
Proof. rewrite !list_filter_filter. apply list_filter_iff. tauto. Qed.

Lemma elem_of_first_seen l a : a ∈ first_seen l ↔ a ∈ l.
Proof.
  induction l as [|b l IH]; simpl; [reflexivity|].
  rewrite !elem_of_cons, list_elem_of_filter, IH.
  destruct (decide (a = b)); tauto.
Qed.








Lemma elem_of_mergeLabels labelArr : ∀ existing l,
  l ∈ mergeLabels existing labelArr ↔ l ∈ existing ∨ l ∈ labelArr.
Proof.
  induction labelArr as [|a labelArr IH]; intros existing l.
  - simpl. rewrite elem_of_nil. tauto.
  - change (mergeLabels existing (a :: labelArr))
      with (mergeLabels
              (if bool_decide (a ∈ existing) then existing else existing ++ [a])
              labelArr).
    rewrite IH, elem_of_cons. case_bool_decide as Hin.
    + split; [tauto|]. intros [?|[->|?]]; tauto.
    + rewrite elem_of_app, list_elem_of_singleton. tauto.
Qed.

Lemma keys_insert_same es src tgt i e l :
  find_edge es src tgt = Some (i, e) →
  edge_key <$> <[i:=set_edge_label l e]> es = edge_key <$> es.
Proof.
  intros Hf. apply list_find_Some in Hf as (Hi & _ & _).
  rewrite list_fmap_insert. apply list_insert_id.
  rewrite list_lookup_fmap, Hi. reflexivity.
Qed.

Lemma find_edge_None_key es src tgt :
  find_edge es src tgt = None → (src, tgt) ∉ edge_key <$> es.
Proof.
  intros Hf Hin. apply list_elem_of_fmap in Hin as (e & Hk & He).
  eapply (list_find_None_not_elem _ es e Hf He).
  unfold edge_key in Hk. injection Hk as -> ->. done.
Qed.

Lemma NoDup_keys_snoc es src tgt _id l :
  find_edge es src tgt = None →
  NoDup (edge_key <$> es) →
  NoDup (edge_key <$> (es ++ [mkEdge _id src tgt l])%list).
Proof.
  intros Hf Hnd. rewrite fmap_app. apply NoDup_app. split_and!.
  - exact Hnd.
  - intros k Hk Hl. apply list_elem_of_singleton in Hl. subst k.
    exact (find_edge_None_key es src tgt Hf Hk).
  - apply NoDup_singleton.
Qed.

Lemma NoDup_keys_filter (P : Edge → Prop) `{!∀ e, Decision (P e)} es :
  NoDup (edge_key <$> es) → NoDup (edge_key <$> filter P es).
Proof.
  intros Hnd. eapply sublist_NoDup; [exact Hnd|].
  apply fmap_sublist, sublist_filter.
Qed.


(** *** An invariant-preservation logic for the monad *)

Section Keeps.
Context {A B : Type} (I : World → Prop).

Lemma keeps_ret (a : A) (Q : A → Prop) : Q a → keeps I (ret a) Q.
Proof. intros Ha w Hw. split; [exact Hw|]. intros a' [= <-]. exact Ha. Qed.

Lemma keeps_throw (e : Exn) (Q : A → Prop) : keeps I (throw e) Q.
Proof. intros w Hw. split; [exact Hw|]. intros a' [=]. Qed.

Lemma keeps_bind (m : M A) (k : A → M B) (Q : A → Prop) (R : B → Prop) :
  keeps I m Q → (∀ a, Q a → keeps I (k a) R) → keeps I (bind m k) R.
Proof.
  intros Hm Hk w Hw. unfold bind. destruct (Hm w Hw) as [Hw' Hq].
  destruct (m w) as [w' [e|a]]; simpl in *.
  - split; [exact Hw'|]. intros b [=].
  - apply Hk; [apply Hq; reflexivity|exact Hw'].
Qed.

Lemma keeps_try (m : M A) (h : Exn → M A) (Q : A → Prop) :
  keeps I m Q → (∀ e, keeps I (h e) Q) → keeps I (try_catch m h) Q.
Proof.
  intros Hm Hh w Hw. unfold try_catch. destruct (Hm w Hw) as [Hw' Hq].
  destruct (m w) as [w' [e|a]]; simpl in *.
  - apply Hh. exact Hw'.
  - split; [exact Hw'|]. exact Hq.
Qed.

Lemma keeps_weaken (m : M A) (Q R : A → Prop) :
  keeps I m Q → (∀ a, Q a → R a) → keeps I m R.
Proof.
  intros Hm HQR w Hw. destruct (Hm w Hw) as [Hw' Hq].
  split; [exact Hw'|]. intros a Ha. apply HQR, Hq, Ha.
Qed.

End Keeps.

Lemma keeps_when I b (m : M unit) :
  keeps I m (λ _, True) → keeps I (when b m) (λ _, True).
Proof. intros H. destruct b; [exact H|by apply keeps_ret]. Qed.

Lemma keeps_assign_if {V} I (v : option V) node prop f :
  keeps I (assign_if v node prop f) (λ _, True).
Proof.
  unfold assign_if, assign.
  destruct v, node as [[i n]|]; first [by apply keeps_ret | apply keeps_throw].
Qed.

(** *** Unique pairs as an invariant *)

(** A step that leaves the KGraph collection alone. *)
Lemma keeps_same_kgraphs {A} (m : M A) :
  (∀ w, kgraphs (m w).1 = kgraphs w) → keeps every_doc_unique m (λ _, True).
Proof.
  intros Hm w Hw. split; [|done].
  intros u g Hg. rewrite Hm in Hg. eapply Hw, Hg.
Qed.

Lemma keeps_logger lv t d : keeps every_doc_unique (logger lv t d) (λ _, True).
Proof. apply keeps_same_kgraphs. reflexivity. Qed.

Lemma keeps_fresh_oid : keeps every_doc_unique fresh_oid (λ _, True).
Proof. apply keeps_same_kgraphs. reflexivity. Qed.

Lemma keeps_new_Date : keeps every_doc_unique new_Date (λ _, True).
Proof. apply keeps_same_kgraphs. reflexivity. Qed.

Lemma keeps_Message_find userId nodeIds :
  keeps every_doc_unique (Message_find userId nodeIds) (λ _, True).
Proof. apply keeps_same_kgraphs. reflexivity. Qed.

Lemma keeps_save_messages userId nodeIds :
  keeps every_doc_unique (save_messages userId nodeIds) (λ _, True).
Proof. apply keeps_same_kgraphs. reflexivity. Qed.

Lemma keeps_axios_post peer e b c :
  keeps every_doc_unique (axios_post peer e b c) (λ _, True).
Proof.
  apply keeps_same_kgraphs. intros w. unfold axios_post.
  destruct (peer _); reflexivity.
Qed.

Lemma keeps_embed peer e b authHeader what :
  keeps every_doc_unique (embed peer e b authHeader what) (λ _, True).
Proof.
  apply keeps_same_kgraphs. intros w.
  destruct (embed_run peer e b authHeader what w) as [l ->]. reflexivity.
Qed.

Lemma keeps_push_nodes news : ∀ ns,
  keeps every_doc_unique (push_nodes news ns) (λ _, True).
Proof.
  induction news as [|mk rest IH]; intros ns; simpl; [by apply keeps_ret|].
  eapply keeps_bind; [apply keeps_fresh_oid|]. intros _id _. apply IH.
Qed.

Lemma keeps_apply_layout umapData : ∀ ns,
  keeps every_doc_unique (apply_layout umapData ns) (λ _, True).
Proof.
  induction umapData as [|item rest IH]; intros ns; simpl; [by apply keeps_ret|].
  destruct (nodes_id ns (item_id item)) as [[i node]|]; [apply IH|].
  eapply keeps_bind; [apply keeps_logger|]. intros _ _. apply IH.
Qed.

Lemma every_doc_unique_insert userId g w :
  unique_pairs g → every_doc_unique w →
  every_doc_unique (set_kgraphs (insert userId g) w).
Proof.
  intros Hg Hw u g' Hl. simpl in Hl.
  destruct (decide (u = userId)) as [->|Hne].
  - rewrite lookup_insert_eq in Hl. injection Hl as <-. exact Hg.
  - rewrite lookup_insert_ne in Hl by done. eapply Hw, Hl.
Qed.

Lemma keeps_save userId g :
  unique_pairs g → keeps every_doc_unique (save userId g) (λ _, True).
Proof.
  intros Hg w Hw. split; [|done]. by apply every_doc_unique_insert.
Qed.

Lemma keeps_findOne userId :
  keeps every_doc_unique (findOne userId) (λ o, ∀ g, o = Some g → unique_pairs g).
Proof.
  intros w Hw. split; [exact Hw|].
  intros o [= <-] g Hg. eapply Hw, Hg.
Qed.

Lemma keeps_getOrCreateGraphDoc userId :
  keeps every_doc_unique (getOrCreateGraphDoc userId) unique_pairs.
Proof.
  unfold getOrCreateGraphDoc.
  eapply keeps_bind.
  { apply keeps_when. eapply keeps_bind; [apply keeps_logger|].
    intros _ _. apply keeps_logger. }
  intros _ _. eapply keeps_bind; [apply keeps_findOne|].
  intros [g|] Hg; [apply keeps_ret; by apply Hg|].
  eapply keeps_bind; [apply keeps_logger|]. intros _ _.
  eapply keeps_bind; [apply keeps_save; constructor|]. intros _ _.
  apply keeps_ret. constructor.
Qed.

Lemma keeps_findOneAndUpdate userId f :
  (∀ g, unique_pairs g → unique_pairs (f g)) →
  keeps every_doc_unique (findOneAndUpdate userId f) (λ _, True).
Proof.
  intros Hf w Hw. split; [|done]. unfold findOneAndUpdate.
  destruct (kgraphs w !! userId) as [g|] eqn:Hg; [|exact Hw].
  apply every_doc_unique_insert; [|exact Hw]. eapply Hf, Hw, Hg.
Qed.

Lemma keeps_updateOne userId f :
  (∀ g, unique_pairs g → unique_pairs (f g)) →
  keeps every_doc_unique (updateOne userId f) (λ _, True).
Proof.
  intros Hf w Hw. split; [|done]. unfold updateOne.
  destruct (kgraphs w !! userId) as [g|] eqn:Hg; [|exact Hw].
  apply every_doc_unique_insert; [|exact Hw]. eapply Hf, Hw, Hg.
Qed.

Lemma keeps_deleteOne userId : keeps every_doc_unique (deleteOne userId) (λ _, True).
Proof.
  intros w Hw. split; [|done]. intros u g Hl. simpl in Hl.
  apply lookup_delete_Some in Hl as [_ Hl]. eapply Hw, Hl.
Qed.

Ltac keeps_step :=
  first
    [ by apply keeps_ret | apply keeps_throw | apply keeps_logger
    | apply keeps_embed | apply keeps_axios_post | apply keeps_new_Date
    | apply keeps_fresh_oid | apply keeps_push_nodes
    | apply keeps_Message_find | apply keeps_save_messages
    | apply keeps_apply_layout | apply keeps_deleteOne
    | apply keeps_when | apply keeps_assign_if
    | apply keeps_getOrCreateGraphDoc
    | eapply keeps_bind; [|intros ? ?]
    | apply keeps_try; [|intros ?] ].

Section OperationsKeepPairsUnique.
Context (peer : Peer).

Lemma keeps_createNode userId d a :
  keeps every_doc_unique (createNode peer userId d a) (λ _, True).
Proof.
  unfold createNode. apply keeps_try; [|intros ?; repeat keeps_step].
  eapply keeps_bind; [apply keeps_getOrCreateGraphDoc|intros graph Hg]. cbv zeta.
  eapply keeps_bind; [apply keeps_push_nodes|intros ns _].
  eapply keeps_bind; [apply keeps_save; exact Hg|intros _ _].
  destruct (last _); repeat keeps_step.
Qed.

Lemma keeps_updateNode userId nodeId u a :
  keeps every_doc_unique (updateNode peer userId nodeId u a) (λ _, True).
Proof.
  unfold updateNode. apply keeps_try; [|intros ?; repeat keeps_step].
  eapply keeps_bind; [apply keeps_getOrCreateGraphDoc|intros graph Hg].
  eapply keeps_bind; [repeat keeps_step|intros _ _].
  eapply keeps_bind.
  { instantiate (1 := λ _, True).
    destruct (nu_labels u);
      [unfold assign; destruct (nodes_id _ _) as [[??]|]|]; repeat keeps_step. }
  intros node0 _.
  do 5 (eapply keeps_bind; [apply keeps_assign_if|intros ? _]). cbv zeta.
  eapply keeps_bind; [apply keeps_save; exact Hg|intros _ _].
  match goal with |- keeps _ (match ?n with _ => _ end) _ =>
    destruct n as [[? updatedNode]|] end; repeat keeps_step.
Qed.

Lemma keeps_importNodes userId nodeIds a :
  keeps every_doc_unique (importNodes peer userId nodeIds a) (λ _, True).
Proof.
  unfold importNodes. apply keeps_try; [|intros ?; repeat keeps_step].
  eapply keeps_bind; [repeat keeps_step|intros _ _].
  eapply keeps_bind; [apply keeps_Message_find|intros messages _].
  eapply keeps_bind; [repeat keeps_step|intros _ _].
  eapply keeps_bind; [apply keeps_getOrCreateGraphDoc|intros graph Hg]. cbv zeta.
  eapply keeps_bind; [repeat keeps_step|intros _ _].
  eapply keeps_bind; [apply keeps_push_nodes|intros ns _].
  eapply keeps_bind; [apply keeps_save_messages|intros _ _].
  eapply keeps_bind; [apply keeps_save; exact Hg|intros _ _].
  repeat keeps_step.
Qed.

Lemma keeps_deleteNodes userId nodeIds a :
  keeps every_doc_unique (deleteNodes peer userId nodeIds a) (λ _, True).
Proof.
  unfold deleteNodes.
  eapply keeps_bind; [repeat keeps_step|intros _ _]. cbv zeta.
  apply keeps_try; [|intros ?; repeat keeps_step].
  eapply keeps_bind.
  { apply (keeps_findOneAndUpdate userId). intros g Hg. exact Hg. }
  intros updated _.
  eapply keeps_bind; [repeat keeps_step|intros _ _].
  eapply keeps_bind.
  { apply keeps_updateOne. intros g Hg. by apply NoDup_keys_filter. }
  intros _ _. repeat keeps_step.
Qed.

Lemma keeps_createEdge userId src tgt label a :
  keeps every_doc_unique (createEdge peer userId src tgt label a) (λ _, True).
Proof.
  unfold createEdge. apply keeps_try; [|intros ?; repeat keeps_step].
  eapply keeps_bind; [apply keeps_getOrCreateGraphDoc|intros graph Hg]. cbv zeta.
  eapply keeps_bind.
  { instantiate (1 := λ r, NoDup (edge_key <$> r.1)).
    destruct (find_edge (edges graph) src tgt) as [[i e]|] eqn:Hf.
    - apply keeps_ret. simpl. rewrite (keys_insert_same _ src tgt); done.
    - eapply keeps_bind; [apply keeps_fresh_oid|intros _id _].
      apply keeps_ret. simpl. by apply NoDup_keys_snoc. }
  intros r Hr.
  eapply keeps_bind; [apply keeps_new_Date|intros now _].
  eapply keeps_bind; [apply keeps_save; exact Hr|intros _ _].
  repeat keeps_step.
Qed.

Lemma keeps_updateEdge userId src tgt label a :
  keeps every_doc_unique (updateEdge peer userId src tgt label a) (λ _, True).
Proof.
  unfold updateEdge. apply keeps_try; [|intros ?; repeat keeps_step].
  eapply keeps_bind; [apply keeps_getOrCreateGraphDoc|intros graph Hg]. cbv zeta.
  eapply keeps_bind; [repeat keeps_step|intros _ _].
  destruct (find_edge (edges graph) src tgt) as [[i e]|] eqn:Hf;
    [|apply keeps_throw].
  eapply keeps_bind; [apply keeps_new_Date|intros now _].
  eapply keeps_bind.
  { apply keeps_save. unfold unique_pairs. simpl.
    rewrite (keys_insert_same _ src tgt); done. }
  intros _ _. repeat keeps_step.
Qed.

Lemma keeps_deleteEdge userId src tgt a :
  keeps every_doc_unique (deleteEdge peer userId src tgt a) (λ _, True).
Proof.
  unfold deleteEdge. apply keeps_try; [|intros ?; repeat keeps_step].
  eapply keeps_bind; [apply keeps_getOrCreateGraphDoc|intros graph Hg]. cbv zeta.
  eapply keeps_bind; [repeat keeps_step|intros _ _].
  destruct (find_edge (edges graph) src tgt) as [[i e]|] eqn:Hf;
    [|apply keeps_throw].
  eapply keeps_bind; [apply keeps_new_Date|intros now _].
  eapply keeps_bind.
  { apply keeps_save. unfold unique_pairs. simpl. by apply NoDup_keys_filter. }
  intros _ _. repeat keeps_step.
Qed.

Lemma keeps_clearGraph userId a :
  keeps every_doc_unique (clearGraph peer userId a) (λ _, True).
Proof.
  unfold clearGraph. apply keeps_try; [|intros ?; repeat keeps_step].
  eapply keeps_bind; [apply keeps_deleteOne|intros _ _].
  eapply keeps_bind; [apply keeps_logger|intros _ _].
  eapply keeps_bind; [|intros _ _; by apply keeps_ret].
  apply keeps_try; [|intros ?; apply keeps_logger].
  eapply keeps_bind; [apply keeps_axios_post|intros _ _]. apply keeps_logger.
Qed.

Lemma keeps_getGraph userId c : keeps every_doc_unique (getGraph userId c) (λ _, True).
Proof.
  unfold getGraph. apply keeps_try; [|intros ?; repeat keeps_step].
  eapply keeps_bind; [apply keeps_getOrCreateGraphDoc|intros graph Hg].
  by apply keeps_ret.
Qed.

Lemma keeps_calculateCluster userId a :
  keeps every_doc_unique (calculateCluster peer userId a) (λ _, True).
Proof.
  unfold calculateCluster. apply keeps_try; [|intros ?; repeat keeps_step].
  eapply keeps_bind; [repeat keeps_step|intros _ _].
  eapply keeps_bind; [apply keeps_logger|intros _ _].
  eapply keeps_bind; [apply keeps_axios_post|intros umapData _].
  eapply keeps_bind; [apply keeps_getOrCreateGraphDoc|intros graph Hg].
  eapply keeps_bind; [apply keeps_apply_layout|intros ns _].
  eapply keeps_bind; [apply keeps_save; exact Hg|intros _ _].
  repeat keeps_step.
Qed.

End OperationsKeepPairsUnique.

(** *** Reachable worlds *)

Lemma perform_keeps_pairs_unique peer c w :
  every_doc_unique w → every_doc_unique (perform peer c w).
Proof.
  intros Hw. destruct c; simpl.
  - apply (keeps_getGraph userId conversationId0 w Hw).
  - apply (keeps_createNode peer userId d authHeader w Hw).
  - apply (keeps_updateNode peer userId nodeId u authHeader w Hw).
  - apply (keeps_importNodes peer userId nodeIds authHeader w Hw).
  - apply (keeps_deleteNodes peer userId nodeIds authHeader w Hw).
  - apply (keeps_createEdge peer userId src tgt label authHeader w Hw).
  - apply (keeps_updateEdge peer userId src tgt label authHeader w Hw).
  - apply (keeps_deleteEdge peer userId src tgt authHeader w Hw).
  - apply (keeps_clearGraph peer userId authHeader w Hw).
  - apply (keeps_calculateCluster peer userId authHeader w Hw).
Qed.

Lemma lookup_strategy_elem {Params} (strategies : list (string * @Strategy Params))
    method s :
  lookup_strategy strategies method = Some s → (method, s) ∈ strategies.
Proof.
  unfold lookup_strategy. intros Hl.
  destruct (find _ strategies) as [[name s']|] eqn:Hfind; [|discriminate Hl].
  injection Hl as <-. apply find_some in Hfind as [Hin Hname].
  apply bool_decide_eq_true in Hname. simpl in Hname. subst name.
  apply list_elem_of_In. exact Hin.
Qed.

Lemma keeps_getRecommendations {Params} (strategies : list (string * @Strategy Params))
    userId method params :
  read_only strategies →
  keeps every_doc_unique (getRecommendations strategies userId method params)
    (λ _, True).
Proof.
  intros Hro. unfold getRecommendations.
  apply keeps_try; [|intros ?; repeat keeps_step].
  eapply keeps_bind; [repeat keeps_step|intros _ _].
  eapply keeps_bind
    with (Q := λ p, match p with inl s => (method, s) ∈ strategies | inr _ => True end).
  { unfold read_strategy.
    destruct (lookup_strategy strategies method) as [s|] eqn:Hl;
      [apply keeps_ret; by apply lookup_strategy_elem|].
    destruct (Object_prototype method); [by apply keeps_ret|apply keeps_throw]. }
  intros strategy Hs.
  eapply keeps_bind; [apply keeps_logger|intros _ _].
  eapply keeps_bind with (Q := λ _, True).
  { destruct strategy as [s|[truthy|message]];
      [|by apply keeps_ret|apply keeps_throw].
    eapply keeps_bind;
      [apply keeps_same_kgraphs; intros w0; eapply (Hro _ _ _ _ w0), Hs|intros r _; by apply keeps_ret]. }
  intros recs _.
  eapply keeps_bind; [apply keeps_getOrCreateGraphDoc|intros graph _]. cbv zeta.
  eapply keeps_bind with (Q := λ _, True).
  { destruct recs as [ids| |[|]]; first [by apply keeps_ret | apply keeps_throw]. }
  intros filtered _.
  eapply keeps_bind; [|intros _ _; by apply keeps_ret].
  destruct recs; first [apply keeps_logger | apply keeps_throw].
Qed.

Lemma reachable_pairs_unique w : reachable w → every_doc_unique w.
Proof.
  induction 1 as [w Hempty|peer c w _ IH|Params strategies u m p w Hro _ IH].
  - intros u g Hg. rewrite Hempty, lookup_empty in Hg. discriminate Hg.
  - by apply perform_keeps_pairs_unique.
  - by apply (keeps_getRecommendations strategies u m p Hro w).
Qed.

Lemma createEdge_existing_run peer w userId src tgt label authHeader g i e :
  kgraphs w !! userId = Some g →
  find_edge (edges g) src tgt = Some (i, e) →
  ∃ l,
    createEdge peer userId src tgt label authHeader w
    = (with_log l
         (with_sent
            (sent w ++
             [mkRequest EmbedEdge
                (BodyEdges userId [mkEdgePayload (edge_id e) src tgt (payload_label label)])
                (embed_config authHeader)])
            (set_kgraphs
               (insert userId
                  (mkGraph
                     (touch tgt (clock w) (touch src (clock w) (nodes g)))
                     (<[i:=set_edge_label
                             (mergeLabels (edge_label e) (label_array label)) e]>
                        (edges g)))) w)),
       inr (set_edge_label (mergeLabels (edge_label e) (label_array label)) e,
            endpoint_nodes (touch tgt (clock w) (touch src (clock w) (nodes g)))
              src tgt)).
Proof.
  intros Hg Hf.
  unfold createEdge, try_catch, bind. step_doc.
  unfold doc_of. rewrite Hg. simpl. rewrite Hf. simpl.
  step_embed. simpl. exists l0. unfold with_log, with_sent, set_kgraphs. simpl.
  rewrite insert_insert_eq. reflexivity.
Qed.


(** ** The other calls do carry the time-out *)

Lemma timed_same_sent {A} (m : M A) :
  (∀ w, sent (m w).1 = sent w) → keeps all_timed m (λ _, True).
Proof.
  intros Hm w Hw. split; [|done]. unfold all_timed. rewrite Hm. exact Hw.
Qed.

Lemma timed_logger lv t d : keeps all_timed (logger lv t d) (λ _, True).
Proof. apply timed_same_sent. reflexivity. Qed.

Lemma timed_fresh_oid : keeps all_timed fresh_oid (λ _, True).
Proof. apply timed_same_sent. reflexivity. Qed.

Lemma timed_new_Date : keeps all_timed new_Date (λ _, True).
Proof. apply timed_same_sent. reflexivity. Qed.

Lemma timed_Message_find userId nodeIds :
  keeps all_timed (Message_find userId nodeIds) (λ _, True).
Proof. apply timed_same_sent. reflexivity. Qed.

Lemma timed_save_messages userId nodeIds :
  keeps all_timed (save_messages userId nodeIds) (λ _, True).
Proof. apply timed_same_sent. reflexivity. Qed.

Lemma timed_save userId g : keeps all_timed (save userId g) (λ _, True).
Proof. apply timed_same_sent. reflexivity. Qed.

Lemma timed_deleteOne userId : keeps all_timed (deleteOne userId) (λ _, True).
Proof. apply timed_same_sent. reflexivity. Qed.

Lemma timed_findOneAndUpdate userId f :
  keeps all_timed (findOneAndUpdate userId f) (λ _, True).
Proof.
  apply timed_same_sent. intros w. unfold findOneAndUpdate.
  destruct (kgraphs w !! userId); reflexivity.
Qed.

Lemma timed_updateOne userId f :
  keeps all_timed (updateOne userId f) (λ _, True).
Proof.
  apply timed_same_sent. intros w. unfold updateOne.
  destruct (kgraphs w !! userId); reflexivity.
Qed.

Lemma timed_getOrCreateGraphDoc userId :
  keeps all_timed (getOrCreateGraphDoc userId) (λ _, True).
Proof.
  apply timed_same_sent. intros w.
  destruct (getOrCreateGraphDoc_run userId w) as [l ->]. reflexivity.
Qed.

Lemma timed_push_nodes news : ∀ ns,
  keeps all_timed (push_nodes news ns) (λ _, True).
Proof.
  induction news as [|mk rest IH]; intros ns; simpl; [by apply keeps_ret|].
  eapply keeps_bind; [apply timed_fresh_oid|]. intros _id _. apply IH.
Qed.

(** A request sent with [embed_config] keeps the trace timed. *)
Lemma timed_axios_post peer e b authHeader :
  keeps all_timed (axios_post peer e b (embed_config authHeader)) (λ _, True).
Proof.
  intros w Hw. split; [|done]. unfold axios_post, all_timed.
  destruct (peer _); simpl; (apply Forall_app; split; [exact Hw|]);
    repeat constructor.
Qed.

Lemma timed_embed peer e b authHeader what :
  keeps all_timed (embed peer e b authHeader what) (λ _, True).
Proof.
  unfold embed. apply keeps_try.
  - eapply keeps_bind; [apply timed_axios_post|]. intros _ _. apply timed_logger.
  - intros embedErr. unfold embed_failed.
    eapply keeps_bind; [apply timed_logger|]. intros _ _. apply timed_logger.
Qed.

Ltac timed_step :=
  first
    [ by apply keeps_ret | apply keeps_throw | apply timed_logger
    | apply timed_embed | apply timed_axios_post | apply timed_new_Date
    | apply timed_fresh_oid | apply timed_push_nodes
    | apply timed_Message_find | apply timed_save_messages | apply timed_save
    | apply timed_findOneAndUpdate | apply timed_updateOne | apply timed_deleteOne
    | apply keeps_when | apply keeps_assign_if
    | apply timed_getOrCreateGraphDoc
    | eapply keeps_bind; [|intros ? ?]
    | apply keeps_try; [|intros ?] ].

(** Each call other than calculateCluster sends, if anything, a request
    with the 15 s time-out: embed node, embed edge, embed delete and embed
    reset all carry it. *)
Lemma other_calls_send_timed_requests peer c w :
  (∀ u a, c ≠ CallCalculateCluster u a) →
  all_timed w → all_timed (perform peer c w).
Proof.
  intros Hc Hw.
  assert (Hgoal : ∀ {A} (m : M A), keeps all_timed m (λ _, True) → all_timed (m w).1)
    by (intros A m Hm; apply (Hm w Hw)).
  destruct c; simpl; apply Hgoal.
  - unfold getGraph. repeat timed_step.
  - unfold createNode. apply keeps_try; [|intros ?; repeat timed_step].
    do 3 (eapply keeps_bind; [timed_step|intros ? _]); cbv zeta.
    destruct (last _); repeat timed_step.
  - unfold updateNode. apply keeps_try; [|intros ?; repeat timed_step].
    eapply keeps_bind; [timed_step|intros graph _].
    eapply keeps_bind; [repeat timed_step|intros _ _].
    eapply keeps_bind.
    { instantiate (1 := λ _, True).
      destruct (nu_labels u);
        [unfold assign; destruct (nodes_id _ _) as [[??]|]|]; repeat timed_step. }
    intros node0 _.
    do 6 (eapply keeps_bind; [timed_step|intros ? _]); cbv zeta.
    match goal with |- keeps _ (match ?n with _ => _ end) _ =>
      destruct n as [[? updatedNode]|] end; repeat timed_step.
  - unfold importNodes. repeat timed_step.
  - unfold deleteNodes. repeat timed_step.
  - unfold createEdge. apply keeps_try; [|intros ?; repeat timed_step].
    eapply keeps_bind; [timed_step|intros graph _]. cbv zeta.
    eapply keeps_bind.
    { instantiate (1 := λ _, True).
      destruct (find_edge _ _ _) as [[??]|]; repeat timed_step. }
    intros r _. repeat timed_step.
  - unfold updateEdge. apply keeps_try; [|intros ?; repeat timed_step].
    eapply keeps_bind; [timed_step|intros graph _]. cbv zeta.
    eapply keeps_bind; [repeat timed_step|intros _ _].
    destruct (find_edge _ _ _) as [[??]|]; repeat timed_step.
  - unfold deleteEdge. apply keeps_try; [|intros ?; repeat timed_step].
    eapply keeps_bind; [timed_step|intros graph _]. cbv zeta.
    eapply keeps_bind; [repeat timed_step|intros _ _].
    destruct (find_edge _ _ _) as [[??]|]; repeat timed_step.
  - unfold clearGraph. repeat timed_step.
  - exfalso. exact (Hc userId authHeader eq_refl).
Qed.

(** ** Node ids stay distinct *)

Lemma ids_ok_mono (k k' : nat) ids : (k ≤ k')%nat → ids_ok k ids → ids_ok k' ids.
Proof.
  intros Hk [Hnd Hall]. split; [exact Hnd|].
  eapply Forall_impl; [exact Hall|]. intros id (j & Hj & ->). exists j. split; [lia|done].
Qed.

Lemma ids_ok_sublist k ids ids' :
  ids' `sublist_of` ids → ids_ok k ids → ids_ok k ids'.
Proof.
  intros Hsub [Hnd Hall]. split; [eapply sublist_NoDup; eauto|].
  apply Forall_forall. intros id Hid. rewrite Forall_forall in Hall.
  apply Hall. eapply elem_of_sublist; eauto.
Qed.

Lemma ids_ok_snoc k ids : ids_ok k ids → ids_ok (S k) (ids ++ [oid k]).
Proof.
  intros [Hnd Hall]. split.
  - apply NoDup_app. split_and!; [exact Hnd| |apply NoDup_singleton].
    intros id Hid Hk. apply list_elem_of_singleton in Hk. subst id.
    rewrite Forall_forall in Hall. destruct (Hall _ Hid) as (j & Hj & Heq).
    apply (inj pretty) in Heq. lia.
  - apply Forall_app. split.
    + eapply Forall_impl; [exact Hall|]. intros id (j & Hj & ->).
      exists j. split; [lia|done].
    + apply Forall_singleton. exists k. split; [lia|done].
Qed.

Lemma shrinks_refl w : shrinks w w.
Proof.
  split; [done|]. intros u g Hg. unfold doc_of. rewrite Hg. reflexivity.
Qed.

Lemma shrinks_ids_fresh w0 w : ids_fresh w0 → shrinks w0 w → ids_fresh w.
Proof.
  intros H0 [Hk Hsub] u g Hg. specialize (Hsub u g Hg).
  unfold doc_of in Hsub. destruct (kgraphs w0 !! u) as [g0|] eqn:Hg0; simpl in Hsub.
  - eapply ids_ok_sublist; [exact Hsub|].
    eapply ids_ok_mono; [exact Hk|]. eapply H0, Hg0.
  - apply sublist_nil_r in Hsub. rewrite Hsub. split; constructor.
Qed.

(** *** Steps that keep [shrinks w0] *)

Section Shrinks.
Context (w0 : World).

Lemma shr_quiet {A} (m : M A) :
  (∀ w, kgraphs (m w).1 = kgraphs w ∧ (next_oid w ≤ next_oid (m w).1)%nat) →
  keeps (shrinks w0) m (λ _, True).
Proof.
  intros Hm w [Hk Hsub]. destruct (Hm w) as [Hkg Hn].
  split; [|done]. split; [lia|]. rewrite Hkg. exact Hsub.
Qed.

Lemma shr_logger lv t d : keeps (shrinks w0) (logger lv t d) (λ _, True).
Proof. apply shr_quiet. intros w. split; reflexivity. Qed.

Lemma shr_fresh_oid : keeps (shrinks w0) fresh_oid (λ _, True).
Proof. apply shr_quiet. intros w. split; [reflexivity|simpl; lia]. Qed.

Lemma shr_new_Date : keeps (shrinks w0) new_Date (λ _, True).
Proof. apply shr_quiet. intros w. split; reflexivity. Qed.

Lemma shr_axios_post peer e b c : keeps (shrinks w0) (axios_post peer e b c) (λ _, True).
Proof.
  apply shr_quiet. intros w. unfold axios_post.
  destruct (peer _); split; reflexivity.
Qed.

Lemma shr_embed peer e b authHeader what :
  keeps (shrinks w0) (embed peer e b authHeader what) (λ _, True).
Proof.
  apply shr_quiet. intros w.
  destruct (embed_run peer e b authHeader what w) as [l ->]. split; reflexivity.
Qed.

Lemma shr_insert userId g w :
  (node_id <$> nodes g) `sublist_of` (node_id <$> nodes (doc_of w0 userId)) →
  shrinks w0 w → shrinks w0 (set_kgraphs (insert userId g) w).
Proof.
  intros Hg [Hk Hsub]. split; [exact Hk|]. intros u g' Hl. simpl in Hl.
  destruct (decide (u = userId)) as [->|Hne].
  - rewrite lookup_insert_eq in Hl. injection Hl as <-. exact Hg.
  - rewrite lookup_insert_ne in Hl by done. eapply Hsub, Hl.
Qed.

Lemma shr_save userId g :
  (node_id <$> nodes g) `sublist_of` (node_id <$> nodes (doc_of w0 userId)) →
  keeps (shrinks w0) (save userId g) (λ _, True).
Proof. intros Hg w Hw. split; [|done]. by apply shr_insert. Qed.

Lemma shr_findOne userId :
  keeps (shrinks w0) (findOne userId)
    (λ o, ∀ g, o = Some g →
       (node_id <$> nodes g) `sublist_of` (node_id <$> nodes (doc_of w0 userId))).
Proof.
  intros w Hw. split; [exact Hw|].
  intros o [= <-] g Hg. eapply Hw, Hg.
Qed.

Lemma shr_getOrCreateGraphDoc userId :
  keeps (shrinks w0) (getOrCreateGraphDoc userId)
    (λ g, (node_id <$> nodes g) `sublist_of` (node_id <$> nodes (doc_of w0 userId))).
Proof.
  unfold getOrCreateGraphDoc.
  eapply keeps_bind.
  { apply keeps_when. eapply keeps_bind; [apply shr_logger|].
    intros _ _. apply shr_logger. }
  intros _ _. eapply keeps_bind; [apply shr_findOne|].
  intros [g|] Hg; [apply keeps_ret; by apply Hg|].
  eapply keeps_bind; [apply shr_logger|]. intros _ _.
  eapply keeps_bind; [apply shr_save; apply sublist_nil_l|]. intros _ _.
  apply keeps_ret. apply sublist_nil_l.
Qed.

Lemma shr_findOneAndUpdate userId f :
  (∀ g, (node_id <$> nodes (f g)) `sublist_of` (node_id <$> nodes g)) →
  keeps (shrinks w0) (findOneAndUpdate userId f) (λ _, True).
Proof.
  intros Hf w Hw. split; [|done]. unfold findOneAndUpdate.
  destruct (kgraphs w !! userId) as [g|] eqn:Hg; [|exact Hw].
  apply shr_insert; [|exact Hw]. etrans; [apply Hf|]. eapply Hw, Hg.
Qed.

Lemma shr_updateOne userId f :
  (∀ g, (node_id <$> nodes (f g)) `sublist_of` (node_id <$> nodes g)) →
  keeps (shrinks w0) (updateOne userId f) (λ _, True).
Proof.
  intros Hf w Hw. split; [|done]. unfold updateOne.
  destruct (kgraphs w !! userId) as [g|] eqn:Hg; [|exact Hw].
  apply shr_insert; [|exact Hw]. etrans; [apply Hf|]. eapply Hw, Hg.
Qed.

Lemma shr_deleteOne userId : keeps (shrinks w0) (deleteOne userId) (λ _, True).
Proof.
  intros w [Hk Hsub]. split; [|done]. split; [exact Hk|].
  intros u g Hl. simpl in Hl.
  apply lookup_delete_Some in Hl as [_ Hl]. eapply Hsub, Hl.
Qed.

Lemma shr_apply_layout umapData ns :
  keeps (shrinks w0) (apply_layout umapData ns)
    (λ ns', node_id <$> ns' = node_id <$> ns).
Proof.
  intros w Hw.
  destruct (apply_layout_total umapData ns w) as (l & ns' & -> & Hids).
  split; [exact Hw|]. intros a [= <-]. exact Hids.
Qed.

(** An assignment to the sub-document found keeps the ids of the array. *)
Lemma shr_assign_if {V} (v : option V) node prop (f : V → Node → Node) ns :
  (∀ v n, node_id (f v n) = node_id n) →
  node_id <$> write_back node ns = node_id <$> ns →
  keeps (shrinks w0) (assign_if v node prop f)
    (λ node', node_id <$> write_back node' ns = node_id <$> ns).
Proof.
  intros Hf Hnode. unfold assign_if, assign.
  destruct v as [v|]; [|by apply keeps_ret].
  destruct node as [[i n]|]; [|apply keeps_throw].
  apply keeps_ret. simpl in *.
  rewrite list_fmap_insert, Hf, <- list_fmap_insert. exact Hnode.
Qed.

End Shrinks.

Lemma write_back_found ns id :
  node_id <$> write_back (nodes_id ns id) ns = node_id <$> ns.
Proof.
  destruct (nodes_id ns id) as [[i n]|] eqn:Hf; [|reflexivity]. simpl.
  apply list_find_Some in Hf as (Hi & _ & _). rewrite list_insert_id; done.
Qed.

Lemma touch_ids id now ns : node_id <$> touch id now ns = node_id <$> ns.
Proof.
  unfold touch. destruct (nodes_id ns id) as [[i n]|] eqn:Hf; [|reflexivity].
  eapply nodes_id_insert_ids; [reflexivity|exact Hf].
Qed.

Section ShrinkingOperations.
Context (w0 : World) (peer : Peer).

Lemma shr_assign node prop (f : Node → Node) ns :
  (∀ n, node_id (f n) = node_id n) →
  node_id <$> write_back node ns = node_id <$> ns →
  keeps (shrinks w0) (assign node prop f)
    (λ node', node_id <$> write_back node' ns = node_id <$> ns).
Proof.
  intros Hf Hnode. unfold assign.
  destruct node as [[i n]|]; [|apply keeps_throw].
  apply keeps_ret. simpl in *.
  rewrite list_fmap_insert, Hf, <- list_fmap_insert. exact Hnode.
Qed.

Ltac shr_step :=
  first
    [ by apply keeps_ret | apply keeps_throw | apply shr_logger
    | apply shr_embed | apply shr_axios_post | apply shr_new_Date
    | apply shr_fresh_oid | apply shr_deleteOne
    | apply keeps_when
    | eapply keeps_bind; [|intros ? ?]
    | apply keeps_try; [|intros ?] ].

Lemma shr_getGraph userId c : keeps (shrinks w0) (getGraph userId c) (λ _, True).
Proof.
  unfold getGraph. apply keeps_try; [|intros ?; repeat shr_step].
  eapply keeps_bind; [apply shr_getOrCreateGraphDoc|intros graph Hg].
  by apply keeps_ret.
Qed.

Lemma shr_updateNode userId nodeId u a :
  keeps (shrinks w0) (updateNode peer userId nodeId u a) (λ _, True).
Proof.
  unfold updateNode. apply keeps_try; [|intros ?; repeat shr_step].
  eapply keeps_bind; [apply shr_getOrCreateGraphDoc|intros graph Hg].
  eapply keeps_bind; [repeat shr_step|intros _ _].
  eapply keeps_bind.
  { destruct (nu_labels u) as [labels|].
    - apply (shr_assign _ _ _ (nodes graph)); [reflexivity|apply write_back_found].
    - apply (shr_assign_if _ _ _ _ _ (nodes graph));
        [reflexivity|apply write_back_found]. }
  intros node1 H1.
  eapply keeps_bind;
    [apply (shr_assign_if _ _ _ _ _ (nodes graph)); [reflexivity|exact H1]|].
  intros node2 H2.
  eapply keeps_bind;
    [apply (shr_assign_if _ _ _ _ _ (nodes graph)); [reflexivity|exact H2]|].
  intros node3 H3.
  eapply keeps_bind;
    [apply (shr_assign_if _ _ _ _ _ (nodes graph)); [reflexivity|exact H3]|].
  intros node4 H4. cbv zeta.
  eapply keeps_bind;
    [apply (shr_assign_if _ _ _ _ _ (nodes graph)); [reflexivity|exact H4]|].
  intros node5 H5.
  eapply keeps_bind;
    [apply (shr_assign_if _ _ _ _ _ (nodes graph)); [reflexivity|exact H5]|].
  intros node6 H6.
  eapply keeps_bind; [apply shr_save; simpl; rewrite H6; exact Hg|intros _ _].
  destruct node6 as [[? updatedNode]|]; repeat shr_step.
Qed.

Lemma shr_deleteNodes userId nodeIds a :
  keeps (shrinks w0) (deleteNodes peer userId nodeIds a) (λ _, True).
Proof.
  unfold deleteNodes.
  eapply keeps_bind; [repeat shr_step|intros _ _]. cbv zeta.
  apply keeps_try; [|intros ?; repeat shr_step].
  eapply keeps_bind.
  { apply shr_findOneAndUpdate. intros g. simpl.
    apply fmap_sublist, sublist_filter. }
  intros updated _.
  eapply keeps_bind; [repeat shr_step|intros _ _].
  eapply keeps_bind; [apply shr_updateOne; intros g; reflexivity|intros _ _].
  repeat shr_step.
Qed.

Lemma shr_createEdge userId src tgt label a :
  keeps (shrinks w0) (createEdge peer userId src tgt label a) (λ _, True).
Proof.
  unfold createEdge. apply keeps_try; [|intros ?; repeat shr_step].
  eapply keeps_bind; [apply shr_getOrCreateGraphDoc|intros graph Hg]. cbv zeta.
  eapply keeps_bind.
  { instantiate (1 := λ _, True).
    destruct (find_edge _ _ _) as [[??]|]; repeat shr_step. }
  intros r _.
  eapply keeps_bind; [apply shr_new_Date|intros now _].
  eapply keeps_bind;
    [apply shr_save; simpl; rewrite !touch_ids; exact Hg|intros _ _].
  repeat shr_step.
Qed.

Lemma shr_updateEdge userId src tgt label a :
  keeps (shrinks w0) (updateEdge peer userId src tgt label a) (λ _, True).
Proof.
  unfold updateEdge. apply keeps_try; [|intros ?; repeat shr_step].
  eapply keeps_bind; [apply shr_getOrCreateGraphDoc|intros graph Hg]. cbv zeta.
  eapply keeps_bind; [repeat shr_step|intros _ _].
  destruct (find_edge (edges graph) src tgt) as [[i e]|]; [|apply keeps_throw].
  eapply keeps_bind; [apply shr_new_Date|intros now _].
  eapply keeps_bind;
    [apply shr_save; simpl; rewrite !touch_ids; exact Hg|intros _ _].
  repeat shr_step.
Qed.

Lemma shr_deleteEdge userId src tgt a :
  keeps (shrinks w0) (deleteEdge peer userId src tgt a) (λ _, True).
Proof.
  unfold deleteEdge. apply keeps_try; [|intros ?; repeat shr_step].
  eapply keeps_bind; [apply shr_getOrCreateGraphDoc|intros graph Hg]. cbv zeta.
  eapply keeps_bind; [repeat shr_step|intros _ _].
  destruct (find_edge (edges graph) src tgt) as [[i e]|]; [|apply keeps_throw].
  eapply keeps_bind; [apply shr_new_Date|intros now _].
  eapply keeps_bind;
    [apply shr_save; simpl; rewrite !touch_ids; exact Hg|intros _ _].
  repeat shr_step.
Qed.

Lemma shr_clearGraph userId a :
  keeps (shrinks w0) (clearGraph peer userId a) (λ _, True).
Proof. unfold clearGraph. repeat shr_step. Qed.

Lemma shr_calculateCluster userId a :
  keeps (shrinks w0) (calculateCluster peer userId a) (λ _, True).
Proof.
  unfold calculateCluster. apply keeps_try; [|intros ?; repeat shr_step].
  eapply keeps_bind; [repeat shr_step|intros _ _].
  eapply keeps_bind; [apply shr_logger|intros _ _].
  eapply keeps_bind; [apply shr_axios_post|intros umapData _].
  eapply keeps_bind; [apply shr_getOrCreateGraphDoc|intros graph Hg].
  eapply keeps_bind; [apply shr_apply_layout|intros ns Hns].
  eapply keeps_bind; [apply shr_save; simpl; rewrite Hns; exact Hg|intros _ _].
  repeat shr_step.
Qed.

Lemma shr_getRecommendations {Params} (strategies : list (string * @Strategy Params))
    userId method params :
  read_only strategies →
  keeps (shrinks w0) (getRecommendations strategies userId method params) (λ _, True).
Proof.
  intros Hro. unfold getRecommendations.
  apply keeps_try; [|intros ?; repeat shr_step].
  eapply keeps_bind; [repeat shr_step|intros _ _].
  eapply keeps_bind
    with (Q := λ p, match p with inl s => (method, s) ∈ strategies | inr _ => True end).
  { unfold read_strategy.
    destruct (lookup_strategy strategies method) as [s|] eqn:Hl;
      [apply keeps_ret; by apply lookup_strategy_elem|].
    destruct (Object_prototype method); [by apply keeps_ret|apply keeps_throw]. }
  intros strategy Hs.
  eapply keeps_bind; [apply shr_logger|intros _ _].
  eapply keeps_bind with (Q := λ _, True).
  { destruct strategy as [s|[truthy|message]];
      [|by apply keeps_ret|apply keeps_throw].
    eapply keeps_bind;
      [apply shr_quiet; intros w; eapply (Hro _ _ _ _ w), Hs|intros r _; by apply keeps_ret]. }
  intros recs _.
  eapply keeps_bind; [apply shr_getOrCreateGraphDoc|intros graph _]. cbv zeta.
  eapply keeps_bind with (Q := λ _, True).
  { destruct recs as [ids| |[|]]; first [by apply keeps_ret | apply keeps_throw]. }
  intros filtered _.
  eapply keeps_bind; [|intros _ _; by apply keeps_ret].
  destruct recs; first [apply shr_logger | apply keeps_throw].
Qed.

End ShrinkingOperations.

(** *** The operations that add nodes *)

Lemma when_logger_run b lv t d w :
  ∃ l, when b (logger lv t d) w = (with_log l w, inr tt).
Proof. destruct w, b; eexists; reflexivity. Qed.

Lemma push_nodes_run news : ∀ ns w,
  Forall (λ mk : string → Node, ∀ id, node_id (mk id) = id) news →
  ids_ok (next_oid w) (node_id <$> ns) →
  ∃ ns',
    push_nodes news ns w = (with_next_oid (next_oid w + length news) w, inr ns') ∧
    ids_ok (next_oid w + length news) (node_id <$> ns').
Proof.
  induction news as [|mk rest IH]; intros ns w Hmk Hok; simpl.
  - exists ns. rewrite Nat.add_0_r. split; [destruct w; reflexivity|exact Hok].
  - apply Forall_cons in Hmk as [Hmk Hrest].
    unfold bind, fresh_oid.
    match goal with |- context [push_nodes rest ?ns1 ?w1] =>
      destruct (IH ns1 w1) as (ns' & Hrun & Hok') end; [exact Hrest| |].
    + simpl. rewrite fmap_app. simpl. rewrite Hmk. by apply ids_ok_snoc.
    + exists ns'. rewrite Hrun. simpl in *.
      replace (next_oid w + S (length rest)) with (S (next_oid w) + length rest) by lia.
      split; [destruct w; reflexivity|exact Hok'].
Qed.

Lemma ids_fresh_doc_of w userId :
  ids_fresh w → ids_ok (next_oid w) (node_id <$> nodes (doc_of w userId)).
Proof.
  intros Hw. unfold doc_of.
  destruct (kgraphs w !! userId) as [g|] eqn:Hg; [eapply Hw, Hg|].
  split; constructor.
Qed.

(** A world that gained nodes with fresh ids in one document. *)
Lemma ids_fresh_grow w w' userId g' :
  ids_fresh w →
  (next_oid w ≤ next_oid w')%nat →
  kgraphs w' = <[userId:=g']> (kgraphs w) →
  ids_ok (next_oid w') (node_id <$> nodes g') →
  ids_fresh w'.
Proof.
  intros Hw Hk Hkg Hg' u g Hl. rewrite Hkg in Hl.
  destruct (decide (u = userId)) as [->|Hne].
  - rewrite lookup_insert_eq in Hl. injection Hl as <-. exact Hg'.
  - rewrite lookup_insert_ne in Hl by done.
    eapply ids_ok_mono; [exact Hk|]. eapply Hw, Hl.
Qed.

Lemma createNode_ids_fresh peer userId d a w :
  ids_fresh w → ids_fresh (createNode peer userId d a w).1.
Proof.
  intros Hw.
  pose proof (ids_fresh_doc_of w userId Hw) as Hdoc.
  unfold createNode, try_catch, bind. step_doc. simpl.
  unfold fresh_oid, ret. simpl. rewrite last_snoc.
  unfold logger. simpl. step_embed. simpl.
  eapply (ids_fresh_grow w _ userId); [exact Hw|simpl; lia| |].
  - simpl. apply insert_insert_eq.
  - simpl. rewrite fmap_app. by apply ids_ok_snoc.
Qed.

Lemma importNodes_ids_fresh peer userId nodeIds a w :
  ids_fresh w → ids_fresh (importNodes peer userId nodeIds a w).1.
Proof.
  intros Hw.
  pose proof (ids_fresh_doc_of w userId Hw) as Hdoc.
  unfold importNodes, try_catch, bind.
  destruct (when_logger_run (bool_decide (length nodeIds = 0)) LWarn EMBED_SKIPPED None w)
    as [l1 ->].
  unfold Message_find at 1. simpl.
  match goal with |- context [when ?b (logger ?lv ?t ?d) ?w1] =>
    destruct (when_logger_run b lv t d w1) as [l2 ->] end.
  step_doc. simpl.
  match goal with |- context [when ?b (logger ?lv ?t ?d) ?w1] =>
    destruct (when_logger_run b lv t d w1) as [l3 ->] end.
  match goal with |- context [push_nodes ?news ?ns ?w1] =>
    destruct (push_nodes_run news ns w1) as (ns' & -> & Hok) end.
  - apply Forall_forall. intros mk Hmk id.
    rewrite list_elem_of_In, in_flat_map in Hmk. destruct Hmk as (m & _ & Hmk).
    rewrite <- list_elem_of_In, list_elem_of_fmap in Hmk.
    destruct Hmk as (sn & -> & _). reflexivity.
  - exact Hdoc.
  - simpl. unfold save_messages, save. simpl. step_embed. simpl.
    eapply (ids_fresh_grow w _ userId); [exact Hw|simpl; lia| |].
    + simpl. apply insert_insert_eq.
    + simpl in *. exact Hok.
Qed.

Lemma perform_ids_fresh peer c w : ids_fresh w → ids_fresh (perform peer c w).
Proof.
  intros Hw.
  assert (Hshr : ∀ {A} (m : M A),
            keeps (shrinks w) m (λ _, True) → ids_fresh (m w).1).
  { intros A m Hm. eapply shrinks_ids_fresh; [exact Hw|].
    apply (Hm w (shrinks_refl w)). }
  destruct c; simpl.
  - apply Hshr, shr_getGraph.
  - by apply createNode_ids_fresh.
  - apply Hshr, shr_updateNode.
  - by apply importNodes_ids_fresh.
  - apply Hshr, shr_deleteNodes.
  - apply Hshr, shr_createEdge.
  - apply Hshr, shr_updateEdge.
  - apply Hshr, shr_deleteEdge.
  - apply Hshr, shr_clearGraph.
  - apply Hshr, shr_calculateCluster.
Qed.

Lemma reachable_ids_fresh w : reachable w → ids_fresh w.
Proof.
  induction 1 as [w Hempty|peer c w _ IH|Params strategies u m p w Hro _ IH].
  - intros u g Hg. rewrite Hempty, lookup_empty in Hg. discriminate Hg.
  - by apply perform_ids_fresh.
  - eapply shrinks_ids_fresh; [exact IH|].
    apply (shr_getRecommendations w strategies u m p Hro w (shrinks_refl w)).
Qed.

(** In a reachable world the node ids of a document are distinct. *)
Lemma reachable_node_ids_distinct w userId :
  reachable w → NoDup (node_id <$> nodes (doc_of w userId)).
Proof.
  intros Hw. apply (ids_fresh_doc_of w userId (reachable_ids_fresh w Hw)).
Qed.

(** ** calculateCluster on reachable worlds *)

(** C9. In every reachable world, when the peer answers the calculate-umap
    request with [umapData], calculateCluster resolves with [umapData] itself
    (the unscaled coordinates) and stores the document with the same edges
    and the same nodes in the same order, where a node whose id occurs in
    [umapData] has x and y overwritten by the coordinates of the last item
    with that id, each multiplied by 250, and every other field and every
    other node is left as it was.  Items whose id is not in the document
    change nothing and do not stop the loop. *)
Theorem calculateCluster_scales_and_stores peer w userId authHeader umapData :
  reachable w →
  (∀ c, peer (mkRequest CalculateUmap (BodyUser userId) c) = Resolved umapData) →
  ∃ w' g',
    calculateCluster peer userId authHeader w = (w', inr umapData) ∧
    kgraphs w' !! userId = Some g' ∧
    edges g' = edges (doc_of w userId) ∧
    nodes g' = laid_out umapData <$> nodes (doc_of w userId) ∧
    (∀ n it, last_item_for (node_id n) umapData = Some it →
       laid_out umapData n
         = mkNode (node_id n) (content n) (node_label n)
             (item_x it * 250) (item_y it * 250)
             (source_message_id n) (source_conversation_id n) (updatedAt n)) ∧
    (∀ n, (∀ it, it ∈ umapData → item_id it ≠ node_id n) →
       laid_out umapData n = n).
Proof.
  intros Hreach Hpeer.
  destruct (calculateCluster_run peer w userId authHeader umapData Hpeer)
    as (w' & g' & Hrun & Hdoc & Hedges & _ & Hnodes & Hhit & Hmiss).
  exists w', g'. split_and!; try done.
  apply Hnodes, reachable_node_ids_distinct, Hreach.
Qed.

(** * Scenarios *)

Lemma sample_world_reachable : reachable sample_world.
Proof. do 4 apply reachable_call. apply reachable_start. reflexivity. Qed.

Lemma scenario_world_reachable : reachable scenario_world.
Proof. do 3 apply reachable_call. apply reachable_start. reflexivity. Qed.

Lemma scenario_world_doc : kgraphs scenario_world !! "u" = Some scenario_doc.
Proof. vm_compute. reflexivity. Qed.

(** Re-creating edge A→B with another label leaves a single edge carrying
    both labels, in the order they were first given. *)
Example recreate_edge_merges :
  edges <$> (kgraphs
    (createEdge healthy_peer "u" "0" "1" (Some (LStr "대안-선택지")) None
       scenario_world).1 !! "u")
  = Some [mkEdge "2" "0" "1" ["원인-결과"; "대안-선택지"]].
Proof. vm_compute. reflexivity. Qed.

(** Updating edge A→B replaces the labels. *)
Example update_edge_replaces :
  edges <$> (kgraphs
    (updateEdge healthy_peer "u" "0" "1" (Some (LArr ["유사/연관"])) None
       scenario_world).1 !! "u")
  = Some [mkEdge "2" "0" "1" ["유사/연관"]].
Proof. vm_compute. reflexivity. Qed.

(** Deleting node A removes A and edge A→B; node B stays. *)
Example delete_node_cascades :
  (λ g, (node_id <$> nodes g, edges g)) <$> (kgraphs
    (deleteNodes healthy_peer "u" ["0"] None scenario_world).1 !! "u")
  = Some (["1"], []).
Proof. vm_compute. reflexivity. Qed.

(** The peer places B at (0.4, -0.2) and names a node that does not exist:
    B is stored at (100, -50), A is untouched. *)
Example cluster_scales_by_250 :
  (λ g, (λ n, (node_id n, x n, y n)) <$> nodes g) <$> (kgraphs
    (calculateCluster layout_peer "u" None scenario_world).1 !! "u")
  = Some [("0", 0%float, 0%float); ("1", 100%float, (-50)%float)].
Proof. vm_compute. reflexivity. Qed.

(** * Instances of the theorems on the scenario *)


Lemma updateEdge_replaces_labels_witness :
  kgraphs scenario_world !! "u" = Some scenario_doc ∧
  find_edge (edges scenario_doc) "0" "1" = Some (0, scenario_edge) ∧
  ∃ w' ns g',
    updateEdge failing_peer "u" "0" "1" (Some (LStr "유사/연관")) None scenario_world
      = (w', inr (mkEdge "2" "0" "1" ["유사/연관"], ns)) ∧
    kgraphs w' !! "u" = Some g' ∧
    edges g' = [mkEdge "2" "0" "1" ["유사/연관"]].
Proof.
  split; [exact scenario_world_doc|]. split; [reflexivity|].
  destruct (updateEdge_replaces_labels failing_peer scenario_world "u" "0" "1"
              (Some (LStr "유사/연관")) None scenario_doc 0 scenario_edge
              scenario_world_doc eq_refl)
    as (w' & ns & g' & Hrun & Hdoc & Hedges & _).
  exists w', ns, g'. split; [exact Hrun|]. split; [exact Hdoc|exact Hedges].
Defined.

Lemma unknown_node_or_edge_fails_by_a_null_access_witness :
  nodes_id (nodes (doc_of scenario_world "u")) "ghost" = None ∧
  find_edge (edges (doc_of scenario_world "u")) "1" "0" = None ∧
  (∃ w',
     updateNode healthy_peer "u" "ghost"
       (mkNodeUpdate None None None None (Some "text") None None) None scenario_world
       = (w', inl (Error "노드 수정에 실패했습니다: Cannot set properties of null (setting 'content')")) ∧
     sent w' = sent scenario_world) ∧
  (∃ w',
     updateEdge healthy_peer "u" "1" "0" (Some (LStr "l")) None scenario_world
       = (w', inl (Error "엣지 수정에 실패했습니다: Cannot set properties of undefined (setting 'label')")) ∧
     sent w' = sent scenario_world) ∧
  (∃ w',
     deleteEdge healthy_peer "u" "1" "0" None scenario_world
       = (w', inl (Error "엣지 삭제에 실패했습니다: Cannot read properties of undefined (reading '_id')")) ∧
     sent w' = sent scenario_world).
Proof.
  split; [reflexivity|]. split; [reflexivity|].
  destruct (unknown_node_or_edge_fails_by_a_null_access healthy_peer scenario_world "u")
    as (Hnode & Hupd & Hdel).
  split; [|split].
  - destruct (Hnode "ghost" (mkNodeUpdate None None None None (Some "text") None None)
                None eq_refl) as (w' & l & Hrun & _ & _ & Hsent).
    exists w'. split; [exact Hrun|exact Hsent].
  - destruct (Hupd "1" "0" (Some (LStr "l")) None eq_refl)
      as (w' & l & Hrun & _ & _ & Hsent).
    exists w'. split; [exact Hrun|exact Hsent].
  - destruct (Hdel "1" "0" None eq_refl) as (w' & l & Hrun & _ & _ & Hsent).
    exists w'. split; [exact Hrun|exact Hsent].
Defined.

Lemma getRecommendations_only_current_nodes_witness :
  ∃ w',
    getRecommendations sample_strategies "u" "least_similar" tt scenario_world
      = (w', inr ["1"; "0"]).
Proof.
  destruct (getRecommendations_only_current_nodes sample_strategies
              "u" "least_similar" tt scenario_world) as (w' & ids & Hrun & _).
  exists w'. rewrite Hrun. f_equal.
  apply (f_equal snd) in Hrun. vm_compute in Hrun. exact (eq_sym Hrun).
Defined.

Lemma getRecommendations_misses_inherited_method_names_witness :
  lookup_strategy sample_strategies "constructor" = None ∧
  (∃ w',
     getRecommendations sample_strategies "u" "constructor" tt scenario_world
       = (w', inr []) ∧
     last (log w') =
       Some (mkLog LError "[KGraph] Error in getRecommendations"
               (Some "(recommendations || []).filter is not a function")) ∧
     last (log w') ≠
       Some (mkLog LError "[KGraph] Error in getRecommendations"
               (Some "Invalid method: constructor. Valid methods are: least_similar, old_ones"))) ∧
  lookup_strategy sample_strategies "bogus" = None ∧
  Object_prototype "bogus" = None ∧
  (∃ w',
     getRecommendations sample_strategies "u" "bogus" tt scenario_world = (w', inr []) ∧
     last (log w') =
       Some (mkLog LError "[KGraph] Error in getRecommendations"
               (Some "Invalid method: bogus. Valid methods are: least_similar, old_ones"))) ∧
  (∃ w', getRecommendations sample_strategies "u" "old_ones" tt scenario_world
         = (w', inr [])).
Proof.
  destruct (getRecommendations_misses_inherited_method_names sample_strategies
              "u" tt scenario_world) as (_ & Hunknown & Hfail & Hinherited).
  split; [reflexivity|]. split; [exact (Hinherited eq_refl)|].
  split; [reflexivity|]. split; [reflexivity|]. split.
  - exact (Hunknown "bogus" eq_refl eq_refl).
  - apply (Hfail "old_ones" (λ _ _, throw (AxiosError (Some 500) "peer down")) eq_refl).
    intros recs H. discriminate H.
Defined.

Lemma getGraph_filters_by_conversation_witness :
  "c1" ≠ "" ∧
  ∃ ns es,
    graph_view (getGraph "u" (Some "c1") sample_world) = Some (ns, es) ∧
    ns = [sample_node] ∧
    es = [mkEdge "3" "0" "0" ["y"]].
Proof.
  split; [discriminate|].
  destruct (getGraph_filters_by_conversation sample_world "u") as (Hfilter & _ & _).
  destruct (Hfilter "c1") as (ns & es & Hview & Hns & Hes & _); [discriminate|].
  exists ns, es. split; [exact Hview|].
  assert (Hns' : ns = [sample_node]) by (rewrite Hns; vm_compute; reflexivity).
  split; [exact Hns'|]. rewrite Hes, Hns'. vm_compute. reflexivity.
Defined.

Lemma calculateCluster_scales_and_stores_witness :
  reachable scenario_world ∧
  (∀ c, layout_peer (mkRequest CalculateUmap (BodyUser "u") c) = Resolved layout_data) ∧
  ∃ w' g',
    calculateCluster layout_peer "u" None scenario_world = (w', inr layout_data) ∧
    kgraphs w' !! "u" = Some g' ∧
    (λ n, (node_id n, x n, y n)) <$> nodes g'
      = [("0", 0%float, 0%float); ("1", 100%float, (-50)%float)].
Proof.
  split; [exact scenario_world_reachable|]. split; [reflexivity|].
  destruct (calculateCluster_scales_and_stores layout_peer scenario_world "u" None
              layout_data scenario_world_reachable (λ _, eq_refl))
    as (w' & g' & Hrun & Hdoc & _ & Hnodes & _).
  exists w', g'. split; [exact Hrun|]. split; [exact Hdoc|].
  rewrite Hnodes. reflexivity.
Defined.

(** * Further properties of kGraph.js *)

(** ** getOrCreateGraphDoc *)

(** X1. getOrCreateGraphDoc always resolves.  It hands out the user's stored
    document, or stores and hands out the empty one when the user has none;
    a stored document, every other user's document, the messages and the
    request trace are left as they were, and a second call hands out the
    same document and changes nothing more. *)
Theorem getOrCreateGraphDoc_creates_once userId w :
  ∃ w1 w2,
    getOrCreateGraphDoc userId w = (w1, inr (doc_of w userId)) ∧
    getOrCreateGraphDoc userId w1 = (w2, inr (doc_of w userId)) ∧
    kgraphs w1 !! userId = Some (doc_of w userId) ∧
    (∀ g, kgraphs w !! userId = Some g → doc_of w userId = g ∧ kgraphs w1 = kgraphs w) ∧
    (kgraphs w !! userId = None → doc_of w userId = mkGraph [] []) ∧
    (∀ u, u ≠ userId → kgraphs w1 !! u = kgraphs w !! u) ∧
    kgraphs w2 = kgraphs w1 ∧
    messages w2 = messages w ∧ sent w2 = sent w.
Proof.
  destruct (getOrCreateGraphDoc_run userId w) as [l1 H1].
  set (w1 := with_log l1 (set_kgraphs (insert userId (doc_of w userId)) w)) in *.
  destruct (getOrCreateGraphDoc_run userId w1) as [l2 H2].
  assert (Hsame : doc_of w1 userId = doc_of w userId).
  { unfold doc_of at 1. simpl. rewrite lookup_insert_eq. reflexivity. }
  rewrite Hsame in H2.
  eexists _, _. split; [exact H1|]. split; [exact H2|]. simpl.
  split; [apply lookup_insert_eq|].
  split.
  { intros g Hg. unfold doc_of. rewrite Hg. simpl. split; [reflexivity|].
    apply insert_id. exact Hg. }
  split; [intros Hg; unfold doc_of; rewrite Hg; reflexivity|].
  split; [intros u Hu; apply lookup_insert_ne; done|].
  split; [apply insert_insert_eq|]. split; reflexivity.
Qed.

(** ** What a call leaves alone *)

Lemma keeps_quiet {A} (I : World → Prop) (m : M A) :
  (∀ w, I w → I (m w).1) → keeps I m (λ _, True).
Proof. intros Hm w Hw. split; [by apply Hm|done]. Qed.

Lemma frame_refl userId a w : frame userId a w w.
Proof.
  split; [done|]. exists []. split; [by rewrite app_nil_r|constructor].
Qed.

Section Frame.
Context (userId : string) (a : option string) (w0 : World).

Lemma frame_kgraphs w w' :
  (∀ u, u ≠ userId → kgraphs w' !! u = kgraphs w !! u) →
  sent w' = sent w → frame userId a w0 w → frame userId a w0 w'.
Proof.
  intros Hk Hs [Hother Hsent]. split.
  - intros u Hu. rewrite Hk by done. by apply Hother.
  - rewrite Hs. exact Hsent.
Qed.

Lemma fr_logger lv t d : keeps (frame userId a w0) (logger lv t d) (λ _, True).
Proof. apply keeps_quiet. intros [] H. exact H. Qed.

Lemma fr_fresh_oid : keeps (frame userId a w0) fresh_oid (λ _, True).
Proof. apply keeps_quiet. intros [] H. exact H. Qed.

Lemma fr_new_Date : keeps (frame userId a w0) new_Date (λ _, True).
Proof. apply keeps_quiet. intros [] H. exact H. Qed.

Lemma fr_Message_find nodeIds :
  keeps (frame userId a w0) (Message_find userId nodeIds) (λ _, True).
Proof. apply keeps_quiet. intros [] H. exact H. Qed.

Lemma fr_save_messages nodeIds :
  keeps (frame userId a w0) (save_messages userId nodeIds) (λ _, True).
Proof. apply keeps_quiet. intros [] H. exact H. Qed.

Lemma fr_save g : keeps (frame userId a w0) (save userId g) (λ _, True).
Proof.
  apply keeps_quiet. intros w. apply frame_kgraphs; [|reflexivity].
  intros u Hu. simpl. by apply lookup_insert_ne.
Qed.

Lemma fr_findOneAndUpdate f :
  keeps (frame userId a w0) (findOneAndUpdate userId f) (λ _, True).
Proof.
  apply keeps_quiet. intros w. unfold findOneAndUpdate.
  destruct (kgraphs w !! userId); [|done].
  apply frame_kgraphs; [|reflexivity].
  intros u Hu. simpl. by apply lookup_insert_ne.
Qed.

Lemma fr_updateOne f :
  keeps (frame userId a w0) (updateOne userId f) (λ _, True).
Proof.
  apply keeps_quiet. intros w. unfold updateOne.
  destruct (kgraphs w !! userId); [|done].
  apply frame_kgraphs; [|reflexivity].
  intros u Hu. simpl. by apply lookup_insert_ne.
Qed.

Lemma fr_deleteOne : keeps (frame userId a w0) (deleteOne userId) (λ _, True).
Proof.
  apply keeps_quiet. intros w. apply frame_kgraphs; [|reflexivity].
  intros u Hu. simpl. by apply lookup_delete_ne.
Qed.

Lemma fr_getOrCreateGraphDoc :
  keeps (frame userId a w0) (getOrCreateGraphDoc userId) (λ _, True).
Proof.
  apply keeps_quiet. intros w.
  destruct (getOrCreateGraphDoc_run userId w) as [l ->].
  apply frame_kgraphs; [|reflexivity].
  intros u Hu. simpl. by apply lookup_insert_ne.
Qed.

Lemma fr_push_nodes news : ∀ ns,
  keeps (frame userId a w0) (push_nodes news ns) (λ _, True).
Proof.
  induction news as [|mk rest IH]; intros ns; simpl; [by apply keeps_ret|].
  eapply keeps_bind; [apply fr_fresh_oid|]. intros _id _. apply IH.
Qed.

Lemma fr_apply_layout umapData ns :
  keeps (frame userId a w0) (apply_layout umapData ns) (λ _, True).
Proof.
  apply keeps_quiet. intros w.
  destruct (apply_layout_total umapData ns w) as (l & ns' & -> & _).
  intros H. exact H.
Qed.

Lemma fr_axios_post peer e b c :
  body_user b = userId → authorization c = headers a →
  keeps (frame userId a w0) (axios_post peer e b c) (λ _, True).
Proof.
  intros Hb Hc. apply keeps_quiet.
  intros w [Hother (rs & Hs & Hrs)]. unfold axios_post.
  assert (Hgoal : frame userId a w0
            (mkWorld (kgraphs w) (messages w) (next_oid w) (clock w)
               (sent w ++ [mkRequest e b c]) (log w))).
  { split; [exact Hother|]. exists (rs ++ [mkRequest e b c])%list. simpl.
    rewrite Hs, app_assoc. split; [reflexivity|].
    apply Forall_app. split; [exact Hrs|]. repeat constructor; assumption. }
  destruct (peer _); exact Hgoal.
Qed.

Lemma fr_embed peer e b what :
  body_user b = userId →
  keeps (frame userId a w0) (embed peer e b a what) (λ _, True).
Proof.
  intros Hb. unfold embed. apply keeps_try.
  - eapply keeps_bind; [by apply fr_axios_post|]. intros _ _. apply fr_logger.
  - intros embedErr. unfold embed_failed.
    eapply keeps_bind; [apply fr_logger|]. intros _ _. apply fr_logger.
Qed.

End Frame.

Ltac fr_step :=
  first
    [ by apply keeps_ret | apply keeps_throw | apply fr_logger
    | apply fr_embed; reflexivity | apply fr_axios_post; reflexivity
    | apply fr_new_Date | apply fr_fresh_oid | apply fr_push_nodes
    | apply fr_Message_find | apply fr_save_messages | apply fr_save
    | apply fr_findOneAndUpdate | apply fr_updateOne | apply fr_deleteOne
    | apply fr_apply_layout | apply fr_getOrCreateGraphDoc
    | apply keeps_when | apply keeps_assign_if
    | eapply keeps_bind; [|intros ? ?]
    | apply keeps_try; [|intros ?] ].

Lemma perform_frame peer c w :
  frame (call_user c) (call_auth c) w (perform peer c w).
Proof.
  assert (Hgoal : ∀ {A} u a (m : M A),
            keeps (frame u a w) m (λ _, True) → frame u a w (m w).1)
    by (intros A u a m Hm; apply (Hm w (frame_refl u a w))).
  destruct c; simpl; apply Hgoal.
  - unfold getGraph. repeat fr_step.
  - unfold createNode. apply keeps_try; [|intros ?; repeat fr_step].
    do 3 (eapply keeps_bind; [fr_step|intros ? _]); cbv zeta.
    destruct (last _); repeat fr_step.
  - unfold updateNode. apply keeps_try; [|intros ?; repeat fr_step].
    eapply keeps_bind; [fr_step|intros graph _].
    eapply keeps_bind; [repeat fr_step|intros _ _].
    eapply keeps_bind.
    { instantiate (1 := λ _, True).
      destruct (nu_labels u);
        [unfold assign; destruct (nodes_id _ _) as [[??]|]|]; repeat fr_step. }
    intros node0 _.
    do 6 (eapply keeps_bind; [fr_step|intros ? _]); cbv zeta.
    match goal with |- keeps _ (match ?n with _ => _ end) _ =>
      destruct n as [[? updatedNode]|] end; repeat fr_step.
  - unfold importNodes. repeat fr_step.
  - unfold deleteNodes. repeat fr_step.
  - unfold createEdge. apply keeps_try; [|intros ?; repeat fr_step].
    eapply keeps_bind; [fr_step|intros graph _]. cbv zeta.
    eapply keeps_bind.
    { instantiate (1 := λ _, True).
      destruct (find_edge _ _ _) as [[??]|]; repeat fr_step. }
    intros r _. repeat fr_step.
  - unfold updateEdge. apply keeps_try; [|intros ?; repeat fr_step].
    eapply keeps_bind; [fr_step|intros graph _]. cbv zeta.
    eapply keeps_bind; [repeat fr_step|intros _ _].
    destruct (find_edge _ _ _) as [[??]|]; repeat fr_step.
  - unfold deleteEdge. apply keeps_try; [|intros ?; repeat fr_step].
    eapply keeps_bind; [fr_step|intros graph _]. cbv zeta.
    eapply keeps_bind; [repeat fr_step|intros _ _].
    destruct (find_edge _ _ _) as [[??]|]; repeat fr_step.
  - unfold clearGraph. repeat fr_step.
  - unfold calculateCluster. repeat fr_step.
Qed.

Section SameMessages.
Context (w0 : World).

Lemma sm_quiet {A} (m : M A) :
  (∀ w, messages (m w).1 = messages w) → keeps (same_messages w0) m (λ _, True).
Proof.
  intros Hm. apply keeps_quiet. intros w Hw.
  unfold same_messages. rewrite Hm. exact Hw.
Qed.

Lemma sm_logger lv t d : keeps (same_messages w0) (logger lv t d) (λ _, True).
Proof. apply sm_quiet. reflexivity. Qed.

Lemma sm_fresh_oid : keeps (same_messages w0) fresh_oid (λ _, True).
Proof. apply sm_quiet. reflexivity. Qed.

Lemma sm_new_Date : keeps (same_messages w0) new_Date (λ _, True).
Proof. apply sm_quiet. reflexivity. Qed.

Lemma sm_save userId g : keeps (same_messages w0) (save userId g) (λ _, True).
Proof. apply sm_quiet. reflexivity. Qed.

Lemma sm_deleteOne userId : keeps (same_messages w0) (deleteOne userId) (λ _, True).
Proof. apply sm_quiet. reflexivity. Qed.

Lemma sm_findOneAndUpdate userId f :
  keeps (same_messages w0) (findOneAndUpdate userId f) (λ _, True).
Proof.
  apply sm_quiet. intros w. unfold findOneAndUpdate.
  destruct (kgraphs w !! userId); reflexivity.
Qed.

Lemma sm_updateOne userId f :
  keeps (same_messages w0) (updateOne userId f) (λ _, True).
Proof.
  apply sm_quiet. intros w. unfold updateOne.
  destruct (kgraphs w !! userId); reflexivity.
Qed.

Lemma sm_getOrCreateGraphDoc userId :
  keeps (same_messages w0) (getOrCreateGraphDoc userId) (λ _, True).
Proof.
  apply sm_quiet. intros w.
  destruct (getOrCreateGraphDoc_run userId w) as [l ->]. reflexivity.
Qed.

Lemma sm_push_nodes news : ∀ ns,
  keeps (same_messages w0) (push_nodes news ns) (λ _, True).
Proof.
  induction news as [|mk rest IH]; intros ns; simpl; [by apply keeps_ret|].
  eapply keeps_bind; [apply sm_fresh_oid|]. intros _id _. apply IH.
Qed.

Lemma sm_apply_layout umapData ns :
  keeps (same_messages w0) (apply_layout umapData ns) (λ _, True).
Proof.
  apply sm_quiet. intros w.
  destruct (apply_layout_total umapData ns w) as (l & ns' & -> & _). reflexivity.
Qed.

Lemma sm_axios_post peer e b c :
  keeps (same_messages w0) (axios_post peer e b c) (λ _, True).
Proof.
  apply sm_quiet. intros w. unfold axios_post. destruct (peer _); reflexivity.
Qed.

Lemma sm_embed peer e b a what :
  keeps (same_messages w0) (embed peer e b a what) (λ _, True).
Proof.
  apply sm_quiet. intros w.
  destruct (embed_run peer e b a what w) as [l ->]. reflexivity.
Qed.

End SameMessages.

Ltac sm_step :=
  first
    [ by apply keeps_ret | apply keeps_throw | apply sm_logger
    | apply sm_embed | apply sm_axios_post
    | apply sm_new_Date | apply sm_fresh_oid | apply sm_push_nodes
    | apply sm_save
    | apply sm_findOneAndUpdate | apply sm_updateOne | apply sm_deleteOne
    | apply sm_apply_layout | apply sm_getOrCreateGraphDoc
    | apply keeps_when | apply keeps_assign_if
    | eapply keeps_bind; [|intros ? ?]
    | apply keeps_try; [|intros ?] ].

(** X3. Only importNodes writes the Message collection: every other call,
    whether it resolves or throws and whatever the peer answers, leaves the
    messages exactly as they were. *)
Theorem only_importNodes_writes_messages peer c w :
  (∀ u ids a, c ≠ CallImportNodes u ids a) →
  messages (perform peer c w) = messages w.
Proof.
  intros Hc.
  assert (Hgoal : ∀ {A} (m : M A),
            keeps (same_messages w) m (λ _, True) → messages (m w).1 = messages w)
    by (intros A m Hm; apply (Hm w eq_refl)).
  destruct c; simpl; apply Hgoal.
  - unfold getGraph. repeat sm_step.
  - unfold createNode. apply keeps_try; [|intros ?; repeat sm_step].
    do 3 (eapply keeps_bind; [sm_step|intros ? _]); cbv zeta.
    destruct (last _); repeat sm_step.
  - unfold updateNode. apply keeps_try; [|intros ?; repeat sm_step].
    eapply keeps_bind; [sm_step|intros graph _].
    eapply keeps_bind; [repeat sm_step|intros _ _].
    eapply keeps_bind.
    { instantiate (1 := λ _, True).
      destruct (nu_labels u);
        [unfold assign; destruct (nodes_id _ _) as [[??]|]|]; repeat sm_step. }
    intros node0 _.
    do 6 (eapply keeps_bind; [sm_step|intros ? _]); cbv zeta.
    match goal with |- keeps _ (match ?n with _ => _ end) _ =>
      destruct n as [[? updatedNode]|] end; repeat sm_step.
  - exfalso. exact (Hc userId nodeIds authHeader eq_refl).
  - unfold deleteNodes. repeat sm_step.
  - unfold createEdge. apply keeps_try; [|intros ?; repeat sm_step].
    eapply keeps_bind; [sm_step|intros graph _]. cbv zeta.
    eapply keeps_bind.
    { instantiate (1 := λ _, True).
      destruct (find_edge _ _ _) as [[??]|]; repeat sm_step. }
    intros r _. repeat sm_step.
  - unfold updateEdge. apply keeps_try; [|intros ?; repeat sm_step].
    eapply keeps_bind; [sm_step|intros graph _]. cbv zeta.
    eapply keeps_bind; [repeat sm_step|intros _ _].
    destruct (find_edge _ _ _) as [[??]|]; repeat sm_step.
  - unfold deleteEdge. apply keeps_try; [|intros ?; repeat sm_step].
    eapply keeps_bind; [sm_step|intros graph _]. cbv zeta.
    eapply keeps_bind; [repeat sm_step|intros _ _].
    destruct (find_edge _ _ _) as [[??]|]; repeat sm_step.
  - unfold clearGraph. repeat sm_step.
  - unfold calculateCluster. repeat sm_step.
Qed.

(** X2. A call made for one user never touches another user's document:
    whatever the call, its arguments and the peer's answer, and whether it
    resolves or throws, the document stored for every other user, or its
    absence, is as before. *)
Theorem calls_leave_other_users_alone peer c w u :
  u ≠ call_user c → kgraphs (perform peer c w) !! u = kgraphs w !! u.
Proof.
  intros Hu. destruct (perform_frame peer c w) as [Hother _]. by apply Hother.
Qed.

(** X4. The trace of peer requests only grows, and every request a call
    adds names the user the call is made for and forwards the caller's
    credential: its Authorization header is the authHeader when that is a
    non-empty string and is absent otherwise.  getGraph sends nothing. *)
Theorem requests_name_the_caller_and_forward_the_credential peer c w :
  (∃ rs,
     sent (perform peer c w) = (sent w ++ rs)%list ∧
     Forall (λ r, body_user (body r) = call_user c ∧
                  authorization (config r)
                    = match call_auth c with
                      | Some (String ch rest) => Some (String ch rest)
                      | _ => None
                      end) rs) ∧
  (∀ userId conversationId, sent (getGraph userId conversationId w).1 = sent w).
Proof.
  split.
  - destruct (perform_frame peer c w) as [_ (rs & Hs & Hrs)].
    exists rs. split; [exact Hs|].
    eapply Forall_impl; [exact Hrs|]. intros r [Hb Ha]. split; [exact Hb|].
    rewrite Ha. unfold headers. destruct (call_auth c) as [[|ch rest]|]; reflexivity.
  - intros userId conversationId. unfold getGraph, try_catch, bind.
    step_doc. reflexivity.
Qed.

(** ** importNodes *)

Lemma push_nodes_closed news : ∀ ns w,
  push_nodes news ns w
  = (with_next_oid (next_oid w + length news) w,
     inr (ns ++ imap (λ j mk, mk (oid (next_oid w + j))) news)%list).
Proof.
  induction news as [|mk rest IH]; intros ns w; simpl.
  - rewrite Nat.add_0_r, app_nil_r. destruct w. reflexivity.
  - unfold bind, fresh_oid. rewrite IH. simpl.
    rewrite <- app_assoc, Nat.add_0_r. simpl. f_equal.
    + destruct w. unfold with_next_oid. simpl. f_equal. lia.
    + do 3 f_equal. apply imap_ext. intros j mk' _. simpl. do 2 f_equal. lia.
Qed.

Lemma imported_as_pushed userId nodeIds w :
  imap (λ j (mk : string → Node), mk (oid (next_oid w + j)))
    (flat_map (λ message,
       imported_node message <$>
         filter (λ node, sn_id node ∈ nodeIds) (msg_nodes message))
       (filter (λ m, message_matches userId nodeIds m = true) (messages w)))
  = imported userId nodeIds w.
Proof.
  unfold imported, requested.
  generalize (next_oid w). intros k.
  induction (filter _ (messages w)) as [|m ms IH] in k |- *; [reflexivity|].
  simpl. rewrite !imap_app, !length_fmap. f_equal.
  - rewrite !imap_fmap. apply imap_ext. reflexivity.
  - etrans; [|etrans;
      [apply (IH (k + length (filter (λ node, sn_id node ∈ nodeIds) (msg_nodes m))))|]];
      apply imap_ext; intros j mk _; simpl; do 2 f_equal; lia.
Qed.

Lemma length_requested userId nodeIds w :
  length (flat_map (λ message,
            imported_node message <$>
              filter (λ node, sn_id node ∈ nodeIds) (msg_nodes message))
            (filter (λ m, message_matches userId nodeIds m = true) (messages w)))
  = length (imported userId nodeIds w).
Proof. rewrite <- imported_as_pushed, length_imap. reflexivity. Qed.

Lemma importNodes_run peer userId nodeIds a w :
  ∃ w',
    importNodes peer userId nodeIds a w
      = (w', inr (slice_last (length (imported userId nodeIds w))
                    (nodes (doc_of w userId) ++ imported userId nodeIds w)%list)) ∧
    kgraphs w'
      = <[userId:=mkGraph (nodes (doc_of w userId) ++ imported userId nodeIds w)%list
                    (edges (doc_of w userId))]> (kgraphs w) ∧
    messages w'
      = map (λ m, if message_matches userId nodeIds m then curated nodeIds m else m)
          (messages w) ∧
    next_oid w' = next_oid w + length (imported userId nodeIds w) ∧
    sent w'
      = (sent w ++
         [mkRequest EmbedNode
            (BodyNodes userId
               ((λ n, (node_id n, content n)) <$>
                  slice_last (length (imported userId nodeIds w))
                    (nodes (doc_of w userId) ++ imported userId nodeIds w)))
            (embed_config a)])%list.
Proof.
  unfold importNodes, try_catch, bind.
  destruct (when_logger_run (bool_decide (length nodeIds = 0)) LWarn EMBED_SKIPPED None w)
    as [l1 ->].
  unfold Message_find at 1. simpl.
  match goal with |- context [when ?b (logger ?lv ?t ?d) ?w1] =>
    destruct (when_logger_run b lv t d w1) as [l2 ->] end.
  step_doc. simpl.
  match goal with |- context [when ?b (logger ?lv ?t ?d) ?w1] =>
    destruct (when_logger_run b lv t d w1) as [l3 ->] end.
  rewrite push_nodes_closed. simpl.
  rewrite imported_as_pushed, length_requested.
  unfold save_messages, save. simpl. step_embed. simpl.
  eexists. split; [reflexivity|]. simpl.
  split; [apply insert_insert_eq|]. split; [reflexivity|]. split; reflexivity.
Qed.

Lemma slice_last_app {A} (l added : list A) :
  added ≠ [] → slice_last (length added) (l ++ added) = added.
Proof.
  intros Hne. unfold slice_last.
  destruct (length added) as [|k] eqn:Hlen.
  - destruct added; [done|discriminate Hlen].
  - rewrite <- Hlen, length_app.
    replace (length l + length added - length added) with (length l) by lia.
    apply drop_app_length.
Qed.

(** X5. When importNodes finds requested scratch nodes in the user's
    messages, it resolves with exactly the nodes it adds, one per scratch
    node found and in that order: each has a fresh id, the content of the
    scratch node (its label, or the placeholder, when the content is
    empty), the label as a one-element sequence (none when empty), and the
    message and conversation of its message as provenance.  They are
    appended after the existing nodes, which, like the edges, are left as
    they were, and one embed request carries the id and content of exactly
    the added nodes. *)
Theorem importNodes_appends_the_requested_nodes peer userId nodeIds a w :
  requested userId nodeIds w ≠ [] →
  ∃ w' g',
    importNodes peer userId nodeIds a w = (w', inr (imported userId nodeIds w)) ∧
    kgraphs w' !! userId = Some g' ∧
    nodes g' = (nodes (doc_of w userId) ++ imported userId nodeIds w)%list ∧
    edges g' = edges (doc_of w userId) ∧
    length (imported userId nodeIds w) = length (requested userId nodeIds w) ∧
    (∀ j m sn, requested userId nodeIds w !! j = Some (m, sn) →
       imported userId nodeIds w !! j
       = Some (mkNode (oid (next_oid w + j))
                 (if truthy_string (sn_content sn) then sn_content sn
                  else if truthy_string (sn_label sn) then sn_label sn
                  else "새 노드")
                 (if truthy_string (sn_label sn) then [sn_label sn] else [])
                 (number_or_zero (Some (sn_x sn))) (number_or_zero (Some (sn_y sn)))
                 (Some (messageId m)) (Some (conversationId m)) None)) ∧
    sent w'
      = (sent w ++
         [mkRequest EmbedNode
            (BodyNodes userId
               ((λ n, (node_id n, content n)) <$> imported userId nodeIds w))
            (embed_config a)])%list.
Proof.
  intros Hreq.
  assert (Hne : imported userId nodeIds w ≠ []).
  { intros Himp. apply Hreq. apply (f_equal length) in Himp.
    unfold imported in Himp. rewrite length_imap in Himp.
    by apply length_zero_iff_nil. }
  destruct (importNodes_run peer userId nodeIds a w)
    as (w' & Hrun & Hk & _ & _ & Hsent).
  rewrite slice_last_app in Hrun, Hsent by exact Hne.
  eexists w', _. split; [exact Hrun|].
  split; [rewrite Hk; apply lookup_insert_eq|].
  split; [reflexivity|]. split; [reflexivity|].
  split; [unfold imported; apply length_imap|].
  split; [|exact Hsent].
  intros j m sn Hj. unfold imported. rewrite list_lookup_imap, Hj. reflexivity.
Qed.

Lemma requested_nil userId w : requested userId [] w = [].
Proof.
  unfold requested.
  induction (filter _ (messages w)) as [|m ms IH]; [reflexivity|].
  simpl. rewrite IH, app_nil_r.
  rewrite (filter_Forall_not (λ node, sn_id node ∈ [])); [reflexivity|].
  apply Forall_forall. intros sn _ Hin. by apply elem_of_nil in Hin.
Qed.

(** X6. When importNodes finds no requested scratch node, as for an empty
    id list, it does not fail: it adds nothing, leaves the nodes and edges
    of the document as they were, and yet resolves with every node of the
    document ([slice(-0)] is the whole array) and sends them all to the
    peer in its embed request. *)
Theorem importNodes_of_nothing_returns_every_node peer userId nodeIds a w :
  requested userId nodeIds w = [] →
  requested userId [] w = [] ∧
  ∃ w',
    importNodes peer userId nodeIds a w = (w', inr (nodes (doc_of w userId))) ∧
    kgraphs w' !! userId = Some (doc_of w userId) ∧
    next_oid w' = next_oid w ∧
    sent w'
      = (sent w ++
         [mkRequest EmbedNode
            (BodyNodes userId
               ((λ n, (node_id n, content n)) <$> nodes (doc_of w userId)))
            (embed_config a)])%list.
Proof.
  intros Hreq. split; [apply requested_nil|].
  assert (Himp : imported userId nodeIds w = [])
    by (unfold imported; rewrite Hreq; reflexivity).
  destruct (importNodes_run peer userId nodeIds a w)
    as (w' & Hrun & Hk & _ & Hn & Hsent).
  rewrite Himp in Hrun, Hk, Hn, Hsent. simpl in *. rewrite app_nil_r in *.
  exists w'. split; [exact Hrun|].
  split; [rewrite Hk, lookup_insert_eq; by destruct (doc_of w userId)|].
  split; [lia|exact Hsent].
Qed.

Lemma sn_id_curate nodeIds sn : sn_id (curate nodeIds sn) = sn_id sn.
Proof. unfold curate. by case_bool_decide. Qed.

Lemma message_matches_curated userId nodeIds ids m :
  message_matches userId nodeIds (curated ids m) = message_matches userId nodeIds m.
Proof.
  unfold message_matches, curated. simpl. f_equal.
  induction (msg_nodes m) as [|sn sns IH]; [reflexivity|].
  simpl. rewrite sn_id_curate, IH. reflexivity.
Qed.

(** X7. importNodes changes the Message collection in one way only: in the
    messages of the calling user, the scratch nodes whose id was requested
    are marked curated.  No message is added, dropped or reordered, no
    scratch node loses its mark or changes in any other field, and the
    messages of other users are not marked even when they hold a scratch
    node with a requested id. *)
Theorem importNodes_marks_exactly_the_requested_scratch_nodes
    peer userId nodeIds a w :
  let w' := (importNodes peer userId nodeIds a w).1 in
  length (messages w') = length (messages w) ∧
  ∀ i m, messages w !! i = Some m →
    ∃ m', messages w' !! i = Some m' ∧
      messageId m' = messageId m ∧ conversationId m' = conversationId m ∧
      user m' = user m ∧ length (msg_nodes m') = length (msg_nodes m) ∧
      ∀ j sn, msg_nodes m !! j = Some sn →
        ∃ sn', msg_nodes m' !! j = Some sn' ∧
          sn_id sn' = sn_id sn ∧ sn_content sn' = sn_content sn ∧
          sn_label sn' = sn_label sn ∧ sn_x sn' = sn_x sn ∧ sn_y sn' = sn_y sn ∧
          isCurated sn'
          = isCurated sn ||
            (bool_decide (user m = userId) && bool_decide (sn_id sn ∈ nodeIds)).
Proof.
  destruct (importNodes_run peer userId nodeIds a w) as (w' & Hrun & _ & Hm & _).
  rewrite Hrun. simpl. rewrite Hm. split; [apply length_map|].
  intros i m Hi. eexists. split; [rewrite list_lookup_fmap, Hi; reflexivity|].
  unfold message_matches.
  destruct (bool_decide (user m = userId)) eqn:Hu; simpl.
  - assert (Hc : ∀ j sn, msg_nodes m !! j = Some sn →
        ∃ sn', msg_nodes (curated nodeIds m) !! j = Some sn' ∧
          sn_id sn' = sn_id sn ∧ sn_content sn' = sn_content sn ∧
          sn_label sn' = sn_label sn ∧ sn_x sn' = sn_x sn ∧ sn_y sn' = sn_y sn ∧
          isCurated sn' = isCurated sn || bool_decide (sn_id sn ∈ nodeIds)).
    { intros j sn Hj. exists (curate nodeIds sn).
      split; [unfold curated; simpl; rewrite list_lookup_fmap, Hj; reflexivity|].
      unfold curate. destruct (bool_decide (sn_id sn ∈ nodeIds)); simpl;
        rewrite ?orb_true_r, ?orb_false_r; repeat split; reflexivity. }
    destruct (existsb _ (msg_nodes m)) eqn:Hex.
    + do 3 (split; [reflexivity|]).
      split; [unfold curated; simpl; apply length_map|exact Hc].
    + do 4 (split; [reflexivity|]). intros j sn Hj.
      exists sn. split; [exact Hj|]. do 5 (split; [reflexivity|]).
      assert (Hno : bool_decide (sn_id sn ∈ nodeIds) = false).
      { destruct (bool_decide (sn_id sn ∈ nodeIds)) eqn:Hb; [|reflexivity].
        assert (existsb (λ s, bool_decide (sn_id s ∈ nodeIds)) (msg_nodes m) = true);
          [|congruence].
        apply existsb_exists. exists sn. split; [|exact Hb].
        apply list_elem_of_In. eapply list_elem_of_lookup_2. exact Hj. }
      rewrite Hno, orb_false_r. reflexivity.
  - do 4 (split; [reflexivity|]). intros j sn Hj.
    exists sn. split; [exact Hj|]. do 5 (split; [reflexivity|]).
    rewrite orb_false_r. reflexivity.
Qed.

Lemma filter_requested_curate nodeIds (sns : list ScratchNode) :
  filter (λ node, sn_id node ∈ nodeIds) (map (curate nodeIds) sns)
  = map (curate nodeIds) (filter (λ node, sn_id node ∈ nodeIds) sns).
Proof.
  induction sns as [|sn sns IH]; [reflexivity|]. simpl.
  destruct (decide (sn_id sn ∈ nodeIds)) as [Hin|Hin].
  - rewrite !filter_cons_True by (rewrite ?sn_id_curate; exact Hin).
    simpl. rewrite IH. reflexivity.
  - rewrite !filter_cons_False by (rewrite ?sn_id_curate; exact Hin).
    exact IH.
Qed.

Lemma requested_after_curating userId nodeIds w w1 :
  messages w1
    = map (λ m, if message_matches userId nodeIds m then curated nodeIds m else m)
        (messages w) →
  requested userId nodeIds w1
  = (λ ms, (curated nodeIds ms.1, curate nodeIds ms.2)) <$> requested userId nodeIds w.
Proof.
  intros Hm. unfold requested. rewrite Hm. clear Hm.
  induction (messages w) as [|m ms IH]; [reflexivity|]. simpl.
  destruct (message_matches userId nodeIds m) eqn:Hmatch.
  - rewrite filter_cons_True by (rewrite message_matches_curated; exact Hmatch).
    rewrite (filter_cons_True _ m) by exact Hmatch.
    simpl. rewrite fmap_app, IH. f_equal.
    unfold curated at 2. simpl. rewrite filter_requested_curate.
    rewrite <- !list_fmap_compose. reflexivity.
  - rewrite !filter_cons_False by (rewrite Hmatch; discriminate). exact IH.
Qed.

(** X8. Marking a scratch node curated does not stop it from being imported
    again: a second importNodes with the same ids adds the same nodes once
    more, equal to the first copies in every field but the id, which is
    fresh.  The document then holds the old nodes followed by both
    copies. *)
Theorem importNodes_again_adds_the_nodes_again peer1 peer2 userId nodeIds a1 a2 w :
  let w1 := (importNodes peer1 userId nodeIds a1 w).1 in
  imported userId nodeIds w1
  = imap (λ j n,
            with_node_id (oid (next_oid w + length (imported userId nodeIds w) + j)) n)
      (imported userId nodeIds w) ∧
  ∃ g2,
    kgraphs (importNodes peer2 userId nodeIds a2 w1).1 !! userId = Some g2 ∧
    nodes g2
    = (nodes (doc_of w userId) ++ imported userId nodeIds w ++
       imported userId nodeIds w1)%list ∧
    edges g2 = edges (doc_of w userId).
Proof.
  destruct (importNodes_run peer1 userId nodeIds a1 w)
    as (w1 & Hrun1 & Hk1 & Hm1 & Hn1 & _).
  rewrite Hrun1. simpl.
  destruct (importNodes_run peer2 userId nodeIds a2 w1)
    as (w2 & Hrun2 & Hk2 & _).
  rewrite Hrun2. simpl. split.
  - unfold imported at 1.
    rewrite (requested_after_curating _ _ _ _ Hm1), Hn1.
    apply list_eq. intros j.
    rewrite !list_lookup_imap, list_lookup_fmap.
    unfold imported. rewrite list_lookup_imap.
    destruct (requested userId nodeIds w !! j) as [[m sn]|]; [|reflexivity].
    simpl. unfold imported_node, with_node_id, curate. simpl.
    destruct (bool_decide (sn_id sn ∈ nodeIds)); reflexivity.
  - eexists. split; [rewrite Hk2; apply lookup_insert_eq|].
    assert (Hd : doc_of w1 userId
                 = mkGraph (nodes (doc_of w userId) ++ imported userId nodeIds w)%list
                     (edges (doc_of w userId)))
      by (unfold doc_of at 1; rewrite Hk1, lookup_insert_eq; reflexivity).
    rewrite Hd. simpl.
    split; [rewrite <- app_assoc; reflexivity|reflexivity].
Qed.

(** ** createNode *)

Lemma number_or_zero_not_nan v : PrimFloat.is_nan (number_or_zero v) = false.
Proof.
  unfold number_or_zero, truthy_number. destruct v as [f|]; [|reflexivity].
  destruct (PrimFloat.eqb f 0) eqn:Hz; simpl; [reflexivity|].
  destruct (PrimFloat.is_nan f) eqn:Hn; simpl; [reflexivity|exact Hn].
Qed.

Lemma createNode_run_sent peer userId d authHeader w :
  ∃ w' n,
    createNode peer userId d authHeader w = (w', inr n) ∧
    n = mkNode (oid (next_oid w)) (default "" (nd_content d))
          (label_array (nd_label d))
          (number_or_zero (nd_x d)) (number_or_zero (nd_y d))
          (string_or_null (nd_source_message_id d))
          (string_or_null (nd_source_conversation_id d)) None ∧
    kgraphs w' = <[userId:=mkGraph (nodes (doc_of w userId) ++ [n])
                              (edges (doc_of w userId))]> (kgraphs w) ∧
    next_oid w' = S (next_oid w) ∧
    sent w' = (sent w ++
               [mkRequest EmbedNode (BodyNodes userId [(node_id n, content n)])
                  (embed_config authHeader)])%list.
Proof.
  unfold createNode, try_catch, bind. step_doc. simpl.
  unfold fresh_oid, ret. simpl. rewrite last_snoc.
  unfold logger. simpl. step_embed. simpl.
  eexists _, _. split; [reflexivity|]. split; [reflexivity|].
  simpl. split; [apply insert_insert_eq|]. split; reflexivity.
Qed.

(** X9. In every reachable world createNode resolves with a node whose id
    no node of any user's document carries yet.  The node is appended after
    the user's existing nodes, which keep their order, and the edges are
    left alone; absent content is stored as the empty string, the
    coordinates stored are never NaN, an empty provenance string is stored
    as null, and one embed request carries the new id and content. *)
Theorem createNode_appends_a_node_with_a_new_id peer userId d a w :
  reachable w →
  ∃ w' n g',
    createNode peer userId d a w = (w', inr n) ∧
    (∀ u g, kgraphs w !! u = Some g → node_id n ∉ node_id <$> nodes g) ∧
    kgraphs w' !! userId = Some g' ∧
    nodes g' = (nodes (doc_of w userId) ++ [n])%list ∧
    edges g' = edges (doc_of w userId) ∧
    (nd_content d = None → content n = "") ∧
    PrimFloat.is_nan (x n) = false ∧ PrimFloat.is_nan (y n) = false ∧
    source_message_id n ≠ Some "" ∧ source_conversation_id n ≠ Some "" ∧
    sent w'
    = (sent w ++
       [mkRequest EmbedNode (BodyNodes userId [(node_id n, content n)])
          (embed_config a)])%list.
Proof.
  intros Hw.
  destruct (createNode_run_sent peer userId d a w)
    as (w' & n & Hrun & Hn & Hk & _ & Hsent).
  exists w', n, (mkGraph (nodes (doc_of w userId) ++ [n]) (edges (doc_of w userId))).
  split; [exact Hrun|]. split.
  { intros u g Hg Hin.
    destruct (reachable_ids_fresh w Hw u g Hg) as [_ Hall].
    rewrite Forall_forall in Hall. destruct (Hall _ Hin) as (j & Hj & Heq).
    rewrite Hn in Heq. simpl in Heq. apply (inj pretty) in Heq. lia. }
  split; [rewrite Hk; apply lookup_insert_eq|].
  split; [reflexivity|]. split; [reflexivity|].
  rewrite Hn. simpl.
  split; [intros ->; reflexivity|].
  split; [apply number_or_zero_not_nan|]. split; [apply number_or_zero_not_nan|].
  split; [|split; [|rewrite Hn in Hsent; exact Hsent]].
  - unfold string_or_null. destruct (nd_source_message_id d) as [[|c s]|]; simpl; congruence.
  - unfold string_or_null.
    destruct (nd_source_conversation_id d) as [[|c s]|]; simpl; congruence.
Qed.

(** ** The edge operations and the nodes *)

Lemma touch_map id now ns :
  NoDup (node_id <$> ns) →
  touch id now ns
  = map (λ n, if bool_decide (node_id n = id) then set_updatedAt now n else n) ns.
Proof.
  intros Hnd. unfold touch, nodes_id.
  destruct (list_find (λ n, node_id n = id) ns) as [[i n]|] eqn:Hf.
  - apply list_find_Some in Hf as (Hi & Hid & _).
    apply list_eq. intros j. rewrite list_lookup_fmap.
    destruct (decide (j = i)) as [->|Hne].
    + rewrite list_lookup_insert_eq by (eapply lookup_lt_Some; exact Hi).
      rewrite Hi. simpl. rewrite bool_decide_eq_true_2 by exact Hid. reflexivity.
    + rewrite list_lookup_insert_ne by done.
      destruct (ns !! j) as [n'|] eqn:Hj; [|reflexivity]. simpl.
      rewrite bool_decide_eq_false_2; [reflexivity|].
      intros Hid'. apply Hne.
      eapply (NoDup_lookup _ j i id Hnd);
        rewrite list_lookup_fmap; [rewrite Hj|rewrite Hi]; simpl; congruence.
  - apply list_find_None in Hf. symmetry. etrans; [|apply map_id].
    apply map_ext_Forall. eapply Forall_impl; [exact Hf|].
    intros n Hn. simpl in *. rewrite bool_decide_eq_false_2 by exact Hn. reflexivity.
Qed.

Lemma touch_both src tgt now ns :
  NoDup (node_id <$> ns) →
  touch tgt now (touch src now ns) = map (stamp src tgt now) ns.
Proof.
  intros Hnd.
  rewrite (touch_map tgt) by (rewrite touch_ids; exact Hnd).
  rewrite (touch_map src) by exact Hnd.
  rewrite map_map. apply map_ext. intros n. unfold stamp.
  destruct (decide (node_id n = src)) as [Hs|Hs];
    destruct (decide (node_id n = tgt)) as [Ht|Ht].
  - rewrite (bool_decide_eq_true_2 (node_id n = src)) by exact Hs. simpl.
    rewrite (bool_decide_eq_true_2 (node_id n = tgt)) by exact Ht.
    rewrite bool_decide_eq_true_2 by tauto. reflexivity.
  - rewrite (bool_decide_eq_true_2 (node_id n = src)) by exact Hs. simpl.
    rewrite (bool_decide_eq_false_2 (node_id n = tgt)) by exact Ht.
    rewrite bool_decide_eq_true_2 by tauto. reflexivity.
  - rewrite (bool_decide_eq_false_2 (node_id n = src)) by exact Hs.
    rewrite (bool_decide_eq_true_2 (node_id n = tgt)) by exact Ht.
    rewrite bool_decide_eq_true_2 by tauto. reflexivity.
  - rewrite (bool_decide_eq_false_2 (node_id n = src)) by exact Hs.
    rewrite (bool_decide_eq_false_2 (node_id n = tgt)) by exact Ht.
    rewrite bool_decide_eq_false_2 by tauto. reflexivity.
Qed.


Lemma createEdge_new_run peer w userId src tgt label authHeader :
  find_edge (edges (doc_of w userId)) src tgt = None →
  ∃ w',
    createEdge peer userId src tgt label authHeader w
    = (w', inr (mkEdge (oid (next_oid w)) src tgt (label_array label),
                endpoint_nodes
                  (touch tgt (clock w) (touch src (clock w) (nodes (doc_of w userId))))
                  src tgt)) ∧
    kgraphs w'
    = <[userId:=mkGraph
                  (touch tgt (clock w) (touch src (clock w) (nodes (doc_of w userId))))
                  (edges (doc_of w userId) ++
                   [mkEdge (oid (next_oid w)) src tgt (label_array label)])]>
        (kgraphs w) ∧
    next_oid w' = S (next_oid w) ∧
    sent w'
    = (sent w ++
       [mkRequest EmbedEdge
          (BodyEdges userId
             [mkEdgePayload (oid (next_oid w)) src tgt (payload_label label)])
          (embed_config authHeader)])%list.
Proof.
  intros Hf.
  unfold createEdge, try_catch, bind. step_doc. rewrite Hf. simpl.
  step_embed. simpl. eexists. split; [reflexivity|]. simpl.
  split; [apply insert_insert_eq|]. split; reflexivity.
Qed.


Lemma deleteEdge_found_run peer w userId src tgt authHeader i e :
  find_edge (edges (doc_of w userId)) src tgt = Some (i, e) →
  ∃ w',
    deleteEdge peer userId src tgt authHeader w = (w', inr 1) ∧
    kgraphs w'
    = <[userId:=mkGraph
                  (touch tgt (clock w) (touch src (clock w) (nodes (doc_of w userId))))
                  (filter (λ e', edge_id e' ≠ edge_id e) (edges (doc_of w userId)))]>
        (kgraphs w) ∧
    sent w'
    = (sent w ++
       [mkRequest EmbedDelete (BodyIds userId [edge_id e])
          (embed_config authHeader)])%list.
Proof.
  intros Hf.
  unfold deleteEdge, try_catch, bind. step_doc. rewrite Hf. simpl.
  step_embed. simpl. eexists. split; [reflexivity|]. simpl.
  split; [apply insert_insert_eq|reflexivity].
Qed.



(** ** updateNode *)


(** ** deleteEdge *)

Lemma deleteEdge_missing_run peer w userId src tgt authHeader :
  find_edge (edges (doc_of w userId)) src tgt = None →
  ∃ w',
    deleteEdge peer userId src tgt authHeader w
    = (w', inl (Error ("엣지 삭제에 실패했습니다: " ++
                       "Cannot read properties of undefined (reading '_id')"))) ∧
    kgraphs w' = <[userId:=doc_of w userId]> (kgraphs w) ∧
    sent w' = sent w.
Proof.
  intros Hf.
  unfold deleteEdge, try_catch, bind. step_doc. rewrite Hf. simpl.
  eexists. split; [reflexivity|]. split; reflexivity.
Qed.

Lemma unique_pair_edge es src tgt i e e' :
  NoDup (edge_key <$> es) →
  find_edge es src tgt = Some (i, e) →
  e' ∈ es → edge_key e' = (src, tgt) → e' = e.
Proof.
  intros Hnd Hf Hin Hkey.
  apply list_find_Some in Hf as (Hi & [Hs Ht] & _).
  apply list_elem_of_lookup in Hin as [j Hj].
  assert (j = i) as ->.
  { eapply (NoDup_lookup _ j i (src, tgt) Hnd);
      rewrite list_lookup_fmap; [rewrite Hj|rewrite Hi]; simpl; [congruence|].
    unfold edge_key. rewrite Hs, Ht. reflexivity. }
  congruence.
Qed.

(** ** deleteNodes in batches *)

Lemma deleteNodes_kgraphs peer userId nodeIds a w :
  kgraphs (deleteNodes peer userId nodeIds a w).1
  = match kgraphs w !! userId with
    | Some g => <[userId:=pull_edges nodeIds (pull_nodes nodeIds g)]> (kgraphs w)
    | None => kgraphs w
    end.
Proof.
  unfold deleteNodes, try_catch, bind, when, findOneAndUpdate, updateOne, logger, ret.
  destruct w as [gs ms n c s l]. simpl.
  destruct (bool_decide (length nodeIds = 0)); simpl;
    destruct (gs !! userId) as [g|] eqn:Hg; simpl;
    rewrite ?lookup_insert_eq, ?Hg; simpl; step_embed; simpl;
    rewrite ?insert_insert_eq; reflexivity.
Qed.

Lemma pull_app ids1 ids2 g :
  pull_edges ids2 (pull_nodes ids2 (pull_edges ids1 (pull_nodes ids1 g)))
  = pull_edges (ids1 ++ ids2) (pull_nodes (ids1 ++ ids2) g).
Proof.
  unfold pull_edges, pull_nodes. simpl. f_equal.
  - rewrite list_filter_filter. apply list_filter_iff. intros n.
    rewrite elem_of_app. tauto.
  - rewrite list_filter_filter. apply list_filter_iff. intros e.
    rewrite !elem_of_app. tauto.
Qed.

(** X14. Deleting nodes in two batches leaves the KGraph collection as
    deleting them in one batch does, whatever the peer answers in between,
    and deleting the same ids again changes nothing. *)
Theorem deleteNodes_in_batches peer1 peer2 peer3 userId ids1 ids2 a1 a2 a3 w :
  kgraphs (deleteNodes peer2 userId ids2 a2 (deleteNodes peer1 userId ids1 a1 w).1).1
  = kgraphs (deleteNodes peer3 userId (ids1 ++ ids2) a3 w).1 ∧
  kgraphs (deleteNodes peer2 userId ids1 a2 (deleteNodes peer1 userId ids1 a1 w).1).1
  = kgraphs (deleteNodes peer1 userId ids1 a1 w).1.
Proof.
  assert (Htwo : ∀ ids ids' p p' b b',
    kgraphs (deleteNodes p' userId ids' b' (deleteNodes p userId ids b w).1).1
    = match kgraphs w !! userId with
      | Some g => <[userId:=pull_edges (ids ++ ids') (pull_nodes (ids ++ ids') g)]>
                    (kgraphs w)
      | None => kgraphs w
      end).
  { intros ids ids' p p' b b'. rewrite !deleteNodes_kgraphs.
    destruct (kgraphs w !! userId) as [g|] eqn:Hg.
    - rewrite lookup_insert_eq, insert_insert_eq, pull_app. reflexivity.
    - rewrite Hg. reflexivity. }
  split.
  - rewrite Htwo, deleteNodes_kgraphs. reflexivity.
  - rewrite Htwo, deleteNodes_kgraphs.
    destruct (kgraphs w !! userId) as [g|]; [|reflexivity].
    f_equal. unfold pull_edges, pull_nodes. simpl. f_equal.
    + apply list_filter_iff. intros n. rewrite elem_of_app. tauto.
    + apply list_filter_iff. intros e. rewrite !elem_of_app. tauto.
Qed.

(** X15. deleteNodes leaves no edge behind whose endpoint it removed: when
    every edge of the user's document joins two of its nodes before the
    call, the same holds after it. *)
Theorem deleteNodes_leaves_no_dangling_edge peer userId nodeIds a w g :
  kgraphs w !! userId = Some g →
  no_dangling_edge g →
  ∃ g', kgraphs (deleteNodes peer userId nodeIds a w).1 !! userId = Some g' ∧
        no_dangling_edge g'.
Proof.
  intros Hg Hclosed. rewrite deleteNodes_kgraphs, Hg.
  eexists. split; [apply lookup_insert_eq|].
  intros e He. unfold pull_edges, pull_nodes in *. simpl in *.
  apply list_elem_of_filter in He as [Hout He].
  destruct (Hclosed e He) as [Hs Ht].
  apply list_elem_of_fmap in Hs as (ns & Hns & Hs).
  apply list_elem_of_fmap in Ht as (nt & Hnt & Ht).
  split; apply list_elem_of_fmap.
  - exists ns. split; [exact Hns|]. apply list_elem_of_filter.
    split; [|exact Hs]. rewrite <- Hns. tauto.
  - exists nt. split; [exact Hnt|]. apply list_elem_of_filter.
    split; [|exact Ht]. rewrite <- Hnt. tauto.
Qed.

(** ** getGraph and clearGraph *)

Lemma doc_of_insert_doc_of w userId u l :
  doc_of (with_log l (set_kgraphs (insert userId (doc_of w userId)) w)) u = doc_of w u.
Proof.
  unfold doc_of. simpl. destruct (decide (u = userId)) as [->|Hne].
  - rewrite lookup_insert_eq. reflexivity.
  - rewrite lookup_insert_ne by done. reflexivity.
Qed.

(** X16. getGraph reads: apart from creating the empty document of a user
    who has none (and logging), it changes nothing.  Every user's document
    reads the same afterwards, the messages, the request trace, the id
    generator and the clock are untouched, the caller's document exists,
    and asking again gives the same answer. *)
Theorem getGraph_only_creates_the_missing_document userId c w :
  let w' := (getGraph userId c w).1 in
  (∀ u, doc_of w' u = doc_of w u) ∧
  kgraphs w' !! userId = Some (doc_of w userId) ∧
  messages w' = messages w ∧ sent w' = sent w ∧
  next_oid w' = next_oid w ∧ clock w' = clock w ∧
  (getGraph userId c w').2 = (getGraph userId c w).2.
Proof.
  simpl. unfold getGraph, try_catch, bind. step_doc. simpl.
  split; [intros u; apply doc_of_insert_doc_of|].
  split; [apply lookup_insert_eq|]. do 4 (split; [reflexivity|]).
  step_doc. simpl. rewrite doc_of_insert_doc_of. reflexivity.
Qed.

(** X17. clearGraph resolves with success and removes the user's document
    altogether, so a getGraph that follows returns the empty graph for
    every conversationId (and creates the empty document anew).  The
    messages are not part of the reset: they are left as they were, marks
    included.  One reset request naming the user is sent. *)
Theorem clearGraph_then_getGraph_is_empty peer userId a c w :
  ∃ w',
    clearGraph peer userId a w = (w', inr true) ∧
    kgraphs w' !! userId = None ∧
    messages w' = messages w ∧
    sent w'
    = (sent w ++ [mkRequest EmbedReset (BodyUser userId) (embed_config a)])%list ∧
    graph_view (getGraph userId c w') = Some ([], []) ∧
    kgraphs (getGraph userId c w').1 !! userId = Some (mkGraph [] []).
Proof.
  destruct (clearGraph_run peer userId a w) as [l Hrun].
  eexists. split; [exact Hrun|]. simpl.
  split; [apply lookup_delete_eq|]. split; [reflexivity|]. split; [reflexivity|].
  unfold graph_view, getGraph, try_catch, bind. step_doc.
  unfold doc_of. simpl. rewrite lookup_delete_eq. simpl.
  split; [destruct (truthy_opt_string c); reflexivity|apply lookup_insert_eq].
Qed.

(** ** getRecommendations keeps the strategy's order *)

(** X18. When the strategy of a known method resolves with a sequence,
    getRecommendations returns that sequence with the ids that are no node
    of the user's document dropped and nothing else changed: the order and
    the repetitions of the strategy's answer are kept, and every
    recommended id that is a node is returned. *)
Theorem getRecommendations_keeps_the_order_of_the_strategy {Params}
    (strategies : list (string * @Strategy Params)) userId method params w s w1 recs :
  lookup_strategy strategies method = Some s →
  s userId params (strategy_world userId w) = (w1, inr (Some recs)) →
  ∃ w' ids,
    getRecommendations strategies userId method params w = (w', inr ids) ∧
    ids = filter (λ id, id ∈ node_id <$> nodes (doc_of w1 userId)) recs ∧
    ids `sublist_of` recs ∧
    (∀ id, id ∈ ids ↔ id ∈ recs ∧ id ∈ node_id <$> nodes (doc_of w1 userId)) ∧
    sent w' = sent w1 ∧ messages w' = messages w1.
Proof.
  intros Hl Hs.
  unfold getRecommendations, try_catch, bind.
  assert (Hpre : (when (negb (truthy_string userId)) (logger LWarn EMBED_SKIPPED None);;;
                  logger LInfo "[KGraph] getRecommendations" None) w
                 = (strategy_world userId w, inr tt)).
  { unfold strategy_world, bind, when, logger, ret.
    destruct w, (negb (truthy_string userId)); reflexivity. }
  unfold bind in Hpre. rewrite (read_strategy_own _ _ _ Hl).
  unfold ret at 1.
  destruct (when (negb (truthy_string userId)) (logger LWarn EMBED_SKIPPED None) w)
    as [w0 [e|[]]] eqn:Hwhen; [discriminate Hpre|].
  rewrite Hpre, Hs. simpl. unfold ret at 1. step_doc. simpl.
  eexists _, _. split; [reflexivity|].
  assert (Hfil : filter (λ id, id ∈ (list_to_set (node_id <$> nodes (doc_of w1 userId))
                                      : gset string)) recs
                 = filter (λ id, id ∈ node_id <$> nodes (doc_of w1 userId)) recs).
  { apply list_filter_iff. intros id. apply elem_of_list_to_set. }
  rewrite Hfil. split; [reflexivity|].
  split; [apply sublist_filter|].
  split; [intros id; rewrite list_elem_of_filter; tauto|].
  split; reflexivity.
Qed.

(** ** calculateCluster and a failing peer *)

(** X19. Unlike the mutations, calculateCluster escalates a peer failure:
    when the calculate-umap request is rejected it throws an error whose
    message is the fixed prefix followed by the peer's message, after
    sending that one request and nothing else; no document is created or
    changed and the messages are untouched. *)
Theorem calculateCluster_escalates_a_peer_failure peer userId a w st msg :
  peer (mkRequest CalculateUmap (BodyUser userId) (mkConfig None (headers a)))
    = Rejected st msg →
  ∃ w',
    calculateCluster peer userId a w
    = (w', inl (Error ("UMAP 군집 계산에 실패했습니다: " ++ msg))) ∧
    kgraphs w' = kgraphs w ∧ messages w' = messages w ∧
    sent w'
    = (sent w ++
       [mkRequest CalculateUmap (BodyUser userId) (mkConfig None (headers a))])%list.
Proof.
  intros Hpeer.
  unfold calculateCluster, try_catch, bind, when, logger, axios_post, throw, ret.
  destruct w as [gs ms n c s l]. simpl.
  destruct (negb (truthy_string userId)); simpl; rewrite Hpeer; simpl;
    eexists; (split; [reflexivity|]); simpl; split_and!; reflexivity.
Qed.

(** ** Which calls add nodes *)

(** X20. Only createNode and importNodes add nodes: after any other call,
    whether it resolved or threw, the node ids of every user's document are
    node ids it had before, in their old order, so no such call invents,
    duplicates or reorders a node. *)
Theorem only_createNode_and_importNodes_add_nodes peer c w u g' :
  (∀ v d a, c ≠ CallCreateNode v d a) →
  (∀ v ids a, c ≠ CallImportNodes v ids a) →
  kgraphs (perform peer c w) !! u = Some g' →
  (node_id <$> nodes g') `sublist_of` (node_id <$> nodes (doc_of w u)).
Proof.
  intros Hcreate Himport Hg'.
  assert (Hshr : ∀ {A} (m : M A),
            keeps (shrinks w) m (λ _, True) →
            kgraphs (m w).1 !! u = Some g' →
            (node_id <$> nodes g') `sublist_of` (node_id <$> nodes (doc_of w u))).
  { intros A m Hm Hl. destruct (Hm w (shrinks_refl w)) as [[_ Hsub] _].
    apply (Hsub u g' Hl). }
  destruct c; simpl in Hg'.
  - eapply Hshr; [apply shr_getGraph|exact Hg'].
  - exfalso. exact (Hcreate userId d authHeader eq_refl).
  - eapply Hshr; [apply shr_updateNode|exact Hg'].
  - exfalso. exact (Himport userId nodeIds authHeader eq_refl).
  - eapply Hshr; [apply shr_deleteNodes|exact Hg'].
  - eapply Hshr; [apply shr_createEdge|exact Hg'].
  - eapply Hshr; [apply shr_updateEdge|exact Hg'].
  - eapply Hshr; [apply shr_deleteEdge|exact Hg'].
  - eapply Hshr; [apply shr_clearGraph|exact Hg'].
  - eapply Hshr; [apply shr_calculateCluster|exact Hg'].
Qed.

(** ** The panel's local updates agree with the store *)

Lemma getGraph_view userId c w :
  graph_view (getGraph userId c w) = Some (view_of c (doc_of w userId)).
Proof.
  unfold graph_view, getGraph, try_catch, bind, view_of. step_doc. simpl.
  destruct (truthy_opt_string c); [|reflexivity].
  do 2 f_equal. apply list_filter_iff. intros e.
  rewrite !elem_of_list_to_set. reflexivity.
Qed.

Lemma doc_of_deleteNodes peer userId nodeIds a w :
  doc_of (deleteNodes peer userId nodeIds a w).1 userId
  = pull_edges nodeIds (pull_nodes nodeIds (doc_of w userId)).
Proof.
  unfold doc_of. rewrite deleteNodes_kgraphs.
  destruct (kgraphs w !! userId) as [g|] eqn:Hg.
  - rewrite lookup_insert_eq. reflexivity.
  - rewrite Hg. reflexivity.
Qed.

Lemma elem_of_ids_filter (P : Node → Prop) `{∀ n, Decision (P n)}
    (ns : list Node) (id : string) :
  id ∈ node_id <$> filter P ns ↔ ∃ n, n ∈ ns ∧ node_id n = id ∧ P n.
Proof.
  rewrite list_elem_of_fmap. split.
  - intros (n & -> & Hn). apply list_elem_of_filter in Hn as [HP Hn]. eauto.
  - intros (n & Hn & <- & HP). exists n. split; [reflexivity|].
    apply list_elem_of_filter. done.
Qed.

(** X21. The panel's own update after deleting the selected nodes agrees
    with the store: when the panel shows what getGraph returned, for all
    conversations or for one, and the deletion it requests is carried out
    by deleteNodes, then the nodes and edges the panel keeps are exactly
    what getGraph returns afterwards. *)
Theorem panel_delete_nodes_matches_the_store
    peer userId c selectedNodeIds a w ns es :
  graph_view (getGraph userId c w) = Some (ns, es) →
  graph_view (getGraph userId c (deleteNodes peer userId selectedNodeIds a w).1)
  = Some (handleDeleteSelectedNodes_nodes selectedNodeIds ns,
          handleDeleteSelectedNodes_edges selectedNodeIds es).
Proof.
  rewrite !getGraph_view, doc_of_deleteNodes.
  unfold view_of, pull_edges, pull_nodes,
    handleDeleteSelectedNodes_nodes, handleDeleteSelectedNodes_edges.
  simpl. destruct (truthy_opt_string c); simpl;
    intros Hview; injection Hview as <- <-; f_equal.
  - f_equal; [apply filter_swap|].
    rewrite !list_filter_filter. apply list_filter_iff. intros e.
    rewrite !elem_of_ids_filter. split.
    + intros [[(n1 & H1 & Hid1 & Hc1 & _) (n2 & H2 & Hid2 & Hc2 & _)] Hout].
      split; [tauto|]. split; eauto.
    + intros [[Hs Ht] [(n1 & H1 & Hid1 & Hc1) (n2 & H2 & Hid2 & Hc2)]].
      split; [|tauto].
      split; [exists n1|exists n2]; (split; [done|]);
        (split; [done|]); (split; [done|]); congruence.
  - f_equal. apply list_filter_iff. intros e. tauto.
Qed.

(** X22. The panel's clearAll, which asks for the deletion of every node it
    shows and then shows nothing, agrees with the store when the panel
    shows one conversation, and also when it shows all conversations and no
    edge of the document dangles: getGraph then returns the empty graph.
    (An edge both of whose endpoints are no nodes would survive in the
    store.) *)
Theorem panel_clearAll_matches_the_store peer userId c a w ns es :
  graph_view (getGraph userId c w) = Some (ns, es) →
  truthy_opt_string c = true ∨ no_dangling_edge (doc_of w userId) →
  graph_view (getGraph userId c (deleteNodes peer userId (clearAll_ids ns) a w).1)
  = Some ([], []).
Proof.
  rewrite !getGraph_view, doc_of_deleteNodes.
  unfold view_of, pull_edges, pull_nodes, clearAll_ids. simpl.
  destruct (truthy_opt_string c) eqn:Hc; simpl;
    intros Hview Hmode; injection Hview as Hns _; f_equal.
  - assert (Hnone : filter (λ n, source_conversation_id n = c)
                      (filter (λ n, node_id n ∉ node_id <$> ns)
                         (nodes (doc_of w userId))) = []).
    { apply filter_Forall_not, Forall_forall. intros n Hn Hconv.
      apply list_elem_of_filter in Hn as [Hout Hn]. apply Hout.
      apply list_elem_of_fmap. exists n. split; [reflexivity|].
      rewrite <- Hns. apply list_elem_of_filter. done. }
    rewrite Hnone. simpl. f_equal.
    apply filter_Forall_not, Forall_forall. intros e _ [Hs _].
    by apply elem_of_nil in Hs.
  - destruct Hmode as [Hmode|Hclosed]; [discriminate Hmode|]. subst ns. f_equal.
    + apply filter_Forall_not, Forall_forall. intros n Hn Hout. apply Hout.
      apply list_elem_of_fmap. eauto.
    + apply filter_Forall_not, Forall_forall. intros e He Hout. apply Hout.
      left. apply (Hclosed e He).
Qed.

Lemma ids_filter_stamp c src tgt now ns :
  node_id <$> filter (λ n, source_conversation_id n = c) (map (stamp src tgt now) ns)
  = node_id <$> filter (λ n, source_conversation_id n = c) ns.
Proof.
  induction ns as [|n ns IH]; [reflexivity|]. cbn [map].
  assert (Hsame : source_conversation_id (stamp src tgt now n) = source_conversation_id n
                  ∧ node_id (stamp src tgt now n) = node_id n).
  { unfold stamp. destruct (bool_decide _); split; reflexivity. }
  destruct Hsame as [Hconv Hid].
  destruct (decide (source_conversation_id n = c)) as [Hc|Hc].
  - rewrite !filter_cons_True by congruence. rewrite !fmap_cons, Hid, IH. reflexivity.
  - rewrite !filter_cons_False by congruence. exact IH.
Qed.

(** X23. The panel's own update after deleting the selected edge agrees
    with the store: in every reachable world, when the panel shows what
    getGraph returned and the selected edge is one of the edges shown,
    deleteEdge for its pair resolves, and the edges the panel keeps are
    exactly the edges getGraph returns afterwards. *)
Theorem panel_delete_edge_matches_the_store
    peer userId c selectedEdge a w ns es :
  reachable w →
  graph_view (getGraph userId c w) = Some (ns, es) →
  selectedEdge ∈ es →
  ∃ w' ns',
    deleteEdge peer userId (source selectedEdge) (target selectedEdge) a w
    = (w', inr 1) ∧
    graph_view (getGraph userId c w')
    = Some (ns', handleDeleteSelectedEdge_edges selectedEdge es).
Proof.
  intros Hw Hview Hsel. rewrite getGraph_view in Hview.
  assert (Hin : selectedEdge ∈ edges (doc_of w userId)).
  { unfold view_of in Hview.
    destruct (truthy_opt_string c); injection Hview as _ <-; [|exact Hsel].
    apply list_elem_of_filter in Hsel as [_ Hsel]. exact Hsel. }
  assert (Hnd : NoDup (edge_key <$> edges (doc_of w userId))).
  { unfold doc_of. destruct (kgraphs w !! userId) as [g|] eqn:Hg; [|constructor].
    apply (reachable_pairs_unique w Hw userId g Hg). }
  destruct (list_find (λ e, source e = source selectedEdge ∧ target e = target selectedEdge)
              (edges (doc_of w userId))) as [[i e]|] eqn:Hf.
  2:{ apply list_find_None in Hf. rewrite Forall_forall in Hf.
      exfalso. apply (Hf selectedEdge Hin). done. }
  assert (e = selectedEdge) as ->.
  { symmetry. eapply unique_pair_edge; [exact Hnd|exact Hf|exact Hin|reflexivity]. }
  destruct (deleteEdge_found_run peer w userId _ _ a i selectedEdge Hf)
    as (w' & Hrun & Hk & _).
  assert (Hd : doc_of w' userId
    = mkGraph (map (stamp (source selectedEdge) (target selectedEdge) (clock w))
                 (nodes (doc_of w userId)))
        (filter (λ e', edge_id e' ≠ edge_id selectedEdge) (edges (doc_of w userId)))).
  { unfold doc_of at 1. rewrite Hk, lookup_insert_eq. simpl. f_equal.
    apply touch_both, (reachable_node_ids_distinct w userId Hw). }
  exists w', (view_of c (doc_of w' userId)).1. split; [exact Hrun|].
  rewrite getGraph_view, (surjective_pairing (view_of c (doc_of w' userId))) at 1.
  do 2 f_equal. rewrite Hd.
  unfold view_of, handleDeleteSelectedEdge_edges in *. simpl.
  destruct (truthy_opt_string c); injection Hview as _ <-; simpl; [|reflexivity].
  rewrite !list_filter_filter.
  apply list_filter_iff. intros e. rewrite ids_filter_stamp. tauto.
Qed.

(** ** Edge ids stay distinct *)

Lemma edges_within_refl w : edges_within w w.
Proof.
  split; [done|]. intros u g Hg. unfold doc_of. rewrite Hg. reflexivity.
Qed.

Lemma edges_within_fresh w0 w : edge_ids_fresh w0 → edges_within w0 w → edge_ids_fresh w.
Proof.
  intros H0 [Hk Hsub] u g Hg. specialize (Hsub u g Hg).
  unfold doc_of in Hsub. destruct (kgraphs w0 !! u) as [g0|] eqn:Hg0; simpl in Hsub.
  - eapply ids_ok_sublist; [exact Hsub|].
    eapply ids_ok_mono; [exact Hk|]. eapply H0, Hg0.
  - apply sublist_nil_r in Hsub. rewrite Hsub. split; constructor.
Qed.

Lemma edge_ids_insert_same es src tgt i e l :
  find_edge es src tgt = Some (i, e) →
  edge_id <$> <[i:=set_edge_label l e]> es = edge_id <$> es.
Proof.
  intros Hf. apply list_find_Some in Hf as (Hi & _ & _).
  rewrite list_fmap_insert. simpl. apply list_insert_id.
  rewrite list_lookup_fmap, Hi. reflexivity.
Qed.

Section EdgesWithin.
Context (w0 : World).

Lemma ew_quiet {A} (m : M A) :
  (∀ w, kgraphs (m w).1 = kgraphs w ∧ (next_oid w ≤ next_oid (m w).1)%nat) →
  keeps (edges_within w0) m (λ _, True).
Proof.
  intros Hm w [Hk Hsub]. destruct (Hm w) as [Hkg Hn].
  split; [|done]. split; [lia|]. rewrite Hkg. exact Hsub.
Qed.

Lemma ew_logger lv t d : keeps (edges_within w0) (logger lv t d) (λ _, True).
Proof. apply ew_quiet. intros w. split; reflexivity. Qed.

Lemma ew_fresh_oid : keeps (edges_within w0) fresh_oid (λ _, True).
Proof. apply ew_quiet. intros w. split; [reflexivity|simpl; lia]. Qed.

Lemma ew_new_Date : keeps (edges_within w0) new_Date (λ _, True).
Proof. apply ew_quiet. intros w. split; reflexivity. Qed.

Lemma ew_Message_find userId nodeIds :
  keeps (edges_within w0) (Message_find userId nodeIds) (λ _, True).
Proof. apply ew_quiet. intros w. split; reflexivity. Qed.

Lemma ew_save_messages userId nodeIds :
  keeps (edges_within w0) (save_messages userId nodeIds) (λ _, True).
Proof. apply ew_quiet. intros w. split; reflexivity. Qed.

Lemma ew_axios_post peer e b c :
  keeps (edges_within w0) (axios_post peer e b c) (λ _, True).
Proof.
  apply ew_quiet. intros w. unfold axios_post.
  destruct (peer _); split; reflexivity.
Qed.

Lemma ew_embed peer e b authHeader what :
  keeps (edges_within w0) (embed peer e b authHeader what) (λ _, True).
Proof.
  apply ew_quiet. intros w.
  destruct (embed_run peer e b authHeader what w) as [l ->]. split; reflexivity.
Qed.

Lemma ew_push_nodes news ns :
  keeps (edges_within w0) (push_nodes news ns) (λ _, True).
Proof.
  apply ew_quiet. intros w. rewrite push_nodes_closed. simpl. split; [reflexivity|lia].
Qed.

Lemma ew_apply_layout umapData ns :
  keeps (edges_within w0) (apply_layout umapData ns) (λ _, True).
Proof.
  apply ew_quiet. intros w.
  destruct (apply_layout_total umapData ns w) as (l & ns' & -> & _).
  split; reflexivity.
Qed.

Lemma ew_insert userId g w :
  (edge_id <$> edges g) `sublist_of` (edge_id <$> edges (doc_of w0 userId)) →
  edges_within w0 w → edges_within w0 (set_kgraphs (insert userId g) w).
Proof.
  intros Hg [Hk Hsub]. split; [exact Hk|]. intros u g' Hl. simpl in Hl.
  destruct (decide (u = userId)) as [->|Hne].
  - rewrite lookup_insert_eq in Hl. injection Hl as <-. exact Hg.
  - rewrite lookup_insert_ne in Hl by done. eapply Hsub, Hl.
Qed.

Lemma ew_save userId g :
  (edge_id <$> edges g) `sublist_of` (edge_id <$> edges (doc_of w0 userId)) →
  keeps (edges_within w0) (save userId g) (λ _, True).
Proof. intros Hg w Hw. split; [|done]. by apply ew_insert. Qed.

Lemma ew_getOrCreateGraphDoc userId :
  keeps (edges_within w0) (getOrCreateGraphDoc userId)
    (λ g, (edge_id <$> edges g) `sublist_of` (edge_id <$> edges (doc_of w0 userId))).
Proof.
  unfold getOrCreateGraphDoc.
  eapply keeps_bind.
  { apply keeps_when. eapply keeps_bind; [apply ew_logger|].
    intros _ _. apply ew_logger. }
  intros _ _. eapply keeps_bind with (Q := λ o, ∀ g, o = Some g →
      (edge_id <$> edges g) `sublist_of` (edge_id <$> edges (doc_of w0 userId))).
  { intros w Hw. split; [exact Hw|]. intros o [= <-] g Hg. eapply Hw, Hg. }
  intros [g|] Hg; [apply keeps_ret; by apply Hg|].
  eapply keeps_bind; [apply ew_logger|]. intros _ _.
  eapply keeps_bind; [apply ew_save; apply sublist_nil_l|]. intros _ _.
  apply keeps_ret. apply sublist_nil_l.
Qed.

Lemma ew_findOneAndUpdate userId f :
  (∀ g, (edge_id <$> edges (f g)) `sublist_of` (edge_id <$> edges g)) →
  keeps (edges_within w0) (findOneAndUpdate userId f) (λ _, True).
Proof.
  intros Hf w Hw. split; [|done]. unfold findOneAndUpdate.
  destruct (kgraphs w !! userId) as [g|] eqn:Hg; [|exact Hw].
  apply ew_insert; [|exact Hw]. etrans; [apply Hf|]. eapply Hw, Hg.
Qed.

Lemma ew_updateOne userId f :
  (∀ g, (edge_id <$> edges (f g)) `sublist_of` (edge_id <$> edges g)) →
  keeps (edges_within w0) (updateOne userId f) (λ _, True).
Proof.
  intros Hf w Hw. split; [|done]. unfold updateOne.
  destruct (kgraphs w !! userId) as [g|] eqn:Hg; [|exact Hw].
  apply ew_insert; [|exact Hw]. etrans; [apply Hf|]. eapply Hw, Hg.
Qed.

Lemma ew_deleteOne userId : keeps (edges_within w0) (deleteOne userId) (λ _, True).
Proof.
  intros w [Hk Hsub]. split; [|done]. split; [exact Hk|].
  intros u g Hl. simpl in Hl.
  apply lookup_delete_Some in Hl as [_ Hl]. eapply Hsub, Hl.
Qed.

End EdgesWithin.

Ltac ew_step :=
  first
    [ by apply keeps_ret | apply keeps_throw | apply ew_logger
    | apply ew_embed | apply ew_axios_post | apply ew_new_Date
    | apply ew_fresh_oid | apply ew_deleteOne | apply ew_Message_find
    | apply ew_save_messages | apply ew_push_nodes | apply ew_apply_layout
    | apply keeps_when | apply keeps_assign_if
    | eapply keeps_bind; [|intros ? ?]
    | apply keeps_try; [|intros ?] ].

Section EdgeKeepingOperations.
Context (w0 : World) (peer : Peer).

Lemma ew_getGraph userId c : keeps (edges_within w0) (getGraph userId c) (λ _, True).
Proof.
  unfold getGraph. apply keeps_try; [|intros ?; repeat ew_step].
  eapply keeps_bind; [apply ew_getOrCreateGraphDoc|intros graph Hg].
  by apply keeps_ret.
Qed.

Lemma ew_createNode userId d a :
  keeps (edges_within w0) (createNode peer userId d a) (λ _, True).
Proof.
  unfold createNode. apply keeps_try; [|intros ?; repeat ew_step].
  eapply keeps_bind; [apply ew_getOrCreateGraphDoc|intros graph Hg]. cbv zeta.
  eapply keeps_bind; [apply ew_push_nodes|intros ns _].
  eapply keeps_bind; [apply ew_save; exact Hg|intros _ _].
  simpl. destruct (last ns); repeat ew_step.
Qed.

Lemma ew_updateNode userId nodeId u a :
  keeps (edges_within w0) (updateNode peer userId nodeId u a) (λ _, True).
Proof.
  unfold updateNode. apply keeps_try; [|intros ?; repeat ew_step].
  eapply keeps_bind; [apply ew_getOrCreateGraphDoc|intros graph Hg].
  eapply keeps_bind; [repeat ew_step|intros _ _].
  eapply keeps_bind.
  { instantiate (1 := λ _, True).
    destruct (nu_labels u);
      [unfold assign; destruct (nodes_id _ _) as [[??]|]|]; repeat ew_step. }
  intros node0 _.
  do 5 (eapply keeps_bind; [apply keeps_assign_if|intros ? _]); cbv zeta.
  eapply keeps_bind; [apply ew_save; exact Hg|intros _ _].
  match goal with |- keeps _ (match ?n with _ => _ end) _ =>
    destruct n as [[? updatedNode]|] end; repeat ew_step.
Qed.

Lemma ew_importNodes userId nodeIds a :
  keeps (edges_within w0) (importNodes peer userId nodeIds a) (λ _, True).
Proof.
  unfold importNodes. apply keeps_try; [|intros ?; repeat ew_step].
  eapply keeps_bind; [repeat ew_step|intros _ _].
  eapply keeps_bind; [apply ew_Message_find|intros found _].
  eapply keeps_bind; [repeat ew_step|intros _ _].
  eapply keeps_bind; [apply ew_getOrCreateGraphDoc|intros graph Hg]. cbv zeta.
  eapply keeps_bind; [repeat ew_step|intros _ _].
  eapply keeps_bind; [apply ew_push_nodes|intros ns _].
  eapply keeps_bind; [apply ew_save_messages|intros _ _].
  eapply keeps_bind; [apply ew_save; exact Hg|intros _ _].
  repeat ew_step.
Qed.

Lemma ew_deleteNodes userId nodeIds a :
  keeps (edges_within w0) (deleteNodes peer userId nodeIds a) (λ _, True).
Proof.
  unfold deleteNodes.
  eapply keeps_bind; [repeat ew_step|intros _ _]. cbv zeta.
  apply keeps_try; [|intros ?; repeat ew_step].
  eapply keeps_bind; [apply ew_findOneAndUpdate; intros g; reflexivity|].
  intros updated _.
  eapply keeps_bind; [repeat ew_step|intros _ _].
  eapply keeps_bind.
  { apply ew_updateOne. intros g. simpl. apply fmap_sublist, sublist_filter. }
  intros _ _. repeat ew_step.
Qed.

Lemma ew_updateEdge userId src tgt label a :
  keeps (edges_within w0) (updateEdge peer userId src tgt label a) (λ _, True).
Proof.
  unfold updateEdge. apply keeps_try; [|intros ?; repeat ew_step].
  eapply keeps_bind; [apply ew_getOrCreateGraphDoc|intros graph Hg]. cbv zeta.
  eapply keeps_bind; [repeat ew_step|intros _ _].
  destruct (find_edge (edges graph) src tgt) as [[i e]|] eqn:Hf; [|apply keeps_throw].
  eapply keeps_bind; [apply ew_new_Date|intros now _].
  eapply keeps_bind.
  { apply ew_save. simpl. rewrite (edge_ids_insert_same _ _ _ _ _ _ Hf). exact Hg. }
  intros _ _. repeat ew_step.
Qed.

Lemma ew_deleteEdge userId src tgt a :
  keeps (edges_within w0) (deleteEdge peer userId src tgt a) (λ _, True).
Proof.
  unfold deleteEdge. apply keeps_try; [|intros ?; repeat ew_step].
  eapply keeps_bind; [apply ew_getOrCreateGraphDoc|intros graph Hg]. cbv zeta.
  eapply keeps_bind; [repeat ew_step|intros _ _].
  destruct (find_edge (edges graph) src tgt) as [[i e]|] eqn:Hf; [|apply keeps_throw].
  eapply keeps_bind; [apply ew_new_Date|intros now _].
  eapply keeps_bind.
  { apply ew_save. simpl. etrans; [|exact Hg]. apply fmap_sublist, sublist_filter. }
  intros _ _. repeat ew_step.
Qed.

Lemma ew_clearGraph userId a :
  keeps (edges_within w0) (clearGraph peer userId a) (λ _, True).
Proof. unfold clearGraph. repeat ew_step. Qed.

Lemma ew_calculateCluster userId a :
  keeps (edges_within w0) (calculateCluster peer userId a) (λ _, True).
Proof.
  unfold calculateCluster. apply keeps_try; [|intros ?; repeat ew_step].
  eapply keeps_bind; [repeat ew_step|intros _ _].
  eapply keeps_bind; [apply ew_logger|intros _ _].
  eapply keeps_bind; [apply ew_axios_post|intros umapData _].
  eapply keeps_bind; [apply ew_getOrCreateGraphDoc|intros graph Hg].
  eapply keeps_bind; [apply ew_apply_layout|intros ns _].
  eapply keeps_bind; [apply ew_save; exact Hg|intros _ _].
  repeat ew_step.
Qed.

Lemma ew_getRecommendations {Params} (strategies : list (string * @Strategy Params))
    userId method params :
  read_only strategies →
  keeps (edges_within w0) (getRecommendations strategies userId method params) (λ _, True).
Proof.
  intros Hro. unfold getRecommendations.
  apply keeps_try; [|intros ?; repeat ew_step].
  eapply keeps_bind; [repeat ew_step|intros _ _].
  eapply keeps_bind
    with (Q := λ p, match p with inl s => (method, s) ∈ strategies | inr _ => True end).
  { unfold read_strategy.
    destruct (lookup_strategy strategies method) as [s|] eqn:Hl;
      [apply keeps_ret; by apply lookup_strategy_elem|].
    destruct (Object_prototype method); [by apply keeps_ret|apply keeps_throw]. }
  intros strategy Hs.
  eapply keeps_bind; [apply ew_logger|intros _ _].
  eapply keeps_bind with (Q := λ _, True).
  { destruct strategy as [s|[truthy|message]];
      [|by apply keeps_ret|apply keeps_throw].
    eapply keeps_bind;
      [apply ew_quiet; intros w; eapply (Hro _ _ _ _ w), Hs|intros r _; by apply keeps_ret]. }
  intros recs _.
  eapply keeps_bind; [apply ew_getOrCreateGraphDoc|intros graph _]. cbv zeta.
  eapply keeps_bind with (Q := λ _, True).
  { destruct recs as [ids| |[|]]; first [by apply keeps_ret | apply keeps_throw]. }
  intros filtered _.
  eapply keeps_bind; [|intros _ _; by apply keeps_ret].
  destruct recs; first [apply ew_logger | apply keeps_throw].
Qed.

End EdgeKeepingOperations.

Lemma edge_ids_fresh_doc_of w userId :
  edge_ids_fresh w → ids_ok (next_oid w) (edge_id <$> edges (doc_of w userId)).
Proof.
  intros Hw. unfold doc_of.
  destruct (kgraphs w !! userId) as [g|] eqn:Hg; [eapply Hw, Hg|].
  split; constructor.
Qed.

Lemma edge_ids_fresh_grow w w' userId g' :
  edge_ids_fresh w →
  (next_oid w ≤ next_oid w')%nat →
  kgraphs w' = <[userId:=g']> (kgraphs w) →
  ids_ok (next_oid w') (edge_id <$> edges g') →
  edge_ids_fresh w'.
Proof.
  intros Hw Hk Hkg Hg' u g Hl. rewrite Hkg in Hl.
  destruct (decide (u = userId)) as [->|Hne].
  - rewrite lookup_insert_eq in Hl. injection Hl as <-. exact Hg'.
  - rewrite lookup_insert_ne in Hl by done.
    eapply ids_ok_mono; [exact Hk|]. eapply Hw, Hl.
Qed.

Lemma createEdge_edge_ids_fresh peer userId src tgt label a w :
  edge_ids_fresh w → edge_ids_fresh (createEdge peer userId src tgt label a w).1.
Proof.
  intros Hw.
  pose proof (edge_ids_fresh_doc_of w userId Hw) as Hdoc.
  destruct (find_edge (edges (doc_of w userId)) src tgt) as [[i e]|] eqn:Hf.
  - assert (Hg : kgraphs w !! userId = Some (doc_of w userId)).
    { unfold doc_of in *. destruct (kgraphs w !! userId); [reflexivity|].
      discriminate Hf. }
    destruct (createEdge_existing_run peer w userId src tgt label a _ i e Hg Hf)
      as [l ->].
    eapply (edge_ids_fresh_grow w _ userId); [exact Hw|simpl; lia|reflexivity|].
    simpl. rewrite (edge_ids_insert_same _ _ _ _ _ _ Hf). exact Hdoc.
  - destruct (createEdge_new_run peer w userId src tgt label a Hf)
      as (w' & -> & Hk & Hn & _).
    eapply (edge_ids_fresh_grow w _ userId); [exact Hw|simpl; lia|exact Hk|].
    simpl. rewrite Hn, fmap_app. simpl. by apply ids_ok_snoc.
Qed.

Lemma perform_edge_ids_fresh peer c w :
  edge_ids_fresh w → edge_ids_fresh (perform peer c w).
Proof.
  intros Hw.
  assert (Hew : ∀ {A} (m : M A),
            keeps (edges_within w) m (λ _, True) → edge_ids_fresh (m w).1).
  { intros A m Hm. eapply edges_within_fresh; [exact Hw|].
    apply (Hm w (edges_within_refl w)). }
  destruct c; simpl.
  - apply Hew, ew_getGraph.
  - apply Hew, ew_createNode.
  - apply Hew, ew_updateNode.
  - apply Hew, ew_importNodes.
  - apply Hew, ew_deleteNodes.
  - by apply createEdge_edge_ids_fresh.
  - apply Hew, ew_updateEdge.
  - apply Hew, ew_deleteEdge.
  - apply Hew, ew_clearGraph.
  - apply Hew, ew_calculateCluster.
Qed.

Lemma reachable_edge_ids_fresh w : reachable w → edge_ids_fresh w.
Proof.
  induction 1 as [w Hempty|peer c w _ IH|Params strategies u m p w Hro _ IH].
  - intros u g Hg. rewrite Hempty, lookup_empty in Hg. discriminate Hg.
  - by apply perform_edge_ids_fresh.
  - eapply edges_within_fresh; [exact IH|].
    apply (ew_getRecommendations w strategies u m p Hro w (edges_within_refl w)).
Qed.

(** ** deleteEdge on reachable worlds *)

Lemma filter_Forall_all {A} (P : A → Prop) `{∀ x, Decision (P x)} (l : list A) :
  Forall P l → filter P l = l.
Proof.
  induction 1 as [|x l Hx _ IH]; [reflexivity|].
  rewrite filter_cons_True by exact Hx. f_equal. exact IH.
Qed.

Lemma filter_other_ids_delete (es : list Edge) i e :
  NoDup (edge_id <$> es) → es !! i = Some e →
  filter (λ e', edge_id e' ≠ edge_id e) es = delete i es.
Proof.
  revert i. induction es as [|x es IH]; intros i Hnd Hi; [discriminate Hi|].
  rewrite fmap_cons in Hnd. apply NoDup_cons in Hnd as [Hx Hnd].
  destruct i as [|i]; simpl in Hi.
  - injection Hi as ->. rewrite filter_cons_False by (intros H; by apply H).
    simpl. apply filter_Forall_all, Forall_forall. intros y Hy Heq.
    apply Hx. rewrite <- Heq. apply list_elem_of_fmap. eauto.
  - assert (Hne : edge_id x ≠ edge_id e).
    { intros Heq. apply Hx. rewrite Heq. apply list_elem_of_fmap.
      exists e. split; [reflexivity|]. eapply list_elem_of_lookup_2, Hi. }
    rewrite filter_cons_True by exact Hne. simpl. f_equal. by apply IH.
Qed.

(** X13. In every reachable world, deleteEdge for a pair that has an edge
    resolves with the count 1 and removes that edge and no other: the
    stored edges are the old ones without the edge found, in their order,
    one fewer than before; afterwards no edge of the document joins the
    pair, and the embed request names the id of the removed edge.
    Deleting the same pair once more fails with the wrapped error and
    leaves the documents as they are. *)
Theorem deleteEdge_removes_the_edge_of_the_pair
    peer peer' userId src tgt a a' w i e :
  reachable w →
  find_edge (edges (doc_of w userId)) src tgt = Some (i, e) →
  ∃ w' g',
    deleteEdge peer userId src tgt a w = (w', inr 1) ∧
    kgraphs w' !! userId = Some g' ∧
    edges g' = delete i (edges (doc_of w userId)) ∧
    S (length (edges g')) = length (edges (doc_of w userId)) ∧
    (∀ e', e' ∈ edges g' → edge_key e' ≠ (src, tgt)) ∧
    sent w'
    = (sent w ++ [mkRequest EmbedDelete (BodyIds userId [edge_id e]) (embed_config a)])%list ∧
    ∃ w'' msg,
      deleteEdge peer' userId src tgt a' w' = (w'', inl (Error msg)) ∧
      kgraphs w'' = kgraphs w' ∧ sent w'' = sent w'.
Proof.
  intros Hw Hf.
  assert (Hnd : NoDup (edge_key <$> edges (doc_of w userId))).
  { unfold doc_of. destruct (kgraphs w !! userId) as [g|] eqn:Hg; [|constructor].
    apply (reachable_pairs_unique w Hw userId g Hg). }
  destruct (deleteEdge_found_run peer w userId src tgt a i e Hf)
    as (w' & Hrun & Hk & Hsent).
  assert (Hgone : ∀ e',
    e' ∈ filter (λ e', edge_id e' ≠ edge_id e) (edges (doc_of w userId)) →
    edge_key e' ≠ (src, tgt)).
  { intros e' Hin Hkey. apply list_elem_of_filter in Hin as [Hne Hin].
    apply Hne. f_equal. eapply unique_pair_edge; eauto. }
  assert (Hi : edges (doc_of w userId) !! i = Some e)
    by (apply list_find_Some in Hf as (Hi & _); exact Hi).
  assert (Hdel : filter (λ e', edge_id e' ≠ edge_id e) (edges (doc_of w userId))
                 = delete i (edges (doc_of w userId))).
  { apply filter_other_ids_delete; [|exact Hi].
    apply (edge_ids_fresh_doc_of w userId (reachable_edge_ids_fresh w Hw)). }
  eexists w', _. split; [exact Hrun|].
  split; [rewrite Hk; apply lookup_insert_eq|]. simpl.
  split; [exact Hdel|].
  split; [rewrite Hdel, length_delete by (rewrite Hi; done);
          apply lookup_lt_Some in Hi; lia|].
  split; [exact Hgone|]. split; [exact Hsent|].
  assert (Hd : doc_of w' userId
    = mkGraph (touch tgt (clock w) (touch src (clock w) (nodes (doc_of w userId))))
        (filter (λ e', edge_id e' ≠ edge_id e) (edges (doc_of w userId))))
    by (unfold doc_of at 1; rewrite Hk, lookup_insert_eq; reflexivity).
  destruct (deleteEdge_missing_run peer' w' userId src tgt a') as (w'' & Hrun' & Hk' & Hs').
  { rewrite Hd. simpl. unfold find_edge. apply list_find_None.
    apply Forall_forall. intros e' Hin [Hs Ht].
    apply (Hgone e' Hin). unfold edge_key. congruence. }
  eexists w'', _. split; [exact Hrun'|]. split; [|exact Hs'].
  rewrite Hk', Hd, Hk. apply insert_insert_eq.
Qed.

(** ** Which calls add edges, and the ids of a document *)

(** X24. Only createEdge adds edges: after any other call, whether it
    resolved or threw, the edge ids of every user's document are edge ids
    it had before, in their old order. *)
Theorem only_createEdge_adds_edges peer c w u g' :
  (∀ v src tgt label a, c ≠ CallCreateEdge v src tgt label a) →
  kgraphs (perform peer c w) !! u = Some g' →
  (edge_id <$> edges g') `sublist_of` (edge_id <$> edges (doc_of w u)).
Proof.
  intros Hcreate Hg'.
  assert (Hew : ∀ {A} (m : M A),
            keeps (edges_within w) m (λ _, True) →
            kgraphs (m w).1 !! u = Some g' →
            (edge_id <$> edges g') `sublist_of` (edge_id <$> edges (doc_of w u))).
  { intros A m Hm Hl. destruct (Hm w (edges_within_refl w)) as [[_ Hsub] _].
    apply (Hsub u g' Hl). }
  destruct c; simpl in Hg'.
  - eapply Hew; [apply ew_getGraph|exact Hg'].
  - eapply Hew; [apply ew_createNode|exact Hg'].
  - eapply Hew; [apply ew_updateNode|exact Hg'].
  - eapply Hew; [apply ew_importNodes|exact Hg'].
  - eapply Hew; [apply ew_deleteNodes|exact Hg'].
  - exfalso. exact (Hcreate userId src tgt label authHeader eq_refl).
  - eapply Hew; [apply ew_updateEdge|exact Hg'].
  - eapply Hew; [apply ew_deleteEdge|exact Hg'].
  - eapply Hew; [apply ew_clearGraph|exact Hg'].
  - eapply Hew; [apply ew_calculateCluster|exact Hg'].
Qed.

(** X25. In every reachable world the node ids of a document are pairwise
    distinct, and so are its edge ids; every one of them was handed out by
    the id generator, so the id the generator hands out next is the id of
    no node and of no edge of any document. *)
Theorem ids_are_distinct_in_reachable_worlds w u g :
  reachable w →
  kgraphs w !! u = Some g →
  NoDup (node_id <$> nodes g) ∧ NoDup (edge_id <$> edges g) ∧
  (oid (next_oid w) ∉ node_id <$> nodes g) ∧
  (oid (next_oid w) ∉ edge_id <$> edges g).
Proof.
  intros Hw Hg.
  destruct (reachable_ids_fresh w Hw u g Hg) as [Hn Hnall].
  destruct (reachable_edge_ids_fresh w Hw u g Hg) as [He Heall].
  split; [exact Hn|]. split; [exact He|].
  rewrite Forall_forall in Hnall, Heall.
  split; intros Hin.
  - destruct (Hnall _ Hin) as (j & Hj & Heq). apply (inj pretty) in Heq. lia.
  - destruct (Heall _ Hin) as (j & Hj & Heq). apply (inj pretty) in Heq. lia.
Qed.

(** ** Repeating and undoing *)

Lemma mergeLabels_absorbs existing labelArr :
  (∀ l, l ∈ labelArr → l ∈ existing) → mergeLabels existing labelArr = existing.
Proof.
  unfold mergeLabels. induction labelArr as [|l ls IH]; intros Hall; [reflexivity|].
  simpl. rewrite bool_decide_eq_true_2 by (apply Hall; left).
  apply IH. intros l' Hl'. apply Hall. by right.
Qed.

Lemma find_edge_snoc es src tgt e :
  find_edge es src tgt = None → source e = src → target e = tgt →
  find_edge (es ++ [e]) src tgt = Some (length es, e).
Proof.
  intros Hf Hs Ht. unfold find_edge in *. apply list_find_Some. split; [|split].
  - by apply list_lookup_middle.
  - done.
  - intros j e' Hj Hlt. apply list_find_None in Hf.
    rewrite lookup_app_l in Hj by exact Hlt.
    eapply Forall_lookup_1 in Hf; [|exact Hj]. exact Hf.
Qed.

Lemma createEdge_edges peer w userId src tgt label a :
  ∃ i e g1,
    kgraphs (createEdge peer userId src tgt label a w).1 !! userId = Some g1 ∧
    find_edge (edges g1) src tgt = Some (i, e) ∧
    ∀ l, l ∈ label_array label → l ∈ edge_label e.
Proof.
  destruct (find_edge (edges (doc_of w userId)) src tgt) as [[i e]|] eqn:Hf.
  - assert (Hg : kgraphs w !! userId = Some (doc_of w userId)).
    { unfold doc_of in *. destruct (kgraphs w !! userId); [reflexivity|].
      discriminate Hf. }
    destruct (createEdge_existing_run peer w userId src tgt label a _ i e Hg Hf)
      as [l ->].
    eexists i, _, _. split; [apply lookup_insert_eq|]. simpl. split.
    + unfold find_edge in *. eapply list_find_insert_same; [exact Hf|].
      apply list_find_Some in Hf as (_ & Hp & _). exact Hp.
    + intros lb Hlb. simpl. apply elem_of_mergeLabels. by right.
  - destruct (createEdge_new_run peer w userId src tgt label a Hf)
      as (w' & -> & Hk & _).
    eexists _, _, _. split; [simpl; rewrite Hk; apply lookup_insert_eq|]. simpl. split.
    + by apply find_edge_snoc.
    + intros lb Hlb. exact Hlb.
Qed.

(** X26. createEdge is idempotent on the edges: repeating the same call
    (same pair, same label argument) adds no edge and no label, whatever
    the peer answers either time; the edge sequence of the document after
    the second call is the one after the first. *)
Theorem createEdge_again_changes_no_edge peer1 peer2 userId src tgt label a1 a2 w :
  let w1 := (createEdge peer1 userId src tgt label a1 w).1 in
  let w2 := (createEdge peer2 userId src tgt label a2 w1).1 in
  edges (doc_of w2 userId) = edges (doc_of w1 userId).
Proof.
  simpl.
  destruct (createEdge_edges peer1 w userId src tgt label a1)
    as (i & e & g1 & Hg & Hf & Hall).
  set (w1 := (createEdge peer1 userId src tgt label a1 w).1) in *.
  destruct (createEdge_existing_run peer2 w1 userId src tgt label a2 g1 i e Hg Hf)
    as [l ->].
  unfold doc_of. simpl. rewrite lookup_insert_eq, Hg. simpl.
  rewrite (mergeLabels_absorbs _ _ Hall).
  apply list_insert_id. apply list_find_Some in Hf as (Hi & _).
  rewrite Hi. by destruct e.
Qed.

(** X27. Deleting the node createNode has just created undoes the creation:
    in every reachable world in which no edge of the user's document
    dangles, createNode followed by deleteNodes of the new id leaves every
    user's document reading exactly as it did.  The collection is the old
    one when the user had a document; a user who had none is left with the
    empty document that createNode created. *)
Theorem deleteNodes_undoes_createNode peer1 peer2 userId d a1 a2 w :
  reachable w →
  no_dangling_edge (doc_of w userId) →
  ∃ w1 n,
    createNode peer1 userId d a1 w = (w1, inr n) ∧
    kgraphs (deleteNodes peer2 userId [node_id n] a2 w1).1
    = <[userId:=doc_of w userId]> (kgraphs w) ∧
    (∀ u, doc_of (deleteNodes peer2 userId [node_id n] a2 w1).1 u = doc_of w u) ∧
    (is_Some (kgraphs w !! userId) →
     kgraphs (deleteNodes peer2 userId [node_id n] a2 w1).1 = kgraphs w) ∧
    (kgraphs w !! userId = None →
     kgraphs (deleteNodes peer2 userId [node_id n] a2 w1).1 !! userId
     = Some (mkGraph [] [])).
Proof.
  intros Hw Hclosed.
  destruct (createNode_run_sent peer1 userId d a1 w)
    as (w1 & n & Hrun & Hn & Hk & _).
  assert (Hid : node_id n = oid (next_oid w)) by (rewrite Hn; reflexivity).
  assert (Hnew : node_id n ∉ node_id <$> nodes (doc_of w userId)).
  { intros Hin.
    destruct (ids_fresh_doc_of w userId (reachable_ids_fresh w Hw)) as [_ Hall].
    rewrite Forall_forall in Hall. destruct (Hall _ Hin) as (j & Hj & Heq).
    rewrite Hid in Heq. apply (inj pretty) in Heq. lia. }
  assert (Hafter : kgraphs (deleteNodes peer2 userId [node_id n] a2 w1).1
                   = <[userId:=doc_of w userId]> (kgraphs w)).
  { rewrite deleteNodes_kgraphs, Hk, lookup_insert_eq, insert_insert_eq.
    unfold pull_edges, pull_nodes. simpl.
    rewrite filter_app, filter_cons_False, filter_nil, app_nil_r
      by (intros Hout; apply Hout; left).
    rewrite !filter_Forall_all.
    - by destruct (doc_of w userId).
    - apply Forall_forall. intros e He [Hs|Ht].
      + apply list_elem_of_singleton in Hs. apply Hnew. rewrite <- Hs.
        apply (Hclosed e He).
      + apply list_elem_of_singleton in Ht. apply Hnew. rewrite <- Ht.
        apply (Hclosed e He).
    - apply Forall_forall. intros m Hm Hin.
      apply list_elem_of_singleton in Hin. apply Hnew. rewrite <- Hin.
      apply list_elem_of_fmap. eauto. }
  exists w1, n. split; [exact Hrun|]. split; [exact Hafter|].
  split; [|split].
  - intros u. unfold doc_of at 1. rewrite Hafter.
    destruct (decide (u = userId)) as [->|Hne].
    + rewrite lookup_insert_eq. reflexivity.
    + rewrite lookup_insert_ne by done. reflexivity.
  - intros [g Hg]. rewrite Hafter. apply insert_id.
    unfold doc_of. rewrite Hg. reflexivity.
  - intros Hnone. rewrite Hafter, lookup_insert_eq.
    unfold doc_of. rewrite Hnone. reflexivity.
Qed.

(** X28. Deleting the edge createEdge has just created undoes the creation
    as far as the edges go: in every reachable world, for a pair without an
    edge, createEdge followed by deleteEdge of the pair resolves and leaves
    the edge sequence of the user's document exactly as it was. *)
Theorem deleteEdge_undoes_createEdge peer1 peer2 userId src tgt label a1 a2 w :
  reachable w →
  find_edge (edges (doc_of w userId)) src tgt = None →
  ∃ w1 r w2 g2,
    createEdge peer1 userId src tgt label a1 w = (w1, inr r) ∧
    deleteEdge peer2 userId src tgt a2 w1 = (w2, inr 1) ∧
    kgraphs w2 !! userId = Some g2 ∧
    edges g2 = edges (doc_of w userId).
Proof.
  intros Hw Hf.
  destruct (createEdge_new_run peer1 w userId src tgt label a1 Hf)
    as (w1 & Hrun1 & Hk1 & _).
  set (e := mkEdge (oid (next_oid w)) src tgt (label_array label)) in *.
  assert (Hd1 : edges (doc_of w1 userId) = (edges (doc_of w userId) ++ [e])%list)
    by (unfold doc_of at 1; rewrite Hk1, lookup_insert_eq; reflexivity).
  assert (Hf1 : find_edge (edges (doc_of w1 userId)) src tgt
                = Some (length (edges (doc_of w userId)), e))
    by (rewrite Hd1; by apply find_edge_snoc).
  destruct (deleteEdge_found_run peer2 w1 userId src tgt a2 _ e Hf1)
    as (w2 & Hrun2 & Hk2 & _).
  eexists w1, _, w2, _. split; [exact Hrun1|]. split; [exact Hrun2|].
  split; [rewrite Hk2; apply lookup_insert_eq|]. simpl.
  rewrite Hd1, filter_app, filter_cons_False, filter_nil, app_nil_r
    by (intros Hout; by apply Hout).
  apply filter_Forall_all, Forall_forall. intros e' He' Heq.
  destruct (edge_ids_fresh_doc_of w userId (reachable_edge_ids_fresh w Hw)) as [_ Hall].
  rewrite Forall_forall in Hall.
  destruct (Hall (edge_id e')) as (j & Hj & Hoid).
  { apply list_elem_of_fmap. eauto. }
  rewrite Heq in Hoid. simpl in Hoid. apply (inj pretty) in Hoid. lia.
Qed.

(** ** updateEdge and the peer *)


(** * Further scenarios *)

Lemma scratch_world_reachable : reachable scratch_world.
Proof. apply reachable_start. reflexivity. Qed.

Lemma scenario_doc_no_dangling : no_dangling_edge scenario_doc.
Proof.
  intros e He. apply list_elem_of_singleton in He. subst e.
  split; simpl; rewrite !elem_of_cons; tauto.
Qed.

Lemma scenario_world_doc_of : doc_of scenario_world "u" = scenario_doc.
Proof. unfold doc_of. rewrite scenario_world_doc. reflexivity. Qed.

Lemma calls_leave_other_users_alone_witness :
  "u" ≠ call_user (CallCreateNode "v" (idea "theirs") None) ∧
  kgraphs (perform failing_peer (CallCreateNode "v" (idea "theirs") None) scenario_world)
    !! "u" = Some scenario_doc.
Proof.
  split; [discriminate|].
  etrans; [|exact scenario_world_doc].
  apply (calls_leave_other_users_alone failing_peer
           (CallCreateNode "v" (idea "theirs") None) scenario_world "u").
  discriminate.
Defined.

Lemma only_importNodes_writes_messages_witness :
  (∀ u ids a, CallClearGraph "u" None ≠ CallImportNodes u ids a) ∧
  messages (perform healthy_peer (CallClearGraph "u" None) scratch_world)
  = messages scratch_world.
Proof.
  split; [intros; discriminate|].
  apply (only_importNodes_writes_messages healthy_peer (CallClearGraph "u" None)
           scratch_world).
  intros; discriminate.
Defined.

Lemma importNodes_appends_the_requested_nodes_witness :
  requested "u" ["s1"; "s2"] scratch_world ≠ [] ∧
  ∃ w',
    importNodes healthy_peer "u" ["s1"; "s2"] None scratch_world
    = (w', inr [mkNode "0" "first thought" ["topic"] 1 2 (Some "m1") (Some "c1") None;
                mkNode "1" "새 노드" [] 0 0 (Some "m1") (Some "c1") None]).
Proof.
  assert (Hreq : requested "u" ["s1"; "s2"] scratch_world ≠ [])
    by (vm_compute; discriminate).
  split; [exact Hreq|].
  destruct (importNodes_appends_the_requested_nodes healthy_peer "u" ["s1"; "s2"] None
              scratch_world Hreq) as (w' & g' & Hrun & _).
  exists w'. rewrite Hrun. do 2 f_equal.
Defined.

Lemma importNodes_of_nothing_returns_every_node_witness :
  requested "u" ["s1"] scenario_world = [] ∧
  ∃ w',
    importNodes healthy_peer "u" ["s1"] None scenario_world
    = (w', inr (nodes scenario_doc)).
Proof.
  split; [reflexivity|].
  destruct (importNodes_of_nothing_returns_every_node healthy_peer "u" ["s1"] None
              scenario_world eq_refl) as (_ & w' & Hrun & _).
  exists w'. rewrite Hrun, scenario_world_doc_of. reflexivity.
Defined.

Lemma createNode_appends_a_node_with_a_new_id_witness :
  reachable scenario_world ∧
  ∃ w' n g',
    createNode healthy_peer "u" (idea "idea3") None scenario_world = (w', inr n) ∧
    kgraphs w' !! "u" = Some g' ∧
    nodes g' = (nodes scenario_doc ++ [n])%list ∧
    node_id n ∉ node_id <$> nodes scenario_doc.
Proof.
  split; [exact scenario_world_reachable|].
  destruct (createNode_appends_a_node_with_a_new_id healthy_peer "u" (idea "idea3") None
              scenario_world scenario_world_reachable)
    as (w' & n & g' & Hrun & Hnew & Hg' & Hnodes & _).
  exists w', n, g'. split; [exact Hrun|]. split; [exact Hg'|].
  split; [rewrite Hnodes, scenario_world_doc_of; reflexivity|].
  apply (Hnew "u" scenario_doc scenario_world_doc).
Defined.




Lemma deleteEdge_removes_the_edge_of_the_pair_witness :
  reachable scenario_world ∧
  find_edge (edges (doc_of scenario_world "u")) "0" "1" = Some (0, scenario_edge) ∧
  ∃ w' g',
    deleteEdge healthy_peer "u" "0" "1" None scenario_world = (w', inr 1) ∧
    kgraphs w' !! "u" = Some g' ∧
    edges g' = [].
Proof.
  assert (Hf : find_edge (edges (doc_of scenario_world "u")) "0" "1"
               = Some (0, scenario_edge)) by (vm_compute; reflexivity).
  split; [exact scenario_world_reachable|]. split; [exact Hf|].
  destruct (deleteEdge_removes_the_edge_of_the_pair healthy_peer failing_peer
              "u" "0" "1" None None scenario_world 0 scenario_edge
              scenario_world_reachable Hf)
    as (w' & g' & Hrun & Hg' & Hedges & _).
  exists w', g'. split; [exact Hrun|]. split; [exact Hg'|].
  rewrite Hedges, scenario_world_doc_of. reflexivity.
Defined.

Lemma deleteNodes_leaves_no_dangling_edge_witness :
  kgraphs scenario_world !! "u" = Some scenario_doc ∧
  no_dangling_edge scenario_doc ∧
  ∃ g',
    kgraphs (deleteNodes failing_peer "u" ["0"] None scenario_world).1 !! "u" = Some g' ∧
    no_dangling_edge g'.
Proof.
  split; [exact scenario_world_doc|]. split; [exact scenario_doc_no_dangling|].
  apply (deleteNodes_leaves_no_dangling_edge failing_peer "u" ["0"] None
           scenario_world scenario_doc scenario_world_doc scenario_doc_no_dangling).
Defined.

Lemma getRecommendations_keeps_the_order_of_the_strategy_witness :
  lookup_strategy sample_strategies "least_similar"
  = Some (λ _ _, ret (Some ["1"; "ghost"; "0"])) ∧
  ∃ w',
    getRecommendations sample_strategies "u" "least_similar" tt scenario_world
    = (w', inr ["1"; "0"]).
Proof.
  split; [reflexivity|].
  destruct (getRecommendations_keeps_the_order_of_the_strategy sample_strategies
              "u" "least_similar" tt scenario_world
              (λ _ _, ret (Some ["1"; "ghost"; "0"]))
              (strategy_world "u" scenario_world) ["1"; "ghost"; "0"]
              eq_refl eq_refl) as (w' & ids & Hrun & Hids & _).
  exists w'. rewrite Hrun, Hids. do 2 f_equal.
Defined.

Lemma calculateCluster_escalates_a_peer_failure_witness :
  failing_peer (mkRequest CalculateUmap (BodyUser "u") (mkConfig None (headers None)))
  = Rejected (Some 503) "timeout of 15000ms exceeded" ∧
  ∃ w',
    calculateCluster failing_peer "u" None scenario_world
    = (w', inl (Error "UMAP 군집 계산에 실패했습니다: timeout of 15000ms exceeded")) ∧
    kgraphs w' = kgraphs scenario_world.
Proof.
  split; [reflexivity|].
  destruct (calculateCluster_escalates_a_peer_failure failing_peer "u" None
              scenario_world (Some 503) "timeout of 15000ms exceeded" eq_refl)
    as (w' & Hrun & Hk & _).
  exists w'. split; [exact Hrun|exact Hk].
Defined.

Lemma only_createNode_and_importNodes_add_nodes_witness :
  (∀ v d a, CallDeleteNodes "u" ["0"] None ≠ CallCreateNode v d a) ∧
  (∀ v ids a, CallDeleteNodes "u" ["0"] None ≠ CallImportNodes v ids a) ∧
  kgraphs (perform healthy_peer (CallDeleteNodes "u" ["0"] None) scenario_world) !! "u"
  = Some (mkGraph [mkNode "1" "idea2" [] 0 0 None None (Some 0)] []) ∧
  ["1"] `sublist_of` (node_id <$> nodes (doc_of scenario_world "u")).
Proof.
  assert (Hg : kgraphs (perform healthy_peer (CallDeleteNodes "u" ["0"] None)
                          scenario_world) !! "u"
               = Some (mkGraph [mkNode "1" "idea2" [] 0 0 None None (Some 0)] []))
    by (vm_compute; reflexivity).
  split; [intros; discriminate|]. split; [intros; discriminate|].
  split; [exact Hg|].
  apply (only_createNode_and_importNodes_add_nodes healthy_peer
           (CallDeleteNodes "u" ["0"] None) scenario_world "u" _
           (λ _ _ _ H, eq_ind (CallDeleteNodes "u" ["0"] None)
                         (λ c, match c with CallDeleteNodes _ _ _ => True | _ => False end)
                         I _ H)
           (λ _ _ _ H, eq_ind (CallDeleteNodes "u" ["0"] None)
                         (λ c, match c with CallDeleteNodes _ _ _ => True | _ => False end)
                         I _ H)
           Hg).
Defined.

Lemma panel_delete_nodes_matches_the_store_witness :
  graph_view (getGraph "u" None scenario_world)
  = Some (nodes scenario_doc, edges scenario_doc) ∧
  graph_view (getGraph "u" None
                (deleteNodes healthy_peer "u" ["0"] None scenario_world).1)
  = Some ([mkNode "1" "idea2" [] 0 0 None None (Some 0)], []).
Proof.
  assert (Hview : graph_view (getGraph "u" None scenario_world)
                  = Some (nodes scenario_doc, edges scenario_doc))
    by (vm_compute; reflexivity).
  split; [exact Hview|].
  etrans; [apply (panel_delete_nodes_matches_the_store healthy_peer "u" None ["0"] None
                    scenario_world _ _ Hview)|].
  vm_compute. reflexivity.
Defined.

Lemma panel_clearAll_matches_the_store_witness :
  graph_view (getGraph "u" (Some "c1") sample_world)
  = Some ([sample_node], [mkEdge "3" "0" "0" ["y"]]) ∧
  (truthy_opt_string (Some "c1") = true ∨ no_dangling_edge (doc_of sample_world "u")) ∧
  graph_view (getGraph "u" (Some "c1")
                (deleteNodes healthy_peer "u" (clearAll_ids [sample_node]) None
                   sample_world).1)
  = Some ([], []).
Proof.
  assert (Hview : graph_view (getGraph "u" (Some "c1") sample_world)
                  = Some ([sample_node], [mkEdge "3" "0" "0" ["y"]]))
    by (vm_compute; reflexivity).
  split; [exact Hview|]. split; [left; reflexivity|].
  apply (panel_clearAll_matches_the_store healthy_peer "u" (Some "c1") None
           sample_world _ _ Hview (or_introl eq_refl)).
Defined.

Lemma panel_delete_edge_matches_the_store_witness :
  reachable scenario_world ∧
  graph_view (getGraph "u" None scenario_world)
  = Some (nodes scenario_doc, edges scenario_doc) ∧
  scenario_edge ∈ edges scenario_doc ∧
  ∃ w' ns',
    deleteEdge healthy_peer "u" "0" "1" None scenario_world = (w', inr 1) ∧
    graph_view (getGraph "u" None w') = Some (ns', []).
Proof.
  assert (Hview : graph_view (getGraph "u" None scenario_world)
                  = Some (nodes scenario_doc, edges scenario_doc))
    by (vm_compute; reflexivity).
  assert (Hin : scenario_edge ∈ edges scenario_doc) by left.
  split; [exact scenario_world_reachable|]. split; [exact Hview|]. split; [exact Hin|].
  destruct (panel_delete_edge_matches_the_store healthy_peer "u" None scenario_edge None
              scenario_world _ _ scenario_world_reachable Hview Hin)
    as (w' & ns' & Hrun & Hafter).
  exists w', ns'. split; [exact Hrun|]. rewrite Hafter. reflexivity.
Defined.

Lemma only_createEdge_adds_edges_witness :
  (∀ v src tgt label a,
     CallUpdateEdge "u" "0" "1" None None ≠ CallCreateEdge v src tgt label a) ∧
  (∃ g', kgraphs (perform healthy_peer (CallUpdateEdge "u" "0" "1" None None)
                    scenario_world) !! "u" = Some g' ∧
         (edge_id <$> edges g') `sublist_of` ["2"]).
Proof.
  split; [intros; discriminate|].
  destruct (kgraphs (perform healthy_peer (CallUpdateEdge "u" "0" "1" None None)
                       scenario_world) !! "u") as [g'|] eqn:Hg;
    [|vm_compute in Hg; discriminate Hg].
  exists g'. split; [reflexivity|].
  pose proof (only_createEdge_adds_edges healthy_peer
                (CallUpdateEdge "u" "0" "1" None None) scenario_world "u" g'
                (λ _ _ _ _ _ H,
                   eq_ind (CallUpdateEdge "u" "0" "1" None None)
                     (λ c, match c with CallUpdateEdge _ _ _ _ _ => True | _ => False end)
                     I _ H)
                Hg) as Hsub.
  rewrite scenario_world_doc_of in Hsub. exact Hsub.
Defined.

Lemma ids_are_distinct_in_reachable_worlds_witness :
  reachable scenario_world ∧
  kgraphs scenario_world !! "u" = Some scenario_doc ∧
  NoDup (node_id <$> nodes scenario_doc) ∧ NoDup (edge_id <$> edges scenario_doc) ∧
  (oid (next_oid scenario_world) ∉ node_id <$> nodes scenario_doc) ∧
  (oid (next_oid scenario_world) ∉ edge_id <$> edges scenario_doc).
Proof.
  split; [exact scenario_world_reachable|]. split; [exact scenario_world_doc|].
  apply (ids_are_distinct_in_reachable_worlds scenario_world "u" scenario_doc
           scenario_world_reachable scenario_world_doc).
Defined.

Lemma deleteNodes_undoes_createNode_witness :
  reachable scenario_world ∧
  no_dangling_edge (doc_of scenario_world "u") ∧
  (∃ w1 n,
     createNode healthy_peer "u" (idea "idea3") None scenario_world = (w1, inr n) ∧
     kgraphs (deleteNodes failing_peer "u" [node_id n] None w1).1
     = kgraphs scenario_world) ∧
  reachable start_world ∧
  no_dangling_edge (doc_of start_world "u") ∧
  (∃ w1 n,
     createNode healthy_peer "u" (idea "idea1") None start_world = (w1, inr n) ∧
     kgraphs (deleteNodes failing_peer "u" [node_id n] None w1).1 !! "u"
     = Some (mkGraph [] [])).
Proof.
  assert (Hclosed : no_dangling_edge (doc_of scenario_world "u"))
    by (rewrite scenario_world_doc_of; exact scenario_doc_no_dangling).
  assert (Hstart : reachable start_world) by (apply reachable_start; reflexivity).
  assert (Hnone : no_dangling_edge (doc_of start_world "u"))
    by (intros e He; apply elem_of_nil in He; destruct He).
  split; [exact scenario_world_reachable|]. split; [exact Hclosed|].
  split; [|split; [exact Hstart|split; [exact Hnone|]]].
  - destruct (deleteNodes_undoes_createNode healthy_peer failing_peer "u" (idea "idea3")
                None None scenario_world scenario_world_reachable Hclosed)
      as (w1 & n & Hrun & _ & _ & Hsame & _).
    exists w1, n. split; [exact Hrun|].
    apply Hsame. exists scenario_doc. exact scenario_world_doc.
  - destruct (deleteNodes_undoes_createNode healthy_peer failing_peer "u" (idea "idea1")
                None None start_world Hstart Hnone)
      as (w1 & n & Hrun & _ & _ & _ & Hempty).
    exists w1, n. split; [exact Hrun|]. apply Hempty. reflexivity.
Defined.

Lemma deleteEdge_undoes_createEdge_witness :
  reachable scenario_world ∧
  find_edge (edges (doc_of scenario_world "u")) "1" "0" = None ∧
  ∃ w1 r w2 g2,
    createEdge healthy_peer "u" "1" "0" (Some (LStr "back")) None scenario_world
    = (w1, inr r) ∧
    deleteEdge healthy_peer "u" "1" "0" None w1 = (w2, inr 1) ∧
    kgraphs w2 !! "u" = Some g2 ∧
    edges g2 = [scenario_edge].
Proof.
  assert (Hf : find_edge (edges (doc_of scenario_world "u")) "1" "0" = None)
    by (vm_compute; reflexivity).
  split; [exact scenario_world_reachable|]. split; [exact Hf|].
  destruct (deleteEdge_undoes_createEdge healthy_peer healthy_peer "u" "1" "0"
              (Some (LStr "back")) None None scenario_world
              scenario_world_reachable Hf)
    as (w1 & r & w2 & g2 & Hrun1 & Hrun2 & Hg2 & Hedges).
  exists w1, r, w2, g2. split; [exact Hrun1|]. split; [exact Hrun2|].
  split; [exact Hg2|]. rewrite Hedges, scenario_world_doc_of. reflexivity.
Defined.

